(** * earworm: difficulty analysis and rule-based MIDI simplification

    A shallow embedding of [earworm/difficulty/analyse.py] and
    [earworm/difficulty/simplify.py], followed by the properties of the
    specification that are stated about them.

    Conventions of the embedding.
    - Python integers are [Z]; [//] is [Z.div] (both round to the floor).
    - Python floats are embedded as exact rationals [Q].  Every finite float
      is a rational, and the comparisons of the code are against constants
      that are exact in binary (2, 4, 7, 10, 1.5, 2.5), so the branches
      taken are the ones of the code.  True division [a / b] is the exact
      quotient and [round] is round-half-to-even on that exact value; the
      constant [0.1] is taken as one tenth.
    - An operation that raises [ZeroDivisionError] returns the error
      constructor of [result]; every other path returns [Ok].  The range
      checks that mido makes when a message is built are not modelled: the
      fields of the messages built here come from decoded messages.
    - [mido.MidiFile] is the resolution and the list of tracks; the other
      attributes take the defaults of the constructor in every output.
      [mid.length], which mido computes from the file, is an argument of
      [analyse].
    - Sets of pitches are [gset Z], dictionaries are [gmap]. *)

From Stdlib Require Import ZArith QArith Qround List Lia Lqa.
From stdpp Require Import gmap strings sorting.
Import ListNotations.

Local Open Scope Z_scope.

(** ** Results of fallible code *)

Inductive result (A : Type) : Type :=
| Ok (a : A)
| ZeroDivisionError.
Arguments Ok {A} a.
Arguments ZeroDivisionError {A}.

Definition bind {A B} (r : result A) (k : A -> result B) : result B :=
  match r with
  | Ok a => k a
  | ZeroDivisionError => ZeroDivisionError
  end.

Notation "'let*' x ':=' r 'in' k" := (bind r (fun x => k))
  (at level 10, x name, r at level 100, k at level 200).

(** ** Numbers *)

Definition Qltb (x y : Q) : bool :=
  (Qnum x * Zpos (Qden y) <? Qnum y * Zpos (Qden x)).

(** Python's [round(x)] on a float: nearest integer, ties to the even one. *)
Definition py_round (x : Q) : Z :=
  let f := Qfloor x in
  match Qcompare (x - inject_Z f) (1 # 2) with
  | Lt => f
  | Gt => f + 1
  | Eq => if Z.even f then f else f + 1
  end.

(** [a / b] on two Python ints, for [b <> 0]. *)
Definition true_div (a b : Z) : Q := (inject_Z a / inject_Z b)%Q.

(** Python's two-argument [max] on floats: the first argument wins unless
    the second is strictly larger. *)
Definition py_maxQ (a b : Q) : Q := if Qltb a b then b else a.

(** [a // b] on two Python ints. *)
Definition floor_div (a b : Z) : result Z :=
  if b =? 0 then ZeroDivisionError else Ok (a / b).

(** [max(l)] and [min(l)] of a non-empty list of ints; the code calls them
    on non-empty lists only. *)
Definition list_max (l : list Z) : Z :=
  match l with
  | [] => 0
  | x :: l' => fold_left Z.max l' x
  end.

Definition list_min (l : list Z) : Z :=
  match l with
  | [] => 0
  | x :: l' => fold_left Z.min l' x
  end.

(** ** MIDI messages and files (the part of mido the code touches) *)

Inductive Message : Type :=
| NoteOn (channel note velocity time : Z)
| NoteOff (channel note velocity time : Z)
| SetTempo (tempo time : Z)
| EndOfTrack (time : Z)
| OtherMsg (name : string) (time : Z).

Definition MidiTrack := list Message.

Record MidiFile : Type := mkMidiFile {
  ticks_per_beat : Z;
  tracks : list MidiTrack
}.

Definition msg_time (m : Message) : Z :=
  match m with
  | NoteOn _ _ _ t | NoteOff _ _ _ t | SetTempo _ t | EndOfTrack t
  | OtherMsg _ t => t
  end.

(** [msg.copy(time=t)] *)
Definition copy_with_time (m : Message) (t : Z) : Message :=
  match m with
  | NoteOn c n v _ => NoteOn c n v t
  | NoteOff c n v _ => NoteOff c n v t
  | SetTempo u _ => SetTempo u t
  | EndOfTrack _ => EndOfTrack t
  | OtherMsg s _ => OtherMsg s t
  end.

(** [msg.type in ("note_on", "note_off")] *)
Definition is_note_msg (m : Message) : bool :=
  match m with
  | NoteOn _ _ _ _ | NoteOff _ _ _ _ => true
  | _ => false
  end.

(** [msg.type == "note_on" and msg.velocity > 0] *)
Definition is_note_start (m : Message) : bool :=
  match m with
  | NoteOn _ _ v _ => 0 <? v
  | _ => false
  end.

(** [msg.type == "note_off" or (msg.type == "note_on" and msg.velocity == 0)] *)
Definition is_note_stop (m : Message) : bool :=
  match m with
  | NoteOff _ _ _ _ => true
  | NoteOn _ _ v _ => v =? 0
  | _ => false
  end.

(** [msg.note] of a note message (the other messages have no pitch). *)
Definition msg_note (m : Message) : Z :=
  match m with
  | NoteOn _ n _ _ | NoteOff _ n _ _ => n
  | _ => 0
  end.

Definition msg_velocity (m : Message) : Z :=
  match m with
  | NoteOn _ _ v _ | NoteOff _ _ v _ => v
  | _ => 0
  end.

(** ** analyse.py: the scorer *)

Module Analyse.

Definition _estimate_level (nps polyphony : Q) (pitch_range hand_span : Z) : Z :=
  let score := 0 in
  (* Notes per second scoring *)
  let score :=
    if Qltb nps 2 then score + 1
    else if Qltb nps 4 then score + 3
    else if Qltb nps 7 then score + 5
    else if Qltb nps 10 then score + 7
    else score + 9 in
  (* Polyphony scoring *)
  let score :=
    if Qltb polyphony (3 # 2) then score + 1
    else if Qltb polyphony (5 # 2) then score + 3
    else if Qltb polyphony 4 then score + 5
    else score + 8 in
  (* Pitch range scoring *)
  let score :=
    if pitch_range <? 24 then score + 1
    else if pitch_range <? 36 then score + 3
    else if pitch_range <? 48 then score + 5
    else score + 7 in
  (* Hand span scoring *)
  let score :=
    if hand_span <? 8 then score + 1
    else if hand_span <? 12 then score + 3
    else if hand_span <? 15 then score + 5
    else score + 7 in
  (* Average and clamp to 1-10 *)
  let level := py_round (true_div score 4) in
  Z.max 1 (Z.min 10 level).

Record DifficultyReport : Type := mkReport {
  level : Z;
  label : string;
  notes_per_second : Q;
  avg_polyphony : Q;
  pitch_range : Z;
  max_hand_span : Z;
  total_notes : Z;
  duration_seconds : Q
}.

(** [LEVEL_LABELS.get(level, "unknown")] *)
Definition LEVEL_LABELS_get (level : Z) : string :=
  match level with
  | 1 => "beginner"
  | 2 => "beginner+"
  | 3 => "easy"
  | 4 => "easy+"
  | 5 => "intermediate"
  | 6 => "intermediate+"
  | 7 => "advanced"
  | 8 => "advanced+"
  | 9 => "expert"
  | 10 => "concert"
  | _ => "unknown"
  end%string.

(** The inner loop of the collection of note-on events: one track, with
    its running [abs_time], appending to [note_events]. *)
Fixpoint note_events_of_track (track : MidiTrack) (abs_time : Z)
    (note_events : list (Z * Z)) : list (Z * Z) :=
  match track with
  | [] => note_events
  | msg :: rest =>
      let abs_time := abs_time + msg_time msg in
      if is_note_start msg
      then note_events_of_track rest abs_time (note_events ++ [(abs_time, msg_note msg)])
      else note_events_of_track rest abs_time note_events
  end.

Definition collect_note_events (mid : MidiFile) : list (Z * Z) :=
  fold_left (fun note_events track => note_events_of_track track 0 note_events)
            (tracks mid) [].

(** [buckets.setdefault(bucket, []).append(note)] for every note event, with
    [bucket = int(t // window)]. *)
Fixpoint fill_buckets (window : Z) (note_events : list (Z * Z))
    (buckets : gmap Z (list Z)) : result (gmap Z (list Z)) :=
  match note_events with
  | [] => Ok buckets
  | (t, note) :: rest =>
      let* bucket := floor_div t window in
      fill_buckets window rest
        (<[bucket := default [] (buckets !! bucket) ++ [note]]> buckets)
  end.

(** [buckets.values()] *)
Definition bucket_values (buckets : gmap Z (list Z)) : list (list Z) :=
  (map_to_list buckets).*2.

(** The loop computing [max_span]. *)
Definition span_loop (values : list (list Z)) : Z :=
  fold_left
    (fun max_span notes =>
       if (1 <? Z.of_nat (length notes))
       then let span := list_max notes - list_min notes in Z.max max_span span
       else max_span)
    values 0.

Definition sum_list (l : list Z) : Z := fold_left Z.add l 0.

(** [analyse], from the decoded file on.  [duration] is [mid.length], the
    playing time in seconds that mido computes for the file. *)
Definition analyse (mid : MidiFile) (duration : Q) : result DifficultyReport :=
  (* Collect all note-on events *)
  let note_events := collect_note_events mid in
  if (match note_events with [] => true | _ => false end) || Qeq_bool duration 0
  then
    Ok {| level := 1;
          label := "beginner";
          notes_per_second := 0;
          avg_polyphony := 0;
          pitch_range := 0;
          max_hand_span := 0;
          total_notes := 0;
          duration_seconds := duration |}
  else
    let total_notes := Z.of_nat (length note_events) in
    let notes_per_second :=
      (inject_Z total_notes / py_maxQ duration (1 # 10))%Q in
    (* Pitch range *)
    let pitches := map snd note_events in
    let pitch_range := list_max pitches - list_min pitches in
    (* Polyphony: group notes by time bucket *)
    let tpb := ticks_per_beat mid in
    let window := tpb / 8 in
    let* buckets := fill_buckets window note_events ∅ in
    let polyphonies :=
      map (fun notes => Z.of_nat (length notes)) (bucket_values buckets) in
    let avg_polyphony :=
      match polyphonies with
      | [] => 0%Q
      | _ => true_div (sum_list polyphonies) (Z.of_nat (length polyphonies))
      end in
    (* Max hand span (max interval in simultaneous notes) *)
    let max_span := span_loop (bucket_values buckets) in
    (* Estimate difficulty level (1-10) *)
    let level := _estimate_level notes_per_second avg_polyphony pitch_range max_span in
    Ok {| level := level;
          label := LEVEL_LABELS_get level;
          notes_per_second := notes_per_second;
          avg_polyphony := avg_polyphony;
          pitch_range := pitch_range;
          max_hand_span := max_span;
          total_notes := total_notes;
          duration_seconds := duration |}.

End Analyse.

(** ** simplify.py *)

Module Simplify.

(** [round(tick / grid) * grid] *)
Definition _quantise_tick (tick grid : Z) : result Z :=
  if grid =? 0 then ZeroDivisionError
  else Ok (py_round (true_div tick grid) * grid).

Definition _get_ticks_per_beat (mid : MidiFile) : Z := ticks_per_beat mid.

(** The body of [_recalculate_deltas] is [pass]: the track is left as it is. *)
Definition _recalculate_deltas (track : MidiTrack) (grid : Z) : MidiTrack :=
  track.

(** *** Level 3 *)

(** The loop over the messages of one track. *)
Fixpoint advanced_loop (grid : Z) (track : MidiTrack) (cumulative_time : Z)
    (new_track : MidiTrack) : result MidiTrack :=
  match track with
  | [] => Ok new_track
  | msg :: rest =>
      let cumulative_time := cumulative_time + msg_time msg in
      if is_note_msg msg
      then
        let* quantised_time := _quantise_tick cumulative_time grid in
        let new_msg := copy_with_time msg 0 in
        advanced_loop grid rest cumulative_time (new_track ++ [new_msg])
      else
        advanced_loop grid rest cumulative_time
                      (new_track ++ [copy_with_time msg 0])
  end.

(** The loop over the tracks. *)
Fixpoint advanced_tracks (grid : Z) (tracks : list MidiTrack)
    (output_tracks : list MidiTrack) : result (list MidiTrack) :=
  match tracks with
  | [] => Ok output_tracks
  | track :: rest =>
      let* new_track := advanced_loop grid track 0 [] in
      (* Recalculate delta times *)
      let new_track := _recalculate_deltas new_track grid in
      advanced_tracks grid rest (output_tracks ++ [new_track])
  end.

Definition simplify_advanced (mid : MidiFile) : result MidiFile :=
  let tpb := _get_ticks_per_beat mid in
  let grid := tpb / 4 in
  let* output_tracks := advanced_tracks grid (tracks mid) [] in
  Ok (mkMidiFile tpb output_tracks).

(** *** Level 2 *)

Definition max_polyphony : Z := 4.
Definition min_velocity : Z := 40.

(** [min(active_notes)] *)
Definition set_min (active_notes : gset Z) : Z := list_min (elements active_notes).

(** One iteration of the loop over the messages of a track; the state is
    [active_notes] and [new_track]. *)
Definition intermediate_step (st : gset Z * MidiTrack) (msg : Message)
    : gset Z * MidiTrack :=
  let '(active_notes, new_track) := st in
  if is_note_start msg then
    if msg_velocity msg <? min_velocity then st
    else
      (* Limit polyphony: drop lowest notes if too many *)
      if max_polyphony <=? Z.of_nat (size active_notes) then
        if bool_decide (active_notes ≠ ∅) then
          let lowest := set_min active_notes in
          if lowest <? msg_note msg then
            let new_track := new_track ++ [NoteOff 0 lowest 0 0] in
            let active_notes := active_notes ∖ {[lowest]} in
            ({[msg_note msg]} ∪ active_notes, new_track ++ [msg])
          else st
        else ({[msg_note msg]} ∪ active_notes, new_track ++ [msg])
      else ({[msg_note msg]} ∪ active_notes, new_track ++ [msg])
  else if is_note_stop msg then
    (active_notes ∖ {[msg_note msg]}, new_track ++ [msg])
  else
    (active_notes, new_track ++ [msg]).

(** The loop over one track, from an empty active set and an empty track. *)
Definition intermediate_run (track : MidiTrack) : gset Z * MidiTrack :=
  fold_left intermediate_step track (∅, []).

Definition intermediate_track (track : MidiTrack) : MidiTrack :=
  (intermediate_run track).2.

Definition simplify_intermediate (mid : MidiFile) : MidiFile :=
  let tpb := _get_ticks_per_beat mid in
  let grid := tpb / 2 in
  mkMidiFile tpb (map intermediate_track (tracks mid)).

(** *** Level 1 *)

(** Collect the note events of one track with their absolute time. *)
Fixpoint events_of_track (track : MidiTrack) (abs_time : Z)
    (events : list (Z * Message)) : list (Z * Message) :=
  match track with
  | [] => events
  | msg :: rest =>
      let abs_time := abs_time + msg_time msg in
      if is_note_msg msg
      then events_of_track rest abs_time (events ++ [(abs_time, msg)])
      else events_of_track rest abs_time events
  end.

Definition collect_events (mid : MidiFile) : list (Z * Message) :=
  fold_left (fun events track => events_of_track track 0 events) (tracks mid) [].

(** [(e[0], -e[1].note if e[1].type == "note_on" else 0)] *)
Definition sort_key (e : Z * Message) : Z * Z :=
  (e.1, match e.2 with NoteOn _ n _ _ => - n | _ => 0 end).

(** Tuple comparison [a < b]. *)
Definition key_lt (a b : Z * Z) : bool :=
  (a.1 <? b.1) || ((a.1 =? b.1) && (a.2 <? b.2)).

(** [events.sort(key=...)]: a stable sort, here by insertion.  An element
    is placed before the first element of the sorted tail whose key is not
    smaller, so that equal keys keep their order. *)
Fixpoint insert_event (e : Z * Message) (l : list (Z * Message))
    : list (Z * Message) :=
  match l with
  | [] => [e]
  | y :: l' =>
      if key_lt (sort_key y) (sort_key e) then y :: insert_event e l'
      else e :: y :: l'
  end.

Definition sort_events (events : list (Z * Message)) : list (Z * Message) :=
  foldr insert_event [] events.

(** [grid_events.setdefault(q_time, []).append(msg)] for every event. *)
Fixpoint group_events (grid : Z) (events : list (Z * Message))
    (grid_events : gmap Z (list Message)) : result (gmap Z (list Message)) :=
  match events with
  | [] => Ok grid_events
  | (abs_time, msg) :: rest =>
      let* q_time := _quantise_tick abs_time grid in
      group_events grid rest
        (<[q_time := default [] (grid_events !! q_time) ++ [msg]]> grid_events)
  end.

(** [sorted(grid_events.keys())] *)
Definition sorted_keys (grid_events : gmap Z (list Message)) : list Z :=
  merge_sort Z.le (elements (dom grid_events)).

(** [max(note_ons, key=lambda m: m.note)]: the first message of maximal
    pitch; [None] stands for the empty list, which the code tests before. *)
Definition max_by_note (note_ons : list Message) : option Message :=
  match note_ons with
  | [] => None
  | m :: l =>
      Some (fold_left
              (fun best m => if msg_note best <? msg_note m then m else best)
              l m)
  end.

Record melody_state : Type := mkMelody {
  current_note : option Z;
  last_time : Z;
  melody_track : MidiTrack
}.

(** One iteration of the loop over the sorted grid positions. *)
Definition melody_step (grid_events : gmap Z (list Message))
    (st : melody_state) (q_time : Z) : melody_state :=
  let msgs := default [] (grid_events !! q_time) in
  (* Find the highest note_on in this grid slot *)
  let note_ons := List.filter is_note_start msgs in
  match max_by_note note_ons with
  | None => st
  | Some highest =>
      let delta := q_time - last_time st in
      (* Turn off previous note *)
      let '(track, delta) :=
        match current_note st with
        | Some c => (melody_track st ++ [NoteOff 0 c 0 delta], 0)
        | None => (melody_track st, delta)
        end in
      (* Turn on new note *)
      {| current_note := Some (msg_note highest);
         last_time := q_time;
         melody_track :=
           track ++ [NoteOn 0 (msg_note highest)
                            (Z.min (msg_velocity highest) 100) delta] |}
  end.

Fixpoint find_tempo_track (track : MidiTrack) : option Z :=
  match track with
  | [] => None
  | SetTempo u _ :: _ => Some u
  | _ :: rest => find_tempo_track rest
  end.

Fixpoint find_tempo_tracks (tracks : list MidiTrack) : option Z :=
  match tracks with
  | [] => None
  | track :: rest =>
      match find_tempo_track track with
      | Some u => Some u
      | None => find_tempo_tracks rest
      end
  end.

(** The first [set_tempo] of the file, [mido.bpm2tempo(120)] otherwise. *)
Definition _find_tempo (mid : MidiFile) : Z :=
  default 500000 (find_tempo_tracks (tracks mid)).

Definition simplify_beginner (mid : MidiFile) : result MidiFile :=
  let tpb := _get_ticks_per_beat mid in
  let grid := tpb in
  (* Collect all note events with absolute timing across all tracks *)
  let events := collect_events mid in
  (* Sort by time, then by note pitch (descending) *)
  let events := sort_events events in
  (* Group events by quantised grid position *)
  let* grid_events := group_events grid events ∅ in
  let st :=
    fold_left (melody_step grid_events) (sorted_keys grid_events)
              (mkMelody None 0 []) in
  (* Close final note *)
  let melody :=
    match current_note st with
    | Some c => melody_track st ++ [NoteOff 0 c 0 grid]
    | None => melody_track st
    end in
  (* Add tempo track with reduced speed: int(original_tempo * 1.25) *)
  let original_tempo := _find_tempo mid in
  let slower_tempo := Z.quot (original_tempo * 5) 4 in
  let tempo_track := [SetTempo slower_tempo 0; EndOfTrack 0] in
  Ok (mkMidiFile tpb [tempo_track; melody ++ [EndOfTrack 0]]).

End Simplify.


(** ** simplify.py: the driver *)

Module Driver.

Definition BEGINNER : Z := 1.
Definition INTERMEDIATE : Z := 2.
Definition ADVANCED : Z := 3.

Section Simplify.

(** [simplified.save(str(output_path))]: the encoding and the writing are
    mido's and the file system's.  Whether the call returns ([true]) or
    raises is what the driver depends on; it is a parameter here. *)
Variable save : MidiFile -> string -> bool.

(** The dictionary [levels], in its order.  [simplify_intermediate] never
    raises. *)
Definition levels : list (Z * (string * (MidiFile -> result MidiFile))) :=
  [ (BEGINNER, ("beginner"%string, Simplify.simplify_beginner));
    (INTERMEDIATE,
      ("intermediate"%string,
       fun mid => Ok (Simplify.simplify_intermediate mid)));
    (ADVANCED, ("advanced"%string, Simplify.simplify_advanced)) ].

(** [f"{stem}_{name}.mid"], the name of the file inside [output_dir]. *)
Definition output_name (stem name : string) : string :=
  stem +:+ "_" +:+ name +:+ ".mid".

(** One iteration of the loop over the levels: the body of [try], and
    [except Exception], which leaves [results] as it is. *)
Definition level_step (mid : MidiFile) (stem : string)
    (results : gmap Z string)
    (entry : Z * (string * (MidiFile -> result MidiFile))) : gmap Z string :=
  let '(level, (name, func)) := entry in
  let output_path := output_name stem name in
  match func mid with
  | Ok simplified =>
      if save simplified output_path
      then <[level := output_path]> results
      else results
  | ZeroDivisionError => results
  end.

(** [simplify], from the decoded file and the stem of its path on; the
    result maps a level to the name of its file in [output_dir]. *)
Definition simplify (mid : MidiFile) (stem : string) : gmap Z string :=
  fold_left (level_step mid stem) levels ∅.

End Simplify.

End Driver.

(** ** fetch.py: file names *)

Module Fetch.

(** A Python string is a list of code points. *)
Definition hyphen : Z := 45.
Definition underscore : Z := 95.

Section Sanitise.

(** The classes [\w] and [\s] of the [re] module on code points. *)
Variable is_word is_space : Z -> bool.

(** [re.sub(r"[^\w\s-]", "", title)] *)
Definition drop_unsafe (title : list Z) : list Z :=
  List.filter (fun c => is_word c || is_space c || (c =? hyphen)) title.

(** [re.sub(r"\s+", "_", clean)]: every maximal run of white space becomes
    one underscore.  [in_run] tells that the previous character was white
    space. *)
Fixpoint collapse_spaces (in_run : bool) (clean : list Z) : list Z :=
  match clean with
  | [] => []
  | c :: rest =>
      if is_space c
      then if in_run then collapse_spaces true rest
           else underscore :: collapse_spaces true rest
      else c :: collapse_spaces false rest
  end.

(** [s.lstrip("_")] *)
Fixpoint lstrip (s : list Z) : list Z :=
  match s with
  | [] => []
  | c :: rest => if c =? underscore then lstrip rest else s
  end.

(** [s.strip("_")] *)
Definition strip (s : list Z) : list Z := rev (lstrip (rev (lstrip s))).

Definition sanitise_filename (title : list Z) : list Z :=
  let clean := drop_unsafe title in
  let clean := strip (collapse_spaces false clean) in
  firstn 80 clean.

End Sanitise.

End Fetch.
(** * Notions used to state the properties *)

(** ** Scorer tables *)

Import Analyse.

(** The breakpoint tables as the specification gives them: rows of
    half-open ranges [lo <= x < hi] (a missing bound is unbounded) with the
    sub-score of the range. *)
Definition row : Type := option Q * option Q * Z.

Definition in_row (x : Q) (r : row) : Prop :=
  let '(lo, hi, _) := r in
  match lo with Some l => (l <= x)%Q | None => True end /\
  match hi with Some h => (x < h)%Q | None => True end.

Definition sub_score (table : list row) (x : Q) (s : Z) : Prop :=
  exists r, In r table /\ in_row x r /\ r.2 = s.

Definition nps_table : list row :=
  [ (None, Some 2%Q, 1); (Some 2%Q, Some 4%Q, 3); (Some 4%Q, Some 7%Q, 5);
    (Some 7%Q, Some 10%Q, 7); (Some 10%Q, None, 9) ].

Definition polyphony_table : list row :=
  [ (None, Some (3 # 2), 1); (Some (3 # 2), Some (5 # 2), 3);
    (Some (5 # 2), Some 4%Q, 5); (Some 4%Q, None, 8) ].

Definition pitch_range_table : list row :=
  [ (None, Some 24%Q, 1); (Some 24%Q, Some 36%Q, 3);
    (Some 36%Q, Some 48%Q, 5); (Some 48%Q, None, 7) ].

Definition hand_span_table : list row :=
  [ (None, Some 8%Q, 1); (Some 8%Q, Some 12%Q, 3);
    (Some 12%Q, Some 15%Q, 5); (Some 15%Q, None, 7) ].

(** The four contributions that the code adds to [score]. *)
Definition nps_points (nps : Q) : Z :=
  if Qltb nps 2 then 1 else if Qltb nps 4 then 3
  else if Qltb nps 7 then 5 else if Qltb nps 10 then 7 else 9.

Definition polyphony_points (polyphony : Q) : Z :=
  if Qltb polyphony (3 # 2) then 1 else if Qltb polyphony (5 # 2) then 3
  else if Qltb polyphony 4 then 5 else 8.

Definition pitch_range_points (pitch_range : Z) : Z :=
  if pitch_range <? 24 then 1 else if pitch_range <? 36 then 3
  else if pitch_range <? 48 then 5 else 7.

Definition hand_span_points (hand_span : Z) : Z :=
  if hand_span <? 8 then 1 else if hand_span <? 12 then 3
  else if hand_span <? 15 then 5 else 7.

Definition score_of (nps polyphony : Q) (pitch_range hand_span : Z) : Z :=
  nps_points nps + polyphony_points polyphony
  + pitch_range_points pitch_range + hand_span_points hand_span.

(** ** Advanced simplification *)

(** [msg.copy(time=0)] *)
Definition zero_time (m : Message) : Message := copy_with_time m 0.

(** A 5-tick note (about 5 ms at 120 BPM and 480 ticks per beat) that
    starts off the grid at tick 100, then a quarter note from tick 480 to
    tick 960. *)
Definition short_then_quarter : MidiFile :=
  mkMidiFile 480
    [[ SetTempo 500000 0;
       NoteOn 0 60 80 100; NoteOff 0 60 0 5;
       NoteOn 0 62 80 375; NoteOff 0 62 0 480;
       EndOfTrack 0 ]].

(** ** Inputs used as examples *)

(** The chord of [test_reduces_to_single_notes]. *)
Definition test_chord : MidiFile :=
  mkMidiFile 480
    [[ NoteOn 0 60 80 0; NoteOn 0 64 80 0; NoteOn 0 67 80 0;
       NoteOff 0 60 0 480; NoteOff 0 64 0 0; NoteOff 0 67 0 0;
       EndOfTrack 0 ]].

Definition test_chord_advanced : MidiFile :=
  mkMidiFile 480
    [[ NoteOn 0 60 80 0; NoteOn 0 64 80 0; NoteOn 0 67 80 0;
       NoteOff 0 60 0 0; NoteOff 0 64 0 0; NoteOff 0 67 0 0;
       EndOfTrack 0 ]].

(** What beginner simplification makes of the chord. *)
Definition test_chord_beginner : MidiFile :=
  mkMidiFile 480
    [ [ SetTempo 625000 0; EndOfTrack 0 ];
      [ NoteOn 0 67 80 0; NoteOff 0 67 0 480; EndOfTrack 0 ] ].

(** ** Replaying a stream of messages *)

(** The active set as [test_limits_polyphony] maintains it: a note-start
    adds its pitch, a note-stop discards it. *)
Definition replay_step (active : gset Z) (msg : Message) : gset Z :=
  if is_note_start msg then {[msg_note msg]} ∪ active
  else if is_note_stop msg then active ∖ {[msg_note msg]}
  else active.

(** The state of the replay: the active set and the largest size it has
    had ([max_active] in the test). *)
Definition replay_max_step (st : gset Z * nat) (msg : Message) : gset Z * nat :=
  let active := replay_step st.1 msg in
  (active, Nat.max st.2 (size active)).

Definition replay (msgs : list Message) : gset Z * nat :=
  fold_left replay_max_step msgs (∅, 0%nat).

(** One track replayed on its own. *)
Definition max_active_track (track : MidiTrack) : nat := (replay track).2.

(** The timeline of a file: the messages of all tracks with their absolute
    times (the running sum of the delta times of their track), ordered by
    absolute time; messages of equal time keep the order of the tracks. *)
Fixpoint to_abstime (track : MidiTrack) (now : Z) : list (Z * Message) :=
  match track with
  | [] => []
  | msg :: rest =>
      let now := now + msg_time msg in (now, msg) :: to_abstime rest now
  end.

Fixpoint insert_by_time (e : Z * Message) (l : list (Z * Message))
    : list (Z * Message) :=
  match l with
  | [] => [e]
  | y :: l' => if y.1 <? e.1 then y :: insert_by_time e l' else e :: y :: l'
  end.

Definition timeline (mid : MidiFile) : list Message :=
  (foldr insert_by_time []
         (concat (map (fun track => to_abstime track 0) (tracks mid)))).*2.

(** The whole file replayed in timeline order. *)
Definition max_active_timeline (mid : MidiFile) : nat :=
  (replay (timeline mid)).2.

(** No note-start is quieter than [min_velocity]. *)
Definition loud_enough (msg : Message) : Prop :=
  is_note_start msg = true -> Simplify.min_velocity <= msg_velocity msg.

(** The loop invariant: replaying the output track built so far gives
    the active set of the loop, which has at most [max_polyphony]
    members and never had more, and no emitted note-start is quiet. *)
Definition intermediate_inv (st : gset Z * MidiTrack) : Prop :=
  (replay st.2).1 = st.1 /\
  (size st.1 <= 4)%nat /\
  ((replay st.2).2 <= 4)%nat /\
  Forall loud_enough st.2.

(** The guard of the specification on note-stops: at a note-stop whose
    pitch is not in the active set, the output track is not extended. *)
Definition stops_guarded (track : MidiTrack) : Prop :=
  forall pre msg post,
    track = pre ++ msg :: post ->
    is_note_stop msg = true ->
    msg_note msg ∉ (Simplify.intermediate_run pre).1 ->
    (Simplify.intermediate_run (pre ++ [msg])).2
    = (Simplify.intermediate_run pre).2.

(** A quiet note with its stop. *)
Definition quiet_note : MidiTrack :=
  [ NoteOn 0 64 20 0; NoteOff 0 64 0 480 ].

(** Two tracks (two hands) of four held notes each. *)
Definition two_hands : MidiFile :=
  mkMidiFile 480
    [ [ NoteOn 0 36 80 0; NoteOn 0 43 80 0; NoteOn 0 48 80 0; NoteOn 0 52 80 0;
        NoteOff 0 36 0 480; NoteOff 0 43 0 0; NoteOff 0 48 0 0;
        NoteOff 0 52 0 0; EndOfTrack 0 ];
      [ NoteOn 0 60 80 0; NoteOn 0 64 80 0; NoteOn 0 67 80 0; NoteOn 0 72 80 0;
        NoteOff 0 60 0 480; NoteOff 0 64 0 0; NoteOff 0 67 0 0;
        NoteOff 0 72 0 0; EndOfTrack 0 ] ].

(** ** Analysis *)

(** The note-starts of a file: its note-on messages of velocity above 0. *)
Definition note_starts (mid : MidiFile) : list Message :=
  concat (map (List.filter is_note_start) (tracks mid)).

(** One bar of silence: a lone note-off after 480 ticks, which at 480 ticks
    per beat and the default tempo lasts half a second. *)
Definition silent_bar : MidiFile :=
  mkMidiFile 480 [[ NoteOff 0 60 0 480; EndOfTrack 0 ]].

(** A file of resolution 4 with one note-start at time 0 and nothing after
    it: its playing time is 0. *)
Definition coarse_note : MidiFile :=
  mkMidiFile 4 [[ NoteOn 0 60 80 0 ]].

(** The same note held for a beat. *)
Definition coarse_held_note : MidiFile :=
  mkMidiFile 4 [[ NoteOn 0 60 80 0; NoteOff 0 60 0 4 ]].

(** ** Monophonic lines *)

(** The count of sounding notes as [test_reduces_to_single_notes] keeps
    it, with the largest value it has had. *)
Definition count_step (st : Z * Z) (msg : Message) : Z * Z :=
  let '(active, max_active) := st in
  let active :=
    if is_note_start msg then active + 1
    else if is_note_stop msg then Z.max 0 (active - 1)
    else active in
  (active, Z.max max_active active).

Definition count_replay (msgs : list Message) : Z * Z :=
  fold_left count_step msgs (0, 0).

(** A checker for a single melodic line.  The state is the pitch that
    sounds, if any, and whether the last message was a stop.  A note may
    start only when none sounds, and a start that comes right after a stop
    must be at the same time point (delta time 0); a stop must be the stop
    of the note that sounds. *)
Definition line_step (st : option Z * bool) (msg : Message)
    : option (option Z * bool) :=
  let '(sounding, just_stopped) := st in
  if is_note_start msg then
    match sounding with
    | Some _ => None
    | None =>
        if just_stopped && negb (msg_time msg =? 0) then None
        else Some (Some (msg_note msg), false)
    end
  else if is_note_stop msg then
    match sounding with
    | Some n => if n =? msg_note msg then Some (None, true) else None
    | None => None
    end
  else Some (sounding, false).

Fixpoint line_check (st : option Z * bool) (msgs : list Message)
    : option (option Z * bool) :=
  match msgs with
  | [] => Some st
  | msg :: rest =>
      match line_step st msg with
      | Some st' => line_check st' rest
      | None => None
      end
  end.

(** The active set that corresponds to a state of the checker. *)
Definition sounding_set (sounding : option Z) : gset Z :=
  match sounding with
  | Some n => {[n]}
  | None => ∅
  end.

Definition sounding_count (sounding : option Z) : Z :=
  match sounding with
  | Some _ => 1
  | None => 0
  end.

(** The line is accepted and nothing sounds at its end. *)
Definition monophonic_line (msgs : list Message) : Prop :=
  exists just_stopped, line_check (None, false) msgs = Some (None, just_stopped).

(** ** Grid slots of the beginner level *)

(** The note messages of a file with their absolute times, track after
    track. *)
Definition timed_notes (mid : MidiFile) : list (Z * Message) :=
  List.filter (fun e => is_note_msg e.2)
              (concat (map (fun track => to_abstime track 0) (tracks mid))).

(** [e] falls into the grid slot [q]: its absolute time is quantised to
    [q]. *)
Definition in_slot (grid q : Z) (e : Z * Message) : bool :=
  match Simplify._quantise_tick e.1 grid with
  | Ok q' => q' =? q
  | ZeroDivisionError => false
  end.

(** [e] is a note-start of the slot [q]. *)
Definition slot_start (grid q : Z) (e : Z * Message) : Prop :=
  is_note_start e.2 = true /\ Simplify._quantise_tick e.1 grid = Ok q.

(** [m] is the melody note of the slot [q]: a note-on that has the pitch
    of a note-start [e] of the slot that no note-start of the slot
    exceeds in pitch, and the velocity of [e] capped at 100. *)
Definition melody_note_of (grid : Z) (events : list (Z * Message))
    (q : Z) (m : Message) : Prop :=
  exists e,
    In e events /\ slot_start grid q e /\
    (forall e', In e' events -> slot_start grid q e' ->
                msg_note e'.2 <= msg_note e.2) /\
    exists t, m = NoteOn 0 (msg_note e.2) (Z.min (msg_velocity e.2) 100) t.

(** The slot has a note-start among its messages. *)
Definition has_start (grid_events : gmap Z (list Message)) (q : Z) : bool :=
  match List.filter is_note_start (default [] (grid_events !! q)) with
  | [] => false
  | _ => true
  end.

(** What one iteration of the melody loop emits for a slot. *)
Definition selected (grid_events : gmap Z (list Message)) (q : Z)
    (m : Message) : Prop :=
  exists highest t,
    Simplify.max_by_note
      (List.filter is_note_start (default [] (grid_events !! q)))
    = Some highest /\
    m = NoteOn 0 (msg_note highest) (Z.min (msg_velocity highest) 100) t.

(** ** Well-timed files *)

(** Delta times of a decoded file are never negative. *)
Definition well_timed (mid : MidiFile) : Prop :=
  Forall (Forall (fun m => 0 <= msg_time m)) (tracks mid).

(** The order of two timed messages in a timeline. *)
Definition time_le (a b : Z * Message) : Prop := a.1 <= b.1.

(** * Notions used by the further properties *)

(** ** Buckets *)

(** What the buckets hold: non-empty lists of pitches of the note events. *)
Definition buckets_of (pitches : list Z) (buckets : gmap Z (list Z)) : Prop :=
  forall k notes, buckets !! k = Some notes ->
                  notes <> [] /\ forall x, In x notes -> In x pitches.

(** The number of notes over all buckets. *)
Definition bucket_total (buckets : gmap Z (list Z)) : Z :=
  sum_list (map (fun notes => Z.of_nat (length notes)) (bucket_values buckets)).

(** ** Files *)

(** The file has a note message (a note-on or a note-off) in some track. *)
Definition has_note_msg (mid : MidiFile) : Prop :=
  exists track msg,
    In track (tracks mid) /\ In msg track /\ is_note_msg msg = true.

(** Two messages that differ in their delta time at most. *)
Definition same_but_time (m m' : Message) : Prop :=
  copy_with_time m 0 = copy_with_time m' 0.

(** A file with one note and a resolution of 2 ticks per beat. *)
Definition coarse_two : MidiFile :=
  mkMidiFile 2 [[ NoteOn 0 60 80 0; NoteOff 0 60 0 2 ]].

(** A file with one note and a resolution of 0. *)
Definition no_resolution : MidiFile :=
  mkMidiFile 0 [[ NoteOn 0 60 80 0; NoteOff 0 60 0 2 ]].

(** ** Intermediate level *)

(** A note-start that the intermediate level does not filter out. *)
Definition loud_start (m : Message) : bool :=
  is_note_start m && (Simplify.min_velocity <=? msg_velocity m).

(** A message that is neither a note-on nor a note-off. *)
Definition other_msg (m : Message) : bool := negb (is_note_msg m).

(** A track of three held notes, a tempo and an end marker. *)
Definition triad_track : MidiTrack :=
  [ SetTempo 500000 0;
    NoteOn 0 60 80 0; NoteOn 0 64 70 0; NoteOn 0 67 90 0;
    NoteOff 0 60 0 480; NoteOff 0 64 0 0; NoteOff 0 67 0 0;
    EndOfTrack 0 ].

(** ** Beginner level *)

(** The duration of a track in ticks: the sum of its delta times. *)
Definition track_ticks (track : MidiTrack) : Z :=
  fold_right (fun m acc => msg_time m + acc) 0 track.

(** The absolute times at which the note-starts of a track occur. *)
Definition onsets (track : MidiTrack) : list Z :=
  map fst (List.filter (fun e => is_note_start e.2) (to_abstime track 0)).

(** The tempo changes of a stream of messages, in order. *)
Definition tempos (msgs : list Message) : list Z :=
  flat_map (fun m => match m with SetTempo u _ => [u] | _ => [] end) msgs.

(** A file that has a tempo and note-offs, but no note-start. *)
Definition stops_only : MidiFile :=
  mkMidiFile 480
    [ [ SetTempo 400000 0; EndOfTrack 0 ];
      [ NoteOff 0 60 0 480; NoteOn 0 62 0 480; EndOfTrack 0 ] ].

(** What beginner simplification makes of it. *)
Definition stops_only_beginner : MidiFile :=
  mkMidiFile 480 [ [ SetTempo 500000 0; EndOfTrack 0 ]; [ EndOfTrack 0 ] ].

(** ** Driver *)

(** A [save] that always succeeds. *)
Definition save_always (f : MidiFile) (path : string) : bool := true.

(** ** File names *)

(** The classes [\w] and [\s] on the ASCII range: letters, digits and the
    underscore; tab, line feed, vertical tab, form feed, carriage return,
    the four separators and the space. *)
Definition ascii_word (c : Z) : bool :=
  ((48 <=? c) && (c <=? 57)) || ((65 <=? c) && (c <=? 90))
  || ((97 <=? c) && (c <=? 122)) || (c =? 95).

Definition ascii_space (c : Z) : bool :=
  ((9 <=? c) && (c <=? 13)) || ((28 <=? c) && (c <=? 32)).

(** A character that may occur in a sanitised name. *)
Definition safe_char (is_word is_space : Z -> bool) (c : Z) : Prop :=
  c = Fetch.underscore \/
  is_space c = false /\ (is_word c = true \/ c = Fetch.hyphen).

(** ["Hey Jude!"] and ["Hey_Jude"] as code points. *)
Definition title_hey_jude : list Z := [72; 101; 121; 32; 74; 117; 100; 101; 33].
Definition name_hey_jude : list Z := [72; 101; 121; 95; 74; 117; 100; 101].

(** ["?! ..."] as code points. *)
Definition title_symbols : list Z := [63; 33; 32; 46; 46; 46].

(** ** Shapes of messages *)

(** A message of a melody track: on channel 0, a note-on of velocity 1 to
    100, a note-off of velocity 0, or the end-of-track marker. *)
Definition melody_msg (m : Message) : Prop :=
  match m with
  | NoteOn c _ v _ => c = 0 /\ 1 <= v <= 100
  | NoteOff c _ v _ => c = 0 /\ v = 0
  | EndOfTrack _ => True
  | _ => False
  end.

(** A file of one track with a quiet note that comes 240 ticks after the
    start. *)
Definition late_quiet_note : MidiFile :=
  mkMidiFile 480
    [[ NoteOn 0 60 80 0; NoteOn 0 64 20 240; NoteOff 0 64 0 240;
       NoteOff 0 60 0 0; EndOfTrack 0 ]].

(** ** The melody as a list of notes *)

(** The note that the melody loop selects for a slot: the slot with the
    pitch and the capped velocity of the highest note-start. *)
Definition pick (grid_events : gmap Z (list Message)) (q : Z) : Z * Z * Z :=
  match Simplify.max_by_note
          (List.filter is_note_start (default [] (grid_events !! q))) with
  | Some highest =>
      (q, msg_note highest, Z.min (msg_velocity highest) 100)
  | None => (q, 0, 0)
  end.

(** The selected notes over the grid positions, in order. *)
Definition chosen (grid_events : gmap Z (list Message)) (keys : list Z)
    : list (Z * Z * Z) :=
  map (pick grid_events) (List.filter (has_start grid_events) keys).

(** The messages of a melody from a list of notes [(slot, pitch,
    velocity)]: each note is stopped when the next one starts, the last
    one a grid step after its start; [current] is the note that sounds and
    [last] the time of its start. *)
Fixpoint render (grid : Z) (notes : list (Z * Z * Z)) (current : option Z)
    (last : Z) : MidiTrack :=
  match notes with
  | [] =>
      match current with
      | Some c => [NoteOff 0 c 0 grid]
      | None => []
      end ++ [EndOfTrack 0]
  | (q, n, v) :: rest =>
      match current with
      | Some c => [NoteOff 0 c 0 (q - last); NoteOn 0 n v 0]
      | None => [NoteOn 0 n v (q - last)]
      end ++ render grid rest (Some n) q
  end.

(** A melody of two notes that was simplified twice. *)
Definition two_notes : MidiFile :=
  mkMidiFile 480
    [ [ SetTempo 600000 0; EndOfTrack 0 ];
      [ NoteOn 0 60 80 0; NoteOn 1 64 120 10; NoteOff 0 60 0 470;
        NoteOn 2 62 90 900; NoteOff 0 62 0 5; EndOfTrack 0 ] ].

Definition two_notes_once : MidiFile :=
  mkMidiFile 480
    [ [ SetTempo 750000 0; EndOfTrack 0 ];
      [ NoteOn 0 64 100 0; NoteOff 0 64 0 1440; NoteOn 0 62 90 0;
        NoteOff 0 62 0 480; EndOfTrack 0 ] ].

Definition two_notes_twice : MidiFile :=
  mkMidiFile 480
    [ [ SetTempo 937500 0; EndOfTrack 0 ];
      [ NoteOn 0 64 100 0; NoteOff 0 64 0 1440; NoteOn 0 62 90 0;
        NoteOff 0 62 0 480; EndOfTrack 0 ] ].

(** * Properties *)

(** ** Rounding *)

Lemma Qltb_lt (x y : Q) : Qltb x y = true <-> (x < y)%Q.
Proof. unfold Qltb, Qlt. apply Z.ltb_lt. Qed.

Lemma Qltb_ge (x y : Q) : Qltb x y = false <-> (y <= x)%Q.
Proof. unfold Qltb, Qle. apply Z.ltb_ge. Qed.

Lemma py_round_comp (x y : Q) : (x == y)%Q -> py_round x = py_round y.
Proof.
  intros E. unfold py_round.
  rewrite (Qfloor_comp _ _ E).
  assert (E' : (x - inject_Z (Qfloor y) == y - inject_Z (Qfloor y))%Q)
    by (rewrite E; reflexivity).
  rewrite (Qcompare_comp _ _ E' (1 # 2) (1 # 2) (Qeq_refl _)).
  reflexivity.
Qed.

(** A value halfway between [k] and [k + 1] goes to the even one. *)
Lemma py_round_half (k : Z) :
  py_round ((2 * k + 1) # 2) = if Z.even k then k else k + 1.
Proof.
  unfold py_round.
  assert (F : Qfloor ((2 * k + 1) # 2) = k).
  { unfold Qfloor. symmetry. apply Z.div_unique with (r := 1); lia. }
  rewrite F.
  assert (E : Qcompare ((2 * k + 1 # 2) - inject_Z k) (1 # 2) = Eq).
  { apply (proj1 (Qeq_alt _ _)).
    unfold Qeq, Qminus, Qplus, Qopp, inject_Z. simpl. lia. }
  rewrite E. reflexivity.
Qed.

Lemma py_round_inject (k : Z) : py_round (inject_Z k) = k.
Proof.
  unfold py_round. rewrite Qfloor_Z.
  assert (E : Qcompare (inject_Z k - inject_Z k) (1 # 2) = Lt).
  { apply (proj1 (Qlt_alt _ _)).
    unfold Qlt, Qminus, Qplus, Qopp, inject_Z. simpl. lia. }
  rewrite E. reflexivity.
Qed.

Lemma true_div_half (value grid k : Z) :
  grid <> 0 -> 2 * value = (2 * k + 1) * grid ->
  (true_div value grid == (2 * k + 1) # 2)%Q.
Proof.
  intros Hg H. unfold true_div.
  assert (E : (inject_Z value == ((2 * k + 1) # 2) * inject_Z grid)%Q).
  { unfold Qeq, Qmult, inject_Z. simpl. lia. }
  rewrite E. field.
  unfold Qeq, inject_Z. simpl. lia.
Qed.

Lemma true_div_exact (a b k : Z) :
  b <> 0 -> a = k * b -> (true_div a b == inject_Z k)%Q.
Proof.
  intros Hb H. unfold true_div.
  assert (E : (inject_Z a == inject_Z k * inject_Z b)%Q).
  { unfold Qeq, Qmult, inject_Z. simpl. lia. }
  rewrite E. field.
  unfold Qeq, inject_Z. simpl. lia.
Qed.

(** ** The difficulty scorer *)

Section Scorer.

Lemma estimate_level_score nps polyphony pitch_range hand_span :
  _estimate_level nps polyphony pitch_range hand_span
  = Z.max 1 (Z.min 10
      (py_round (true_div (score_of nps polyphony pitch_range hand_span) 4))).
Proof.
  unfold _estimate_level, score_of, nps_points, polyphony_points,
    pitch_range_points, hand_span_points.
  repeat match goal with
         | |- context [if ?b then _ else _] => destruct b
         end; reflexivity.
Qed.

Lemma Qltb_inject (a : Z) (b : Z) : Qltb (inject_Z a) (inject_Z b) = (a <? b).
Proof. unfold Qltb, inject_Z. simpl. now rewrite !Z.mul_1_r. Qed.

Lemma sub_score_intro (table : list row) (x : Q) (r : row) :
  In r table -> in_row x r -> sub_score table x r.2.
Proof. intros Hin Hr. exists r. auto. Qed.

Lemma nps_points_table nps : sub_score nps_table nps (nps_points nps).
Proof.
  unfold nps_points.
  destruct (Qltb nps 2) eqn:H2;
    [ apply Qltb_lt in H2 | apply Qltb_ge in H2;
      destruct (Qltb nps 4) eqn:H4;
      [ apply Qltb_lt in H4 | apply Qltb_ge in H4;
        destruct (Qltb nps 7) eqn:H7;
        [ apply Qltb_lt in H7 | apply Qltb_ge in H7;
          destruct (Qltb nps 10) eqn:H10;
          [ apply Qltb_lt in H10 | apply Qltb_ge in H10 ] ] ] ].
  - apply (sub_score_intro nps_table nps (None, Some 2%Q, 1)); simpl; auto.
  - apply (sub_score_intro nps_table nps (Some 2%Q, Some 4%Q, 3)); simpl; auto.
  - apply (sub_score_intro nps_table nps (Some 4%Q, Some 7%Q, 5));
      simpl; auto 6.
  - apply (sub_score_intro nps_table nps (Some 7%Q, Some 10%Q, 7));
      simpl; auto 7.
  - apply (sub_score_intro nps_table nps (Some 10%Q, None, 9)); simpl; auto 8.
Qed.

Lemma polyphony_points_table p :
  sub_score polyphony_table p (polyphony_points p).
Proof.
  unfold polyphony_points.
  destruct (Qltb p (3 # 2)) eqn:H2;
    [ apply Qltb_lt in H2 | apply Qltb_ge in H2;
      destruct (Qltb p (5 # 2)) eqn:H4;
      [ apply Qltb_lt in H4 | apply Qltb_ge in H4;
        destruct (Qltb p 4) eqn:H7;
        [ apply Qltb_lt in H7 | apply Qltb_ge in H7 ] ] ].
  - apply (sub_score_intro polyphony_table p (None, Some (3 # 2), 1));
      simpl; auto.
  - apply (sub_score_intro polyphony_table p (Some (3 # 2), Some (5 # 2), 3));
      simpl; auto.
  - apply (sub_score_intro polyphony_table p (Some (5 # 2), Some 4%Q, 5));
      simpl; auto 6.
  - apply (sub_score_intro polyphony_table p (Some 4%Q, None, 8));
      simpl; auto 7.
Qed.

Lemma pitch_range_points_table (r : Z) :
  sub_score pitch_range_table (inject_Z r) (pitch_range_points r).
Proof.
  unfold pitch_range_points.
  destruct (r <? 24) eqn:H2;
    [ | destruct (r <? 36) eqn:H4; [ | destruct (r <? 48) eqn:H7 ] ];
    rewrite <- (Qltb_inject r) in *.
  - apply Qltb_lt in H2.
    apply (sub_score_intro pitch_range_table _ (None, Some 24%Q, 1));
      simpl; auto.
  - apply Qltb_ge in H2. apply Qltb_lt in H4.
    apply (sub_score_intro pitch_range_table _ (Some 24%Q, Some 36%Q, 3));
      simpl; auto.
  - apply Qltb_ge in H4. apply Qltb_lt in H7.
    apply (sub_score_intro pitch_range_table _ (Some 36%Q, Some 48%Q, 5));
      simpl; auto 6.
  - apply Qltb_ge in H7.
    apply (sub_score_intro pitch_range_table _ (Some 48%Q, None, 7));
      simpl; auto 7.
Qed.

Lemma hand_span_points_table (h : Z) :
  sub_score hand_span_table (inject_Z h) (hand_span_points h).
Proof.
  unfold hand_span_points.
  destruct (h <? 8) eqn:H2;
    [ | destruct (h <? 12) eqn:H4; [ | destruct (h <? 15) eqn:H7 ] ];
    rewrite <- (Qltb_inject h) in *.
  - apply Qltb_lt in H2.
    apply (sub_score_intro hand_span_table _ (None, Some 8%Q, 1));
      simpl; auto.
  - apply Qltb_ge in H2. apply Qltb_lt in H4.
    apply (sub_score_intro hand_span_table _ (Some 8%Q, Some 12%Q, 3));
      simpl; auto.
  - apply Qltb_ge in H4. apply Qltb_lt in H7.
    apply (sub_score_intro hand_span_table _ (Some 12%Q, Some 15%Q, 5));
      simpl; auto 6.
  - apply Qltb_ge in H7.
    apply (sub_score_intro hand_span_table _ (Some 15%Q, None, 7));
      simpl; auto 7.
Qed.


Ltac table_cases :=
repeat match goal with
       | H : In _ (_ :: _) |- _ => destruct H as [H | H]; [subst | ]
       | H : In _ [] |- _ => destruct H
       end.

(** The ranges of a table do not overlap: a metric has one sub-score. *)
Lemma sub_score_unique (table : list row) (x : Q) (s t : Z) :
In table [nps_table; polyphony_table; pitch_range_table; hand_span_table] ->
sub_score table x s -> sub_score table x t -> s = t.
Proof.
intros Ht [r1 (I1 & R1 & E1)] [r2 (I2 & R2 & E2)]. subst s t.
unfold nps_table, polyphony_table, pitch_range_table, hand_span_table in Ht.
table_cases; try reflexivity; exfalso;
  unfold in_row, Qlt, Qle in R1, R2; simpl in R1, R2; lia.
Qed.

End Scorer.

(** C8. The level is a function of the four metrics alone: each metric
  contributes the sub-score of the half-open range of its table that
  contains it (there is exactly one), and the level is [round] of the sum
  of the four sub-scores divided by 4, clamped to the interval from 1 to
  10. *)
Theorem estimate_level_tables (nps polyphony : Q) (pitch_range hand_span : Z) :
exists s1 s2 s3 s4 : Z,
  (forall s, sub_score nps_table nps s <-> s = s1) /\
  (forall s, sub_score polyphony_table polyphony s <-> s = s2) /\
  (forall s, sub_score pitch_range_table (inject_Z pitch_range) s <-> s = s3) /\
  (forall s, sub_score hand_span_table (inject_Z hand_span) s <-> s = s4) /\
  _estimate_level nps polyphony pitch_range hand_span
  = Z.max 1 (Z.min 10 (py_round (true_div (s1 + s2 + s3 + s4) 4))).
Proof.
exists (nps_points nps), (polyphony_points polyphony),
  (pitch_range_points pitch_range), (hand_span_points hand_span).
repeat split; intros; subst;
  try (eapply sub_score_unique; [ | eassumption | ]; simpl; eauto 6);
  auto using nps_points_table, polyphony_points_table,
    pitch_range_points_table, hand_span_points_table.
apply estimate_level_score.
Qed.


(** ** The quantiser *)

Section Quantiser.
Import Simplify.

Lemma quantise_tick_ok (tick grid : Z) :
  grid <> 0 -> exists q, _quantise_tick tick grid = Ok q.
Proof.
  intros H. unfold _quantise_tick.
  destruct (Z.eqb_spec grid 0); [contradiction | eauto].
Qed.

Lemma quantise_tick_error (tick grid : Z) :
  _quantise_tick tick grid = ZeroDivisionError <-> grid = 0.
Proof.
  unfold _quantise_tick. destruct (Z.eqb_spec grid 0); split; intros;
    congruence.
Qed.

(** A time on the grid is left where it is. *)
Lemma quantise_tick_on_grid (k grid : Z) :
  grid <> 0 -> _quantise_tick (k * grid) grid = Ok (k * grid).
Proof.
  intros H. unfold _quantise_tick.
  destruct (Z.eqb_spec grid 0); [contradiction | ].
  rewrite (py_round_comp _ (inject_Z k)), py_round_inject; [reflexivity | ].
  now apply true_div_exact.
Qed.

Lemma quantise_tick_half (value grid k : Z) :
  grid <> 0 -> 2 * value = (2 * k + 1) * grid ->
  _quantise_tick value grid = Ok ((if Z.even k then k else k + 1) * grid).
Proof.
  intros Hg H. unfold _quantise_tick.
  destruct (Z.eqb_spec grid 0); [contradiction | ].
  rewrite (py_round_comp _ ((2 * k + 1) # 2)), py_round_half;
    [reflexivity | ].
  now apply true_div_half.
Qed.

End Quantiser.

(** The sub-scores of the tables are the contributions that the code adds. *)
Lemma sub_scores_score_of (nps polyphony : Q) (pitch_range hand_span : Z)
    (s1 s2 s3 s4 : Z) :
  sub_score nps_table nps s1 ->
  sub_score polyphony_table polyphony s2 ->
  sub_score pitch_range_table (inject_Z pitch_range) s3 ->
  sub_score hand_span_table (inject_Z hand_span) s4 ->
  score_of nps polyphony pitch_range hand_span = s1 + s2 + s3 + s4.
Proof.
  intros H1 H2 H3 H4. unfold score_of.
  rewrite (sub_score_unique nps_table nps s1 (nps_points nps));
    [ | simpl; auto | assumption | apply nps_points_table ].
  rewrite (sub_score_unique polyphony_table polyphony s2
             (polyphony_points polyphony));
    [ | simpl; auto | assumption | apply polyphony_points_table ].
  rewrite (sub_score_unique pitch_range_table (inject_Z pitch_range) s3
             (pitch_range_points pitch_range));
    [ | simpl; auto | assumption | apply pitch_range_points_table ].
  rewrite (sub_score_unique hand_span_table (inject_Z hand_span) s4
             (hand_span_points hand_span));
    [ | simpl; auto | assumption | apply hand_span_points_table ].
  reflexivity.
Qed.


Ltac in_table_row r :=
  exists r; split; [simpl; tauto | ];
  split; [split; [unfold Qle | unfold Qlt]; simpl; lia | reflexivity].


(** ** Level 3 (advanced) *)

Section Advanced.
Import Simplify.

Lemma is_note_msg_zero_time m : is_note_msg (zero_time m) = is_note_msg m.
Proof. now destruct m. Qed.

Lemma zero_time_idem m : zero_time (zero_time m) = zero_time m.
Proof. now destruct m. Qed.

Lemma existsb_note_zero_time track :
  existsb is_note_msg (map zero_time track) = existsb is_note_msg track.
Proof.
  induction track as [ | m track IH]; simpl; [reflexivity | ].
  now rewrite is_note_msg_zero_time, IH.
Qed.

(** The loop fails exactly when the grid is 0 and the track has a note
    message; otherwise every message is copied with time 0. *)
Lemma advanced_loop_eq grid track cumulative_time new_track :
  advanced_loop grid track cumulative_time new_track
  = if (grid =? 0) && existsb is_note_msg track then ZeroDivisionError
    else Ok (new_track ++ map zero_time track).
Proof.
  revert cumulative_time new_track.
  induction track as [ | msg track IH]; intros c acc; simpl.
  - rewrite andb_false_r, app_nil_r. reflexivity.
  - destruct (is_note_msg msg) eqn:En; simpl.
    + unfold _quantise_tick. destruct (grid =? 0) eqn:Eg; simpl;
        [reflexivity | ].
      rewrite IH, ?Eg. simpl. now rewrite <- app_assoc.
    + rewrite IH. now rewrite <- app_assoc.
Qed.

Lemma advanced_tracks_eq grid trks output_tracks :
  advanced_tracks grid trks output_tracks
  = if (grid =? 0) && existsb (existsb is_note_msg) trks
    then ZeroDivisionError
    else Ok (output_tracks ++ map (map zero_time) trks).
Proof.
  revert output_tracks.
  induction trks as [ | track trks IH]; intros acc; simpl.
  - rewrite andb_false_r, app_nil_r. reflexivity.
  - rewrite advanced_loop_eq.
    destruct (grid =? 0) eqn:Eg; simpl.
    + destruct (existsb is_note_msg track); simpl; [reflexivity | ].
      unfold _recalculate_deltas. rewrite IH, ?Eg. simpl.
      now rewrite <- app_assoc.
    + unfold _recalculate_deltas. rewrite IH, ?Eg. simpl.
      now rewrite <- app_assoc.
Qed.

Lemma simplify_advanced_eq mid :
  simplify_advanced mid
  = if (ticks_per_beat mid / 4 =? 0)
       && existsb (existsb is_note_msg) (tracks mid)
    then ZeroDivisionError
    else Ok (mkMidiFile (ticks_per_beat mid)
                        (map (map zero_time) (tracks mid))).
Proof.
  unfold simplify_advanced, _get_ticks_per_beat.
  rewrite advanced_tracks_eq.
  now destruct ((ticks_per_beat mid / 4 =? 0)
                && existsb (existsb is_note_msg) (tracks mid)).
Qed.

Lemma existsb_note_zero_tracks trks :
  existsb (existsb is_note_msg) (map (map zero_time) trks)
  = existsb (existsb is_note_msg) trks.
Proof.
  induction trks as [ | t trks IH]; simpl; [reflexivity | ].
  now rewrite existsb_note_zero_time, IH.
Qed.

Lemma zero_tracks_idem (trks : list MidiTrack) :
  map (map zero_time) (map (map zero_time) trks) = map (map zero_time) trks.
Proof.
  rewrite map_map. apply map_ext. intros t.
  rewrite map_map. apply map_ext. apply zero_time_idem.
Qed.

End Advanced.

(** What the function does on every input it accepts: the tracks are kept,
    every message is kept, and every delta time becomes 0. *)
Lemma simplify_advanced_zeroes (mid out : MidiFile) :
  Simplify.simplify_advanced mid = Ok out ->
  out = mkMidiFile (ticks_per_beat mid) (map (map zero_time) (tracks mid)).
Proof.
  rewrite simplify_advanced_eq.
  destruct ((ticks_per_beat mid / 4 =? 0)
            && existsb (existsb is_note_msg) (tracks mid));
    [discriminate | congruence].
Qed.

(** C1 at a concrete input.  The grid is 120 ticks.  The first note lasts 5
    ticks and the second starts at tick 480: the output keeps both notes
    and gives time 0 to every message, so that the second note starts at
    tick 0 and not at the grid point 480. *)
Example simplify_advanced_short_then_quarter :
  Simplify.simplify_advanced short_then_quarter
  = Ok (mkMidiFile 480
          [[ SetTempo 500000 0;
             NoteOn 0 60 80 0; NoteOff 0 60 0 0;
             NoteOn 0 62 80 0; NoteOff 0 62 0 0;
             EndOfTrack 0 ]])
  /\ Simplify._quantise_tick 480 (480 / 4) = Ok 480.
Proof. split; vm_compute; reflexivity. Qed.

(** C5. Advanced simplification is idempotent: whenever it produces an
    output, applying it to that output produces the same output again. *)
Theorem simplify_advanced_idempotent (mid out : MidiFile) :
  Simplify.simplify_advanced mid = Ok out ->
  Simplify.simplify_advanced out = Ok out.
Proof.
  rewrite !simplify_advanced_eq.
  destruct ((ticks_per_beat mid / 4 =? 0)
            && existsb (existsb is_note_msg) (tracks mid)) eqn:E;
    [discriminate | ].
  intros H. injection H as <-. simpl.
  rewrite existsb_note_zero_tracks, E, zero_tracks_idem. reflexivity.
Qed.

Lemma simplify_advanced_idempotent_witness :
  Simplify.simplify_advanced test_chord = Ok test_chord_advanced /\
  Simplify.simplify_advanced test_chord_advanced = Ok test_chord_advanced.
Proof.
  assert (H : Simplify.simplify_advanced test_chord = Ok test_chord_advanced)
    by (vm_compute; reflexivity).
  split; [exact H | ].
  exact (simplify_advanced_idempotent test_chord test_chord_advanced H).
Defined.

(** ** Level 2 (intermediate) *)

Section Intermediate.
Import Simplify.

Lemma note_stop_not_start m : is_note_stop m = true -> is_note_start m = false.
Proof. destruct m; simpl; try congruence; lia. Qed.

Lemma intermediate_run_snoc track msg :
  intermediate_run (track ++ [msg])
  = intermediate_step (intermediate_run track) msg.
Proof. unfold intermediate_run. now rewrite fold_left_app. Qed.

(** A note-stop is appended to the output whatever the active set is. *)
Lemma intermediate_step_stop active new_track msg :
  is_note_stop msg = true ->
  intermediate_step (active, new_track) msg
  = (active ∖ {[msg_note msg]}, new_track ++ [msg]).
Proof.
  intros H. unfold intermediate_step.
  now rewrite (note_stop_not_start _ H), H.
Qed.

(** The output track only grows. *)
Lemma intermediate_step_extends st msg :
  exists ext, (intermediate_step st msg).2 = st.2 ++ ext.
Proof.
  destruct st as [active new_track]. unfold intermediate_step.
  repeat match goal with
         | |- context [if ?b then _ else _] => destruct b
         end; simpl;
    try (exists []; now rewrite app_nil_r);
    try (eexists; reflexivity);
    rewrite <- app_assoc; eexists; reflexivity.
Qed.

Lemma intermediate_run_extends pre post :
  exists ext,
    (intermediate_run (pre ++ post)).2 = (intermediate_run pre).2 ++ ext.
Proof.
  induction post as [ | m post IH] using rev_ind.
  - exists []. now rewrite !app_nil_r.
  - destruct IH as [ext IH].
    rewrite app_assoc, intermediate_run_snoc.
    destruct (intermediate_step_extends (intermediate_run (pre ++ post)) m)
      as [ext' E].
    exists (ext ++ ext'). rewrite E, IH. now rewrite app_assoc.
Qed.

End Intermediate.

(** C2, as the code has it.  A note-stop (a note-off, or a note-on of
    velocity 0) is always emitted: it is appended to the output track
    unchanged and its pitch is discarded from the active set, whether or
    not the pitch is in the active set at that moment.  In particular the
    stop of every input note is part of the output track. *)
Theorem intermediate_stop_always_emitted
    (track pre post : MidiTrack) (msg : Message) :
  track = pre ++ msg :: post ->
  is_note_stop msg = true ->
  Simplify.intermediate_run (pre ++ [msg])
  = ((Simplify.intermediate_run pre).1 ∖ {[msg_note msg]},
     (Simplify.intermediate_run pre).2 ++ [msg])
  /\ In msg (Simplify.intermediate_track track).
Proof.
  intros -> Hstop.
  assert (E : Simplify.intermediate_run (pre ++ [msg])
              = ((Simplify.intermediate_run pre).1 ∖ {[msg_note msg]},
                 (Simplify.intermediate_run pre).2 ++ [msg])).
  { rewrite intermediate_run_snoc.
    destruct (Simplify.intermediate_run pre) as [active new_track].
    now apply intermediate_step_stop. }
  split; [exact E | ].
  unfold Simplify.intermediate_track.
  replace (pre ++ msg :: post) with ((pre ++ [msg]) ++ post)
    by now rewrite <- app_assoc.
  destruct (intermediate_run_extends (pre ++ [msg]) post) as [ext ->].
  rewrite E. simpl. rewrite !in_app_iff. simpl. auto.
Qed.

Lemma intermediate_stop_always_emitted_witness :
  Simplify.intermediate_run ([NoteOn 0 64 20 0] ++ [NoteOff 0 64 0 480])
  = ((Simplify.intermediate_run [NoteOn 0 64 20 0]).1 ∖ {[64]},
     (Simplify.intermediate_run [NoteOn 0 64 20 0]).2 ++ [NoteOff 0 64 0 480])
  /\ In (NoteOff 0 64 0 480) (Simplify.intermediate_track quiet_note).
Proof.
  apply (intermediate_stop_always_emitted
           quiet_note [NoteOn 0 64 20 0] [] (NoteOff 0 64 0 480));
    reflexivity.
Defined.

(** C2, as stated, fails: the quiet note 64 (velocity 20) is discarded, so
    64 is not active when its stop arrives, and the stop is emitted all the
    same. *)
Lemma intermediate_stop_not_guarded : ~ stops_guarded quiet_note.
Proof.
  intros H.
  specialize (H [NoteOn 0 64 20 0] (NoteOff 0 64 0 480) []
                eq_refl eq_refl).
  assert (A : (Simplify.intermediate_run [NoteOn 0 64 20 0]).1 = ∅)
    by reflexivity.
  rewrite A in H. specialize (H (not_elem_of_empty _)).
  vm_compute in H. discriminate H.
Qed.

Section Polyphony.
Import Simplify.

Lemma fold_min_le (l : list Z) (x : Z) :
  fold_left Z.min l x = x \/ In (fold_left Z.min l x) l.
Proof.
  revert x. induction l as [ | y l IH]; intros x; simpl; [auto | ].
  destruct (IH (Z.min x y)) as [E | E]; [ | auto].
  rewrite E. destruct (Z.min_spec x y) as [[_ ->] | [_ ->]]; auto.
Qed.

Lemma list_min_In (l : list Z) : l <> [] -> In (list_min l) l.
Proof.
  destruct l as [ | x l]; [congruence | intros _]. simpl.
  destruct (fold_min_le l x); auto.
Qed.

(** [min(active_notes)] is one of the active notes. *)
Lemma set_min_elem (active : gset Z) : active ≠ ∅ -> set_min active ∈ active.
Proof.
  intros H. unfold set_min. apply elem_of_elements, list_elem_of_In.
  apply list_min_In. intros E. apply H.
  now apply elements_empty_inv, leibniz_equiv in E.
Qed.

Lemma size_add_le (x : Z) (s : gset Z) : (size ({[x]} ∪ s) <= S (size s))%nat.
Proof.
  rewrite size_union_alt, size_singleton.
  assert (Hsub : s ∖ {[x]} ⊆ s) by (set_unfold; tauto).
  apply subseteq_size in Hsub. lia.
Qed.

Lemma size_remove_elem (x : Z) (s : gset Z) :
  x ∈ s -> S (size (s ∖ {[x]})) = size s.
Proof.
  intros Hin. rewrite size_difference by set_solver.
  rewrite size_singleton.
  assert (size s ≠ 0%nat); [ | lia].
  intros E. apply size_empty_inv in E. set_solver.
Qed.

Lemma size_discard_le (x : Z) (s : gset Z) : (size (s ∖ {[x]}) <= size s)%nat.
Proof. apply subseteq_size. set_unfold. tauto. Qed.

Lemma replay_snoc msgs msg :
  replay (msgs ++ [msg]) = replay_max_step (replay msgs) msg.
Proof. unfold replay. now rewrite fold_left_app. Qed.

Lemma replay_emit new_track msg :
  replay (new_track ++ [msg])
  = (replay_step (replay new_track).1 msg,
     Nat.max (replay new_track).2
             (size (replay_step (replay new_track).1 msg))).
Proof. now rewrite replay_snoc. Qed.

Lemma loud_enough_not_start msg : is_note_start msg = false -> loud_enough msg.
Proof. unfold loud_enough. congruence. Qed.

Lemma intermediate_step_inv st msg :
  intermediate_inv st -> intermediate_inv (intermediate_step st msg).
Proof.
  destruct st as [active new_track].
  intros (Hr & Hs & Hm & Hl). simpl in *.
  unfold intermediate_step.
  destruct (is_note_start msg) eqn:Estart.
  - destruct (msg_velocity msg <? min_velocity) eqn:Ev;
      [repeat split; assumption | ].
    assert (Hloud : loud_enough msg)
      by (intros _; apply Z.ltb_ge in Ev; exact Ev).
    destruct (max_polyphony <=? Z.of_nat (size active)) eqn:Efull.
    + destruct (bool_decide (active ≠ ∅)) eqn:Ene.
      * apply bool_decide_eq_true in Ene.
        destruct (set_min active <? msg_note msg) eqn:Elow;
          [ | repeat split; assumption].
        pose proof (size_remove_elem _ _ (set_min_elem _ Ene)) as Hrem.
        pose proof (size_add_le (msg_note msg)
                      (active ∖ {[set_min active]})) as Hadd.
        pose proof (size_discard_le (set_min active) active) as Hdis.
        unfold intermediate_inv. simpl.
        repeat (rewrite replay_emit; simpl).
        unfold replay_step. simpl. rewrite ?Estart, ?Hr.
        repeat split; try lia.
        rewrite !Forall_app. repeat split; auto.
        -- constructor; [ | constructor]. now apply loud_enough_not_start.
      * apply bool_decide_eq_false in Ene.
        assert (Hemp : active = ∅)
          by (destruct (decide (active = ∅)); tauto).
        unfold max_polyphony in Efull.
        rewrite Hemp, size_empty in Efull. discriminate.
    + apply Z.leb_gt in Efull. unfold max_polyphony in Efull.
      pose proof (size_add_le (msg_note msg) active) as Hadd.
      unfold intermediate_inv. simpl.
      rewrite !replay_emit. simpl.
      unfold replay_step. rewrite Estart, Hr.
      repeat split; try lia.
      rewrite Forall_app. split; auto.
  - assert (Hloud : loud_enough msg) by now apply loud_enough_not_start.
    destruct (is_note_stop msg) eqn:Estop.
    + pose proof (size_discard_le (msg_note msg) active) as Hdis.
      unfold intermediate_inv. simpl.
      rewrite !replay_emit. simpl.
      unfold replay_step. rewrite Estart, Estop, Hr.
      repeat split; try lia.
      rewrite Forall_app. split; auto.
    + unfold intermediate_inv. simpl.
      rewrite !replay_emit. simpl.
      unfold replay_step. rewrite Estart, Estop, Hr.
      repeat split; try lia.
      rewrite Forall_app. split; auto.
Qed.

Lemma intermediate_run_inv track : intermediate_inv (intermediate_run track).
Proof.
  induction track as [ | msg track IH] using rev_ind.
  - unfold intermediate_inv, intermediate_run, replay. simpl.
    repeat split; auto; rewrite ?size_empty; lia.
  - rewrite intermediate_run_snoc. now apply intermediate_step_inv.
Qed.

End Polyphony.



(** ** Analysis *)

Section AnalyseFacts.

Lemma note_events_of_track_pitches track abs_time note_events :
  map snd (note_events_of_track track abs_time note_events)
  = map snd note_events ++ map msg_note (List.filter is_note_start track).
Proof.
  revert abs_time note_events.
  induction track as [ | msg track IH]; intros t acc; simpl.
  - now rewrite app_nil_r.
  - destruct (is_note_start msg); rewrite IH; [ | reflexivity].
    rewrite map_app. simpl. now rewrite <- app_assoc.
Qed.

Lemma note_events_of_tracks_pitches trks note_events :
  map snd (fold_left (fun note_events track =>
                        note_events_of_track track 0 note_events) trks note_events)
  = map snd note_events
    ++ map msg_note (concat (map (List.filter is_note_start) trks)).
Proof.
  revert note_events.
  induction trks as [ | track trks IH]; intros acc; simpl.
  - now rewrite app_nil_r.
  - rewrite IH, note_events_of_track_pitches, map_app. now rewrite <- app_assoc.
Qed.

(** The collected events are the note-starts of the file, in order. *)
Lemma collect_note_events_pitches mid :
  map snd (collect_note_events mid) = map msg_note (note_starts mid).
Proof. unfold collect_note_events. now rewrite note_events_of_tracks_pitches. Qed.

Lemma collect_note_events_nil mid :
  collect_note_events mid = [] <-> note_starts mid = [].
Proof.
  pose proof (collect_note_events_pitches mid) as H.
  split; intros E; rewrite E in H; simpl in H.
  - symmetry in H. now apply map_eq_nil in H.
  - now apply map_eq_nil in H.
Qed.

Lemma fill_buckets_ok window note_events buckets :
  window <> 0 -> exists b, fill_buckets window note_events buckets = Ok b.
Proof.
  intros Hw. revert buckets.
  induction note_events as [ | [t note] rest IH]; intros b; simpl;
    [eauto | ].
  unfold floor_div. destruct (Z.eqb_spec window 0); [contradiction | ].
  simpl. apply IH.
Qed.

Lemma fill_buckets_zero_window note_events buckets :
  note_events <> [] ->
  fill_buckets 0 note_events buckets = ZeroDivisionError.
Proof. destruct note_events as [ | [t note] rest]; [congruence | reflexivity]. Qed.

Lemma Qeq_bool_false (x y : Q) : Qeq_bool x y = false <-> ~ (x == y)%Q.
Proof.
  split.
  - intros H E. apply Qeq_bool_iff in E. congruence.
  - intros H. destruct (Qeq_bool x y) eqn:E; [ | reflexivity].
    apply Qeq_bool_iff in E. contradiction.
Qed.

End AnalyseFacts.

(** C4, as the code has it.  When the file has no note-start, or its
    duration is 0, [analyse] returns at once with level 1, label
    ["beginner"], every metric and the note count 0, and
    [duration_seconds] equal to the duration of the file (which is 0 only
    in the second case). *)
Theorem analyse_degenerate (mid : MidiFile) (duration : Q) :
  note_starts mid = [] \/ (duration == 0)%Q ->
  analyse mid duration
  = Ok {| level := 1;
          label := "beginner";
          notes_per_second := 0;
          avg_polyphony := 0;
          pitch_range := 0;
          max_hand_span := 0;
          total_notes := 0;
          duration_seconds := duration |}.
Proof.
  intros H. unfold analyse.
  destruct H as [H | H].
  - apply collect_note_events_nil in H. rewrite H. reflexivity.
  - apply Qeq_bool_iff in H. rewrite H, orb_true_r. reflexivity.
Qed.

Lemma analyse_degenerate_witness :
  analyse silent_bar (1 # 2)
  = Ok {| level := 1;
          label := "beginner";
          notes_per_second := 0;
          avg_polyphony := 0;
          pitch_range := 0;
          max_hand_span := 0;
          total_notes := 0;
          duration_seconds := 1 # 2 |}.
Proof.
  apply (analyse_degenerate silent_bar (1 # 2)). left. reflexivity.
Defined.

(** C4, as stated, fails: a file without note-starts that lasts half a
    second gets a report whose [duration_seconds] is not 0. *)
Lemma analyse_degenerate_duration_kept :
  note_starts silent_bar = [] /\
  exists r, analyse silent_bar (1 # 2) = Ok r /\
            ~ (duration_seconds r == 0)%Q.
Proof.
  split; [reflexivity | ].
  eexists. split; [reflexivity | ]. simpl. discriminate.
Qed.

(** C9, as the code has it.  The bucket window is [ticks_per_beat // 8].
    With at least 8 ticks per beat [analyse] returns a report.  With
    between 1 and 7 ticks per beat, a file that has a note-start and whose
    duration is not 0 makes [analyse] fail with a division by zero; a file
    of duration 0 returns before the window is used. *)
Theorem analyse_bucket_window (mid : MidiFile) (duration : Q) :
  (8 <= ticks_per_beat mid -> exists r, analyse mid duration = Ok r) /\
  (0 < ticks_per_beat mid < 8 ->
   note_starts mid <> [] ->
   ~ (duration == 0)%Q ->
   analyse mid duration = ZeroDivisionError).
Proof.
  split.
  - intros Htpb. unfold analyse.
    destruct ((match collect_note_events mid with [] => true | _ => false end)
              || Qeq_bool duration 0); [eauto | ].
    destruct (fill_buckets_ok (ticks_per_beat mid / 8)
                (collect_note_events mid) ∅) as [b ->].
    { pose proof (Z.div_str_pos (ticks_per_beat mid) 8). lia. }
    simpl. eauto.
  - intros Htpb Hn Hd. unfold analyse.
    apply Qeq_bool_false in Hd. rewrite Hd, orb_false_r.
    destruct (collect_note_events mid) eqn:E.
    + apply collect_note_events_nil in E. contradiction.
    + replace (ticks_per_beat mid / 8) with 0
        by (symmetry; apply Z.div_small; lia).
      rewrite fill_buckets_zero_window by discriminate. reflexivity.
Qed.

Lemma analyse_bucket_window_witness :
  (exists r, analyse test_chord (1 # 2) = Ok r) /\
  analyse coarse_held_note (1 # 2) = ZeroDivisionError.
Proof.
  split.
  - apply (proj1 (analyse_bucket_window test_chord (1 # 2))).
    simpl. lia.
  - apply (proj2 (analyse_bucket_window coarse_held_note (1 # 2))).
    + simpl. lia.
    + simpl. discriminate.
    + discriminate.
Defined.

(** C9, as stated, fails: with 4 ticks per beat and a note-start, a file
    of duration 0 gets a report and no division by zero. *)
Lemma analyse_coarse_zero_duration :
  0 < ticks_per_beat coarse_note < 8 /\
  note_starts coarse_note <> [] /\
  analyse coarse_note 0 <> ZeroDivisionError.
Proof.
  split; [simpl; lia | ]. split; [simpl; discriminate | ].
  vm_compute. discriminate.
Qed.

(** ** Level 1 (beginner) *)

Section Monophony.
Import Simplify.

Lemma line_check_app st l l' :
  line_check st (l ++ l')
  = match line_check st l with
    | Some st' => line_check st' l'
    | None => None
    end.
Proof.
  revert st. induction l as [ | m l IH]; intros st; simpl; [reflexivity | ].
  destruct (line_step st m); [apply IH | reflexivity].
Qed.

Lemma size_sounding_set s : (size (sounding_set s) <= 1)%nat.
Proof.
  destruct s; unfold sounding_set;
    [rewrite size_singleton | rewrite size_empty]; lia.
Qed.

(** On an accepted line the replayed active set is the sounding note. *)
Lemma line_step_replay s b msg s' b' :
  line_step (s, b) msg = Some (s', b') ->
  replay_step (sounding_set s) msg = sounding_set s'.
Proof.
  unfold line_step, replay_step.
  destruct (is_note_start msg).
  - destruct s; [discriminate | ].
    destruct (b && negb (msg_time msg =? 0)); [discriminate | ].
    intros [= <- _]. simpl. apply right_id_L. apply _.
  - destruct (is_note_stop msg).
    + destruct s as [n | ]; [ | discriminate].
      destruct (Z.eqb_spec n (msg_note msg)); [ | discriminate].
      intros [= <- _]. subst. simpl. apply difference_diag_L.
    + now intros [= <- _].
Qed.

Lemma line_step_count s b msg s' b' k :
  line_step (s, b) msg = Some (s', b') ->
  count_step (sounding_count s, k) msg
  = (sounding_count s', Z.max k (sounding_count s')).
Proof.
  unfold line_step, count_step.
  destruct (is_note_start msg).
  - destruct s; [discriminate | ].
    destruct (b && negb (msg_time msg =? 0)); [discriminate | ].
    now intros [= <- _].
  - destruct (is_note_stop msg).
    + destruct s as [n | ]; [ | discriminate].
      destruct (Z.eqb_spec n (msg_note msg)); [ | discriminate].
      now intros [= <- _].
    + now intros [= <- _].
Qed.

Lemma line_check_replay msgs s b s' b' k :
  line_check (s, b) msgs = Some (s', b') ->
  (k <= 1)%nat ->
  (fold_left replay_max_step msgs (sounding_set s, k)).1 = sounding_set s' /\
  ((fold_left replay_max_step msgs (sounding_set s, k)).2 <= 1)%nat.
Proof.
  revert s b k. induction msgs as [ | m msgs IH]; intros s b k;
    cbn [line_check fold_left].
  - intros [= <- _]. auto.
  - destruct (line_step (s, b) m) as [[s1 b1] | ] eqn:E; [ | discriminate].
    intros H Hk. unfold replay_max_step at 2 4. cbn [fst snd].
    rewrite (line_step_replay _ _ _ _ _ E).
    apply (IH _ _ _ H).
    pose proof (size_sounding_set s1). lia.
Qed.

Lemma line_check_count msgs s b s' b' k :
  line_check (s, b) msgs = Some (s', b') ->
  0 <= k <= 1 ->
  (fold_left count_step msgs (sounding_count s, k)).1 = sounding_count s' /\
  0 <= (fold_left count_step msgs (sounding_count s, k)).2 <= 1.
Proof.
  revert s b k. induction msgs as [ | m msgs IH]; intros s b k;
    cbn [line_check fold_left].
  - intros [= <- _]. auto.
  - destruct (line_step (s, b) m) as [[s1 b1] | ] eqn:E; [ | discriminate].
    intros H Hk. rewrite (line_step_count _ _ _ _ _ k E).
    apply (IH _ _ _ H). destruct s1; simpl; lia.
Qed.

(** A monophonic line never has two notes active, whichever way the
    active notes are counted. *)
Lemma monophonic_line_max msgs :
  monophonic_line msgs ->
  (max_active_track msgs <= 1)%nat /\ (count_replay msgs).2 <= 1.
Proof.
  intros [b H]. split.
  - apply (line_check_replay msgs None false None b 0 H). lia.
  - apply (line_check_count msgs None false None b 0 H). lia.
Qed.

Lemma max_by_note_In note_ons highest :
  max_by_note note_ons = Some highest -> In highest note_ons.
Proof.
  destruct note_ons as [ | m l]; [discriminate | ]. simpl.
  intros [= <-].
  assert (G : forall l best, fold_left
              (fun best m => if msg_note best <? msg_note m then m else best)
              l best = best \/
            In (fold_left
              (fun best m => if msg_note best <? msg_note m then m else best)
              l best) l).
  { clear. induction l as [ | x l IH]; intros best; simpl; [auto | ].
    destruct (IH (if msg_note best <? msg_note x then x else best))
      as [E | E]; [ | auto].
    rewrite E. destruct (msg_note best <? msg_note x); auto. }
  destruct (G l m); auto.
Qed.

(** The loop invariant: the melody built so far is an accepted line in
    which [current_note] sounds. *)
Lemma melody_step_line grid_events st q_time :
  line_check (None, false) (melody_track st) = Some (current_note st, false) ->
  line_check (None, false) (melody_track (melody_step grid_events st q_time))
  = Some (current_note (melody_step grid_events st q_time), false).
Proof.
  intros H. unfold melody_step.
  destruct (max_by_note _) as [highest | ] eqn:Emax; [ | exact H].
  apply max_by_note_In, filter_In in Emax. destruct Emax as [_ Hstart].
  assert (Hv : 0 < Z.min (msg_velocity highest) 100).
  { destruct highest; simpl in *; try discriminate.
    apply Z.ltb_lt in Hstart. lia. }
  apply Z.ltb_lt in Hv.
  destruct (current_note st) as [c | ] eqn:Ec; simpl.
  - rewrite <- app_assoc, line_check_app, H. simpl.
    rewrite Z.eqb_refl. simpl. rewrite Hv. reflexivity.
  - rewrite line_check_app, H. simpl. rewrite Hv. reflexivity.
Qed.

Lemma melody_loop_line grid_events keys st :
  line_check (None, false) (melody_track st) = Some (current_note st, false) ->
  let st' := fold_left (melody_step grid_events) keys st in
  line_check (None, false) (melody_track st') = Some (current_note st', false).
Proof.
  revert st. induction keys as [ | q keys IH]; intros st H; simpl; [exact H | ].
  apply IH. now apply melody_step_line.
Qed.

End Monophony.


Section Melody.
Import Simplify.

(** *** The collected events *)

Lemma events_of_track_abstime track abs_time events :
  events_of_track track abs_time events
  = events ++ List.filter (fun e => is_note_msg e.2)
                          (to_abstime track abs_time).
Proof.
  revert abs_time events.
  induction track as [ | msg track IH]; intros t acc; simpl.
  - now rewrite app_nil_r.
  - destruct (is_note_msg msg); rewrite IH; [ | reflexivity].
    now rewrite <- app_assoc.
Qed.

Lemma events_of_tracks_abstime trks events :
  fold_left (fun events track => events_of_track track 0 events) trks events
  = events ++ List.filter (fun e => is_note_msg e.2)
                (concat (map (fun track => to_abstime track 0) trks)).
Proof.
  revert events. induction trks as [ | track trks IH]; intros acc; simpl.
  - now rewrite app_nil_r.
  - rewrite IH, events_of_track_abstime, List.filter_app.
    now rewrite <- app_assoc.
Qed.

Lemma collect_events_timed_notes mid : collect_events mid = timed_notes mid.
Proof. unfold collect_events. now rewrite events_of_tracks_abstime. Qed.

(** *** The sort keeps the events *)

Lemma insert_event_In e x l : In e (insert_event x l) <-> e = x \/ In e l.
Proof.
  induction l as [ | y l IH]; simpl; [intuition | ].
  destruct (key_lt (sort_key y) (sort_key x)); simpl; rewrite ?IH; intuition.
Qed.

Lemma sort_events_In e l : In e (sort_events l) <-> In e l.
Proof.
  unfold sort_events. induction l as [ | x l IH]; simpl; [reflexivity | ].
  rewrite insert_event_In, IH. intuition.
Qed.

(** *** The groups *)

Lemma group_events_lookup grid events d0 d :
  group_events grid events d0 = Ok d ->
  forall q,
    default [] (d !! q)
    = default [] (d0 !! q) ++ map snd (List.filter (in_slot grid q) events).
Proof.
  revert d0. induction events as [ | [t m] rest IH]; intros d0; simpl.
  - intros [= <-] q. now rewrite app_nil_r.
  - unfold in_slot at 1. simpl.
    destruct (_quantise_tick t grid) as [q' | ] eqn:Eq; simpl;
      [ | discriminate].
    intros H q. rewrite (IH _ H q).
    destruct (Z.eqb_spec q' q) as [-> | Hne].
    + rewrite lookup_insert_eq. simpl. now rewrite <- app_assoc.
    + now rewrite lookup_insert_ne.
Qed.

Lemma group_events_ok grid events d0 :
  grid <> 0 -> exists d, group_events grid events d0 = Ok d.
Proof.
  intros Hg. revert d0.
  induction events as [ | [t m] rest IH]; intros d0; simpl; [eauto | ].
  destruct (quantise_tick_ok t grid Hg) as [q ->]. simpl. apply IH.
Qed.

Lemma in_slot_true grid q e :
  in_slot grid q e = true <-> _quantise_tick e.1 grid = Ok q.
Proof.
  unfold in_slot. destruct (_quantise_tick e.1 grid) as [q' | ].
  - rewrite Z.eqb_eq. split; congruence.
  - split; discriminate.
Qed.

(** *** The choice of the highest note *)

Lemma fold_max_note l best :
  let r := fold_left
             (fun best m => if msg_note best <? msg_note m then m else best)
             l best in
  msg_note best <= msg_note r /\
  forall m, In m l -> msg_note m <= msg_note r.
Proof.
  revert best. induction l as [ | x l IH]; intros best; simpl.
  - split; [lia | tauto].
  - destruct (IH (if msg_note best <? msg_note x then x else best))
      as [Hb Hl].
    destruct (Z.ltb_spec (msg_note best) (msg_note x)).
    + split; [lia | ]. intros m [<- | Hm]; auto.
    + split; [lia | ]. intros m [<- | Hm]; [lia | auto].
Qed.

Lemma max_by_note_highest note_ons highest :
  max_by_note note_ons = Some highest ->
  forall m, In m note_ons -> msg_note m <= msg_note highest.
Proof.
  destruct note_ons as [ | x l]; [discriminate | ]. simpl.
  intros [= <-] m. destruct (fold_max_note l x) as [Hb Hl].
  intros [<- | Hm]; auto.
Qed.

Lemma max_by_note_None note_ons : max_by_note note_ons = None -> note_ons = [].
Proof. destruct note_ons; [reflexivity | discriminate]. Qed.

(** *** The melody loop *)

Lemma melody_step_emits d st q :
  exists ext,
    melody_track (melody_step d st q) = melody_track st ++ ext /\
    if has_start d q
    then exists m, List.filter is_note_start ext = [m] /\ selected d q m
    else ext = [].
Proof.
  unfold melody_step, has_start, selected.
  destruct (max_by_note _) as [highest | ] eqn:Emax.
  - pose proof (max_by_note_In _ _ Emax) as Hin.
    destruct (List.filter is_note_start (default [] (d !! q))) as [ | x l]
      eqn:Ef; [destruct Hin | ].
    rewrite <- Ef in Hin. apply filter_In in Hin. destruct Hin as [_ Hstart].
    assert (Hv : (0 <? Z.min (msg_velocity highest) 100) = true).
    { destruct highest; simpl in *; try discriminate.
      apply Z.ltb_lt in Hstart. apply Z.ltb_lt. lia. }
    destruct (current_note st) as [c | ]; simpl.
    + eexists. split; [rewrite <- app_assoc; reflexivity | ].
      eexists. simpl. rewrite Hv. split; [reflexivity | eauto].
    + eexists. split; [reflexivity | ].
      eexists. simpl. rewrite Hv. split; [reflexivity | eauto].
  - apply max_by_note_None in Emax. rewrite Emax.
    exists []. now rewrite app_nil_r.
Qed.

Lemma melody_loop_emits d keys st :
  exists ext,
    melody_track (fold_left (melody_step d) keys st) = melody_track st ++ ext /\
    Forall2 (selected d) (List.filter (has_start d) keys)
            (List.filter is_note_start ext).
Proof.
  revert st. induction keys as [ | q keys IH]; intros st; simpl.
  - exists []. rewrite app_nil_r. split; [reflexivity | constructor].
  - destruct (IH (melody_step d st q)) as (ext2 & E2 & F2).
    destruct (melody_step_emits d st q) as (ext1 & E1 & F1).
    exists (ext1 ++ ext2). rewrite E2, E1, <- app_assoc.
    split; [reflexivity | ].
    rewrite List.filter_app.
    destruct (has_start d q).
    + destruct F1 as (m & -> & Hsel). simpl. now constructor.
    + subst ext1. exact F2.
Qed.

(** *** The sorted grid positions *)

Lemma sorted_keys_In (d : gmap Z (list Message)) q :
  In q (sorted_keys d) <-> is_Some (d !! q).
Proof.
  unfold sorted_keys.
  rewrite <- list_elem_of_In, merge_sort_Permutation, elem_of_elements.
  apply elem_of_dom.
Qed.

Lemma StronglySorted_le_lt (l : list Z) :
  StronglySorted Z.le l -> NoDup l -> StronglySorted Z.lt l.
Proof.
  induction 1 as [ | x l Hs IH Hall]; intros Hnd; constructor.
  - apply IH. now inversion Hnd.
  - inversion Hnd as [ | ? ? Hx _]; subst.
    rewrite List.Forall_forall in *. intros y Hy.
    specialize (Hall y Hy).
    assert (x <> y) by (intros ->; apply Hx; now apply list_elem_of_In).
    lia.
Qed.

Lemma StronglySorted_filter_lt (f : Z -> bool) (l : list Z) :
  StronglySorted Z.lt l -> StronglySorted Z.lt (List.filter f l).
Proof.
  induction 1 as [ | x l Hs IH Hall]; simpl; [constructor | ].
  destruct (f x); [ | exact IH].
  constructor; [exact IH | ].
  rewrite List.Forall_forall in *. intros y Hy.
  apply filter_In in Hy. now apply Hall.
Qed.

Lemma sorted_keys_sorted (d : gmap Z (list Message)) :
  StronglySorted Z.lt (sorted_keys d).
Proof.
  apply StronglySorted_le_lt.
  - apply StronglySorted_merge_sort; apply _.
  - unfold sorted_keys. rewrite merge_sort_Permutation.
    apply NoDup_elements.
Qed.

End Melody.

(** Beginner simplification returns a file whenever the file has a non-zero
    resolution. *)
Lemma simplify_beginner_ok (mid : MidiFile) :
  ticks_per_beat mid <> 0 -> exists out, Simplify.simplify_beginner mid = Ok out.
Proof.
  intros H. unfold Simplify.simplify_beginner.
  destruct (group_events_ok (Simplify._get_ticks_per_beat mid)
              (Simplify.sort_events (Simplify.collect_events mid)) ∅ H)
    as [d ->].
  simpl. eauto.
Qed.

Lemma selected_melody_note (mid : MidiFile) d q m :
  Simplify.group_events (ticks_per_beat mid)
    (Simplify.sort_events (Simplify.collect_events mid)) ∅ = Ok d ->
  selected d q m ->
  melody_note_of (ticks_per_beat mid) (timed_notes mid) q m.
Proof.
  intros Hd (highest & t & Emax & ->).
  pose proof (group_events_lookup _ _ _ _ Hd q) as Hq.
  rewrite lookup_empty in Hq. simpl in Hq. rewrite Hq in Emax.
  pose proof (max_by_note_In _ _ Emax) as Hin.
  apply filter_In in Hin. destruct Hin as [Hin Hstart].
  apply in_map_iff in Hin. destruct Hin as (e & <- & He).
  apply filter_In in He. destruct He as [He Hslot].
  apply (proj1 (sort_events_In _ _)) in He.
    rewrite collect_events_timed_notes in He.
  apply in_slot_true in Hslot.
  exists e. split; [exact He | ]. split; [split; assumption | ].
  split; [ | eauto].
  intros e' He' [Hs' Hq'].
  apply (max_by_note_highest _ _ Emax).
  apply filter_In. split; [ | exact Hs'].
  apply in_map. apply filter_In. split.
  - apply (proj2 (sort_events_In _ _)).
    now rewrite collect_events_timed_notes.
  - now apply in_slot_true.
Qed.

Lemma has_start_slot (mid : MidiFile) d q :
  Simplify.group_events (ticks_per_beat mid)
    (Simplify.sort_events (Simplify.collect_events mid)) ∅ = Ok d ->
  (In q (Simplify.sorted_keys d) /\ has_start d q = true)
  <-> exists e, In e (timed_notes mid) /\ slot_start (ticks_per_beat mid) q e.
Proof.
  intros Hd.
  pose proof (group_events_lookup _ _ _ _ Hd q) as Hq.
  rewrite lookup_empty in Hq. simpl in Hq.
  unfold has_start. split.
  - intros [_ H].
    destruct (List.filter is_note_start (default [] (d !! q))) as [ | x l]
      eqn:Ef; [discriminate | ].
    assert (Hin : In x (List.filter is_note_start (default [] (d !! q))))
      by (rewrite Ef; now left).
    rewrite Hq in Hin. apply filter_In in Hin. destruct Hin as [Hin Hstart].
    apply in_map_iff in Hin. destruct Hin as (e & <- & He).
    apply filter_In in He. destruct He as [He Hslot].
    apply (proj1 (sort_events_In _ _)) in He.
    rewrite collect_events_timed_notes in He.
    apply in_slot_true in Hslot.
    exists e. split; [exact He | split; assumption].
  - intros (e & He & Hs & Hslot).
    assert (Hin : In e.2 (List.filter is_note_start (default [] (d !! q)))).
    { rewrite Hq. apply filter_In. split; [ | exact Hs].
      apply in_map. apply filter_In. split.
      - apply (proj2 (sort_events_In _ _)).
    now rewrite collect_events_timed_notes.
      - now apply in_slot_true. }
    split.
    + apply sorted_keys_In.
      destruct (d !! q) eqn:E; [eauto | ].
      simpl in Hin. destruct Hin.
    + destruct (List.filter is_note_start (default [] (d !! q)));
        [destruct Hin | reflexivity].
Qed.

(** C7. The grid slots that contain a note-start are visited once each, in
    ascending order, and the note-ons of the melody track are, in that
    order, one per such slot: the note-on emitted for a slot has the
    highest pitch among the note-starts of the slot and the velocity of the
    chosen note-start capped at 100.  Nothing else of the slot is emitted as
    a note-on. *)
Theorem simplify_beginner_melody (mid out : MidiFile) :
  Simplify.simplify_beginner mid = Ok out ->
  exists tempo_track melody slots,
    tracks out = [tempo_track; melody] /\
    StronglySorted Z.lt slots /\
    (forall q, In q slots <->
               exists e, In e (timed_notes mid) /\
                         slot_start (ticks_per_beat mid) q e) /\
    Forall2 (melody_note_of (ticks_per_beat mid) (timed_notes mid))
            slots (List.filter is_note_start melody).
Proof.
  unfold Simplify.simplify_beginner, Simplify._get_ticks_per_beat.
  destruct (Simplify.group_events _ _ _) as [d | ] eqn:Hd; simpl;
    [ | discriminate].
  intros [= <-]. simpl.
  destruct (melody_loop_emits d (Simplify.sorted_keys d)
              (Simplify.mkMelody None 0 [])) as (ext & E & F).
  simpl in E.
  eexists _, _, (List.filter (has_start d) (Simplify.sorted_keys d)).
  split; [reflexivity | ].
  split; [apply StronglySorted_filter_lt, sorted_keys_sorted | ].
  split.
  - intros q. rewrite filter_In. now apply has_start_slot.
  - rewrite E.
    assert (G : List.filter is_note_start
                  (match Simplify.current_note
                           (fold_left (Simplify.melody_step d)
                                      (Simplify.sorted_keys d)
                                      (Simplify.mkMelody None 0 [])) with
                   | Some c => ext ++ [NoteOff 0 c 0 (ticks_per_beat mid)]
                   | None => ext
                   end ++ [EndOfTrack 0])
                = List.filter is_note_start ext).
    { destruct (Simplify.current_note _);
        rewrite !List.filter_app; simpl; now rewrite ?app_nil_r. }
    rewrite G.
    eapply Forall2_impl; [exact F | ].
    intros q m Hsel. now apply (selected_melody_note mid d).
Qed.

Lemma simplify_beginner_melody_witness :
  exists tempo_track melody slots,
    tracks test_chord_beginner = [tempo_track; melody] /\
    StronglySorted Z.lt slots /\
    (forall q, In q slots <->
               exists e, In e (timed_notes test_chord) /\
                         slot_start (ticks_per_beat test_chord) q e) /\
    Forall2 (melody_note_of (ticks_per_beat test_chord)
                            (timed_notes test_chord))
            slots (List.filter is_note_start melody).
Proof.
  apply (simplify_beginner_melody test_chord test_chord_beginner).
  vm_compute. reflexivity.
Defined.

(** ** Timelines *)

Section Timeline.
Import Simplify.

Lemma py_round_nonneg (x : Q) : (0 <= x)%Q -> 0 <= py_round x.
Proof.
  intros H. unfold py_round.
  assert (F : 0 <= Qfloor x).
  { change 0 with (Qfloor 0). now apply Qfloor_resp_le. }
  destruct (Qcompare _ _); [destruct (Z.even _) | | ]; lia.
Qed.

Lemma quantise_tick_nonneg (tick grid q : Z) :
  0 <= tick -> 0 < grid -> _quantise_tick tick grid = Ok q -> 0 <= q.
Proof.
  intros Ht Hg. unfold _quantise_tick.
  destruct (Z.eqb_spec grid 0); [lia | ].
  intros [= <-]. apply Z.mul_nonneg_nonneg; [ | lia].
  apply py_round_nonneg. unfold true_div.
  apply Qmult_le_0_compat.
  - unfold Qle, inject_Z. simpl. lia.
  - apply Qinv_le_0_compat. unfold Qle, inject_Z. simpl. lia.
Qed.

Lemma to_abstime_ge track now e :
  Forall (fun m => 0 <= msg_time m) track ->
  In e (to_abstime track now) -> now <= e.1.
Proof.
  intros H. revert now. induction H as [ | m track Hm _ IH]; intros now;
    simpl; [tauto | ].
  intros [<- | Hin]; simpl; [lia | ].
  specialize (IH _ Hin). lia.
Qed.

Lemma to_abstime_snd track now : (to_abstime track now).*2 = track.
Proof.
  revert now. induction track as [ | m track IH]; intros now; simpl;
    [reflexivity | ].
  now rewrite IH.
Qed.

Lemma to_abstime_sorted track now :
  Forall (fun m => 0 <= msg_time m) track ->
  Sorted time_le (to_abstime track now).
Proof.
  intros H. revert now. induction H as [ | m track Hm Htr IH]; intros now;
    simpl; [constructor | ].
  constructor; [apply IH | ].
  destruct track as [ | m' track]; simpl; constructor.
  unfold time_le. simpl. inversion Htr; subst. lia.
Qed.

(** Sorting by time leaves a timeline that is in order as it is. *)
Lemma sort_by_time_sorted (l : list (Z * Message)) :
  Sorted time_le l -> foldr insert_by_time [] l = l.
Proof.
  induction 1 as [ | x l Hs IH Hd]; simpl; [reflexivity | ].
  rewrite IH. destruct Hd as [ | y l Hxy]; simpl; [reflexivity | ].
  unfold time_le in Hxy.
  destruct (Z.ltb_spec y.1 x.1); [lia | reflexivity].
Qed.

Lemma timed_notes_nonneg mid e :
  well_timed mid -> In e (timed_notes mid) -> 0 <= e.1.
Proof.
  unfold well_timed, timed_notes. intros Hw Hin.
  apply filter_In in Hin. destruct Hin as [Hin _].
  apply in_concat in Hin. destruct Hin as (l & Hl & Hin).
  apply in_map_iff in Hl. destruct Hl as (track & <- & Htrack).
  rewrite List.Forall_forall in Hw.
  now apply (to_abstime_ge track 0 e (Hw _ Htrack)).
Qed.

Lemma group_events_keys grid events d0 d q :
  group_events grid events d0 = Ok d ->
  is_Some (d !! q) ->
  is_Some (d0 !! q) \/ exists e, In e events /\ in_slot grid q e = true.
Proof.
  revert d0. induction events as [ | [t m] rest IH]; intros d0; simpl.
  - intros [= <-]. auto.
  - destruct (_quantise_tick t grid) as [q' | ] eqn:Eq; simpl;
      [ | discriminate].
    intros H Hq. destruct (IH _ H Hq) as [Hs | (e & He & Hslot)].
    + destruct (Z.eq_dec q' q) as [-> | Hne].
      * right. exists (t, m). split; [now left | ].
        unfold in_slot. simpl. now rewrite Eq, Z.eqb_refl.
      * rewrite lookup_insert_ne in Hs by exact Hne. now left.
    + right. exists e. auto.
Qed.

(** The loop over ascending grid positions emits no negative delta. *)
Lemma melody_loop_times d keys st :
  StronglySorted Z.lt keys ->
  Forall (fun q => last_time st <= q) keys ->
  Forall (fun m => 0 <= msg_time m) (melody_track st) ->
  Forall (fun m => 0 <= msg_time m)
         (melody_track (fold_left (melody_step d) keys st)).
Proof.
  intros Hs. revert st.
  induction Hs as [ | q keys Hs IH Hq]; intros st Hl Ht; simpl; [exact Ht | ].
  inversion Hl as [ | ? ? Hlq Hlk]; subst.
  apply IH; unfold melody_step;
    destruct (max_by_note _) as [highest | ]; try assumption;
    destruct (current_note st); simpl.
  - eapply Forall_impl; [exact Hq | ]. simpl. intros; lia.
  - eapply Forall_impl; [exact Hq | ]. simpl. intros; lia.
  - rewrite !Forall_app. repeat split; try assumption;
      repeat constructor; simpl; lia.
  - rewrite !Forall_app. repeat split; try assumption;
      repeat constructor; simpl; lia.
Qed.

Lemma sorted_keys_nonneg (mid : MidiFile) d :
  0 < ticks_per_beat mid -> well_timed mid ->
  group_events (ticks_per_beat mid) (sort_events (collect_events mid)) ∅
  = Ok d ->
  Forall (fun q => 0 <= q) (sorted_keys d).
Proof.
  intros Hg Hw Hd. apply List.Forall_forall. intros q Hq.
  apply sorted_keys_In in Hq.
  destruct (group_events_keys _ _ _ _ _ Hd Hq) as [Hs | (e & He & Hslot)].
  - rewrite lookup_empty in Hs. now destruct Hs.
  - apply (proj1 (sort_events_In _ _)) in He.
    rewrite collect_events_timed_notes in He.
    apply in_slot_true in Hslot.
    apply (quantise_tick_nonneg e.1 (ticks_per_beat mid)); auto.
    now apply (timed_notes_nonneg mid).
Qed.

(** For a well-timed input the two tracks of the output, one after the
    other, are the timeline of the output. *)
Lemma simplify_beginner_timeline (mid out : MidiFile) :
  simplify_beginner mid = Ok out ->
  0 < ticks_per_beat mid -> well_timed mid ->
  timeline out = concat (tracks out).
Proof.
  unfold simplify_beginner, _get_ticks_per_beat.
  destruct (group_events _ _ _) as [d | ] eqn:Hd; simpl; [ | discriminate].
  intros [= <-] Hg Hw. unfold timeline. simpl tracks.
  set (st := fold_left (melody_step d) (sorted_keys d) (mkMelody None 0 [])).
  set (melody := match current_note st with
                 | Some c => melody_track st ++ [NoteOff 0 c 0 (ticks_per_beat mid)]
                 | None => melody_track st
                 end ++ [EndOfTrack 0]).
  assert (Hst : Forall (fun m => 0 <= msg_time m) (melody_track st)).
  { apply melody_loop_times; [apply sorted_keys_sorted | | constructor].
    simpl. now apply (sorted_keys_nonneg mid). }
  assert (Hmel : Forall (fun m => 0 <= msg_time m) melody).
  { subst melody. destruct (current_note st);
      rewrite !Forall_app; repeat split; try assumption;
      repeat constructor; simpl; lia. }
  rewrite sort_by_time_sorted.
  - simpl. rewrite !app_nil_r, to_abstime_snd. reflexivity.
  - simpl. rewrite app_nil_r.
    pose proof (to_abstime_sorted melody 0 Hmel) as Hsorted.
    assert (Hd0 : forall x : Z * Message,
               x.1 = 0 -> HdRel time_le x (to_abstime melody 0)).
    { intros x Hx.
      destruct (to_abstime melody 0) as [ | y l] eqn:E; constructor.
      unfold time_le. rewrite Hx.
      apply (to_abstime_ge melody 0 y Hmel). rewrite E. now left. }
    repeat constructor; auto.
    unfold time_le. simpl. lia.
Qed.

End Timeline.

(** C6. The output of beginner simplification is a tempo track without
    notes and a melody track that is a single melodic line: a note starts
    only when none sounds, the stop of the previous melody note comes right
    before the start of the next one and at the same time point, and the
    last note is stopped before the end of the track.  Hence at most one
    note is active at any point of the replay, both of the melody track
    and of the whole output; for an input with a positive resolution and
    no negative delta time, the whole output replayed in timeline order has
    at most one note active as well. *)
Theorem simplify_beginner_monophonic (mid out : MidiFile) :
  Simplify.simplify_beginner mid = Ok out ->
  exists tempo_track melody,
    tracks out = [tempo_track; melody] /\
    Forall (fun m => is_note_msg m = false) tempo_track /\
    monophonic_line melody /\
    (max_active_track melody <= 1)%nat /\
    (max_active_track (concat (tracks out)) <= 1)%nat /\
    (count_replay (concat (tracks out))).2 <= 1 /\
    (0 < ticks_per_beat mid -> well_timed mid ->
     (max_active_timeline out <= 1)%nat).
Proof.
  intros Hout.
  pose proof (simplify_beginner_timeline mid out Hout) as Htl.
  assert (Hlines : exists tempo_track melody,
             tracks out = [tempo_track; melody] /\
             Forall (fun m => is_note_msg m = false) tempo_track /\
             monophonic_line melody /\
             monophonic_line (concat (tracks out))).
  { clear Htl. revert Hout. unfold Simplify.simplify_beginner.
    destruct (Simplify.group_events _ _ _) as [grid_events | ]; simpl;
      [ | discriminate].
    intros [= <-]. simpl.
    set (st := fold_left (Simplify.melody_step grid_events)
                         (Simplify.sorted_keys grid_events)
                         (Simplify.mkMelody None 0 [])).
    assert (Hline : line_check (None, false) (Simplify.melody_track st)
                    = Some (Simplify.current_note st, false))
      by (apply melody_loop_line; reflexivity).
    set (melody := match Simplify.current_note st with
                   | Some c =>
                       Simplify.melody_track st
                       ++ [NoteOff 0 c 0 (Simplify._get_ticks_per_beat mid)]
                   | None => Simplify.melody_track st
                   end ++ [EndOfTrack 0]).
    assert (Hmel : line_check (None, false) melody = Some (None, false)).
    { subst melody. destruct (Simplify.current_note st) as [c | ].
      - rewrite <- app_assoc, line_check_app, Hline. simpl.
        now rewrite Z.eqb_refl.
      - rewrite line_check_app, Hline. reflexivity. }
    eexists _, melody. split; [reflexivity | ].
    split; [repeat constructor | ].
    split; [now exists false | ].
    rewrite app_nil_r. exists false. simpl. exact Hmel. }
  destruct Hlines as (tempo_track & melody & Ht & Hn & Hm & Hall).
  exists tempo_track, melody.
  split; [exact Ht | ]. split; [exact Hn | ]. split; [exact Hm | ].
  split; [now apply monophonic_line_max | ].
  split; [now apply monophonic_line_max | ].
  split; [now apply monophonic_line_max | ].
  intros Hg Hw. unfold max_active_timeline. rewrite (Htl Hg Hw).
  now apply (monophonic_line_max _ Hall).
Qed.

Lemma simplify_beginner_monophonic_witness :
  exists tempo_track melody,
    tracks test_chord_beginner = [tempo_track; melody] /\
    Forall (fun m => is_note_msg m = false) tempo_track /\
    monophonic_line melody /\
    (max_active_track melody <= 1)%nat /\
    (max_active_track (concat (tracks test_chord_beginner)) <= 1)%nat /\
    (count_replay (concat (tracks test_chord_beginner))).2 <= 1 /\
    (max_active_timeline test_chord_beginner <= 1)%nat.
Proof.
  assert (H : Simplify.simplify_beginner test_chord = Ok test_chord_beginner)
    by (vm_compute; reflexivity).
  destruct (simplify_beginner_monophonic test_chord test_chord_beginner H)
    as (tempo_track & melody & Ht & Hn & Hm & H1 & H2 & H3 & H4).
  exists tempo_track, melody.
  split; [exact Ht | ]. split; [exact Hn | ]. split; [exact Hm | ].
  split; [exact H1 | ]. split; [exact H2 | ]. split; [exact H3 | ].
  apply H4; [reflexivity | ].
  repeat constructor; simpl; lia.
Defined.

(** ** Level 2 on a single track *)

Lemma intermediate_step_times st msg :
  0 <= msg_time msg ->
  Forall (fun m => 0 <= msg_time m) st.2 ->
  Forall (fun m => 0 <= msg_time m) (Simplify.intermediate_step st msg).2.
Proof.
  intros Hm Hst. destruct st as [active new_track].
  unfold Simplify.intermediate_step.
  repeat match goal with
         | |- context [if ?b then _ else _] => destruct b
         end; simpl in *; try assumption;
    rewrite ?Forall_app; repeat split; try assumption;
    repeat constructor; simpl; lia.
Qed.

Lemma intermediate_track_times track :
  Forall (fun m => 0 <= msg_time m) track ->
  Forall (fun m => 0 <= msg_time m) (Simplify.intermediate_track track).
Proof.
  unfold Simplify.intermediate_track.
  induction track as [ | msg track IH] using rev_ind; intros H.
  - constructor.
  - apply Forall_app in H. destruct H as [Ht Hm].
    rewrite intermediate_run_snoc.
    apply intermediate_step_times; [now inversion Hm | now apply IH].
Qed.

(** For a file of one track without negative delta times, the track of the
    output is its timeline, and the bound of 4 is the one on the timeline
    of the whole output. *)
Lemma intermediate_polyphony_single_track (tpb : Z) (track : MidiTrack) :
  Forall (fun m => 0 <= msg_time m) track ->
  (max_active_timeline
     (Simplify.simplify_intermediate (mkMidiFile tpb [track])) <= 4)%nat.
Proof.
  intros H. unfold max_active_timeline, timeline,
    Simplify.simplify_intermediate. simpl.
  rewrite app_nil_r, sort_by_time_sorted, to_abstime_snd.
  - now destruct (intermediate_run_inv track) as (_ & _ & Hm & _).
  - now apply to_abstime_sorted, intermediate_track_times.
Qed.

(** * Further properties of the code *)

(** ** Rounding and the quantiser *)

Section RoundingFacts.
Import Simplify.

Lemma py_round_floor (x : Q) :
  Qfloor x <= py_round x <= Qfloor x + 1.
Proof.
  unfold py_round.
  destruct (Qcompare _ _); [destruct (Z.even _) | | ]; lia.
Qed.

(** [round] is monotone. *)
Lemma py_round_mono (x y : Q) : (x <= y)%Q -> py_round x <= py_round y.
Proof.
  intros Hxy.
  pose proof (Qfloor_resp_le x y Hxy) as Hf.
  destruct (Z.eq_dec (Qfloor x) (Qfloor y)) as [E | Hne].
  - unfold py_round. rewrite E.
    destruct (Qcompare_spec (x - inject_Z (Qfloor y)) (1 # 2)) as [H1 | H1 | H1];
      destruct (Qcompare_spec (y - inject_Z (Qfloor y)) (1 # 2))
        as [H2 | H2 | H2];
      try destruct (Z.even (Qfloor y)); try lia; exfalso; lra.
  - pose proof (py_round_floor x). pose proof (py_round_floor y). lia.
Qed.

Lemma true_div_pos (t : Z) (p : positive) : (true_div t (Zpos p) == t # p)%Q.
Proof. unfold true_div, Qeq, Qdiv, Qmult, Qinv, inject_Z. simpl. lia. Qed.

Lemma true_div_neg (t : Z) (p : positive) : (true_div t (Zneg p) == (- t) # p)%Q.
Proof. unfold true_div, Qeq, Qdiv, Qmult, Qinv, inject_Z. simpl. lia. Qed.

(** [round] of a fraction, in integer arithmetic. *)
Lemma py_round_frac (n : Z) (p : positive) :
  py_round (n # p)
  = match 2 * (n mod Zpos p) ?= Zpos p with
    | Lt => n / Zpos p
    | Eq => if Z.even (n / Zpos p) then n / Zpos p else n / Zpos p + 1
    | Gt => n / Zpos p + 1
    end.
Proof.
  unfold py_round. simpl Qfloor.
  replace (Qcompare ((n # p) - inject_Z (n / Zpos p)) (1 # 2))
    with (2 * (n mod Zpos p) ?= Zpos p); [reflexivity | ].
  unfold Qcompare, Qminus, Qplus, Qopp, inject_Z. simpl.
  rewrite Z.mod_eq by lia. f_equal; lia.
Qed.

(** The rounded quotient is within half a unit of the quotient. *)
Lemma py_round_frac_near (n : Z) (p : positive) :
  2 * Z.abs (py_round (n # p) * Zpos p - n) <= Zpos p.
Proof.
  rewrite py_round_frac.
  pose proof (Z.div_mod n (Zpos p) ltac:(lia)) as Hdm.
  pose proof (Z.mod_pos_bound n (Zpos p) ltac:(lia)) as Hb.
  destruct (Z.compare_spec (2 * (n mod Zpos p)) (Zpos p));
    try destruct (Z.even _); nia.
Qed.

End RoundingFacts.



(** X2. A quantised time is a fixed point of the quantiser: quantising it
    again on the same grid gives it back. *)
Theorem quantise_tick_idempotent (tick grid q : Z) :
  Simplify._quantise_tick tick grid = Ok q ->
  Simplify._quantise_tick q grid = Ok q.
Proof.
  unfold Simplify._quantise_tick at 1.
  destruct (Z.eqb_spec grid 0); [discriminate | ].
  intros [= <-]. now apply quantise_tick_on_grid.
Qed.

Lemma quantise_tick_idempotent_witness :
  Simplify._quantise_tick 100 120 = Ok 120 /\
  Simplify._quantise_tick 120 120 = Ok 120.
Proof.
  assert (H : Simplify._quantise_tick 100 120 = Ok 120)
    by (vm_compute; reflexivity).
  split; [exact H | exact (quantise_tick_idempotent 100 120 120 H)].
Defined.

(** X3. On a positive grid the quantiser is monotone: a later tick is never
    quantised to an earlier grid point. *)
Theorem quantise_tick_monotone (tick1 tick2 grid q1 q2 : Z) :
  0 < grid ->
  tick1 <= tick2 ->
  Simplify._quantise_tick tick1 grid = Ok q1 ->
  Simplify._quantise_tick tick2 grid = Ok q2 ->
  q1 <= q2.
Proof.
  intros Hg Ht. unfold Simplify._quantise_tick.
  destruct (Z.eqb_spec grid 0); [lia | ].
  intros [= <-] [= <-].
  apply Z.mul_le_mono_nonneg_r; [lia | ].
  apply py_round_mono. unfold true_div.
  apply Qmult_le_compat_r.
  - rewrite <- Zle_Qle. exact Ht.
  - apply Qinv_le_0_compat. unfold Qle, inject_Z. simpl. lia.
Qed.

Lemma quantise_tick_monotone_witness :
  Simplify._quantise_tick 100 120 = Ok 120 /\
  Simplify._quantise_tick 190 120 = Ok 240 /\
  120 <= 240.
Proof.
  assert (H1 : Simplify._quantise_tick 100 120 = Ok 120)
    by (vm_compute; reflexivity).
  assert (H2 : Simplify._quantise_tick 190 120 = Ok 240)
    by (vm_compute; reflexivity).
  split; [exact H1 | ]. split; [exact H2 | ].
  apply (quantise_tick_monotone 100 190 120 120 240);
    [lia | lia | exact H1 | exact H2].
Defined.

(** ** The scorer *)

Section ScorerFacts.

Lemma score_of_range nps polyphony pitch_range hand_span :
  4 <= score_of nps polyphony pitch_range hand_span <= 31.
Proof.
  unfold score_of, nps_points, polyphony_points, pitch_range_points,
    hand_span_points.
  repeat match goal with
         | |- context [if ?b then _ else _] => destruct b
         end; lia.
Qed.

Lemma level_of_score_range (score : Z) :
  4 <= score <= 31 ->
  1 <= py_round (true_div score 4) <= 8.
Proof.
  intros H.
  rewrite (py_round_comp _ _ (true_div_pos score 4)).
  split.
  - change 1 with (py_round (4 # 4)). apply py_round_mono.
    unfold Qle. simpl. lia.
  - change 8 with (py_round (31 # 4)). apply py_round_mono.
    unfold Qle. simpl. lia.
Qed.

Ltac Qltb_cases :=
  repeat match goal with
         | |- context [Qltb ?x ?c] =>
             let E := fresh "E" in
             destruct (Qltb x c) eqn:E;
             [apply Qltb_lt in E | apply Qltb_ge in E]
         end.

Lemma nps_points_mono (a b : Q) : (a <= b)%Q -> nps_points a <= nps_points b.
Proof.
  intros H. unfold nps_points. Qltb_cases; try lia; exfalso; lra.
Qed.

Lemma polyphony_points_mono (a b : Q) :
  (a <= b)%Q -> polyphony_points a <= polyphony_points b.
Proof.
  intros H. unfold polyphony_points. Qltb_cases; try lia; exfalso; lra.
Qed.

Lemma pitch_range_points_mono (a b : Z) :
  a <= b -> pitch_range_points a <= pitch_range_points b.
Proof.
  intros H. unfold pitch_range_points.
  repeat match goal with
         | |- context [?x <? ?c] => destruct (Z.ltb_spec x c)
         end; lia.
Qed.

Lemma hand_span_points_mono (a b : Z) :
  a <= b -> hand_span_points a <= hand_span_points b.
Proof.
  intros H. unfold hand_span_points.
  repeat match goal with
         | |- context [?x <? ?c] => destruct (Z.ltb_spec x c)
         end; lia.
Qed.

End ScorerFacts.

(** The rounded average needs no clamp, and its label is one of the first
    eight. *)
Lemma level_and_label (nps polyphony : Q) (pitch_range hand_span : Z) :
  let level := _estimate_level nps polyphony pitch_range hand_span in
  1 <= level <= 8 /\
  level = py_round (true_div (score_of nps polyphony pitch_range hand_span) 4) /\
  In (LEVEL_LABELS_get level)
     [ "beginner"; "beginner+"; "easy"; "easy+"; "intermediate";
       "intermediate+"; "advanced"; "advanced+" ]%string.
Proof.
  simpl. rewrite estimate_level_score.
  pose proof (level_of_score_range _
                (score_of_range nps polyphony pitch_range hand_span)) as H.
  set (l := py_round _) in *.
  replace (Z.max 1 (Z.min 10 l)) with l by lia.
  split; [exact H | ]. split; [reflexivity | ].
  assert (C : l = 1 \/ l = 2 \/ l = 3 \/ l = 4 \/ l = 5 \/ l = 6 \/ l = 7
              \/ l = 8) by lia.
  destruct C as [-> | [-> | [-> | [-> | [-> | [-> | [-> | ->]]]]]]];
    simpl; tauto.
Qed.

(** X4. The level is always between 1 and 8: the sub-scores sum to at most
    31, so the clamp to the range from 1 to 10 never changes the rounded
    average, and the labels of the levels 9 and 10 and the fallback label
    are never used. *)
Theorem estimate_level_range (nps polyphony : Q) (pitch_range hand_span : Z) :
  let level := _estimate_level nps polyphony pitch_range hand_span in
  1 <= level <= 8 /\
  level = py_round (true_div (score_of nps polyphony pitch_range hand_span) 4) /\
  In (LEVEL_LABELS_get level)
     [ "beginner"; "beginner+"; "easy"; "easy+"; "intermediate";
       "intermediate+"; "advanced"; "advanced+" ]%string.
Proof. apply level_and_label. Qed.

(** X5. The level is monotone in the four metrics: raising the note rate,
    the polyphony, the pitch range or the hand span never lowers the
    level. *)
Theorem estimate_level_monotone
    (nps nps' polyphony polyphony' : Q)
    (pitch_range pitch_range' hand_span hand_span' : Z) :
  (nps <= nps')%Q ->
  (polyphony <= polyphony')%Q ->
  pitch_range <= pitch_range' ->
  hand_span <= hand_span' ->
  _estimate_level nps polyphony pitch_range hand_span
  <= _estimate_level nps' polyphony' pitch_range' hand_span'.
Proof.
  intros H1 H2 H3 H4. rewrite !estimate_level_score.
  apply Z.max_le_compat_l, Z.min_le_compat_l, py_round_mono.
  unfold true_div. apply Qmult_le_compat_r; [ | discriminate].
  rewrite <- Zle_Qle. unfold score_of.
  pose proof (nps_points_mono _ _ H1).
  pose proof (polyphony_points_mono _ _ H2).
  pose proof (pitch_range_points_mono _ _ H3).
  pose proof (hand_span_points_mono _ _ H4).
  lia.
Qed.

Lemma estimate_level_monotone_witness :
  _estimate_level 1 1 12 5 <= _estimate_level 8 3 40 13.
Proof.
  apply estimate_level_monotone;
    [unfold Qle; simpl; lia | unfold Qle; simpl; lia | lia | lia].
Defined.

(** ** The metrics of [analyse] *)

Section MetricFacts.

Lemma fold_max_ge (l : list Z) (a : Z) :
  a <= fold_left Z.max l a /\ forall x, In x l -> x <= fold_left Z.max l a.
Proof.
  revert a. induction l as [ | y l IH]; intros a; simpl; [split; [lia | tauto] | ].
  destruct (IH (Z.max a y)) as [Ha Hl].
  split; [lia | ]. intros x [<- | Hx]; [lia | auto].
Qed.

Lemma fold_max_In (l : list Z) (a : Z) :
  fold_left Z.max l a = a \/ In (fold_left Z.max l a) l.
Proof.
  revert a. induction l as [ | y l IH]; intros a; simpl; [auto | ].
  destruct (IH (Z.max a y)) as [E | E]; [ | auto].
  rewrite E. destruct (Z.max_spec a y) as [[_ ->] | [_ ->]]; auto.
Qed.

Lemma fold_min_le_all (l : list Z) (a : Z) :
  fold_left Z.min l a <= a /\ forall x, In x l -> fold_left Z.min l a <= x.
Proof.
  revert a. induction l as [ | y l IH]; intros a; simpl; [split; [lia | tauto] | ].
  destruct (IH (Z.min a y)) as [Ha Hl].
  split; [lia | ]. intros x [<- | Hx]; [lia | auto].
Qed.

Lemma list_max_ge (l : list Z) (x : Z) : In x l -> x <= list_max l.
Proof.
  destruct l as [ | a l]; [intros [] | ]. simpl.
  destruct (fold_max_ge l a) as [Ha Hl]. intros [<- | Hx]; auto.
Qed.

Lemma list_max_In (l : list Z) : l <> [] -> In (list_max l) l.
Proof.
  destruct l as [ | a l]; [congruence | intros _]. simpl.
  destruct (fold_max_In l a); auto.
Qed.

Lemma list_min_le (l : list Z) (x : Z) : In x l -> list_min l <= x.
Proof.
  destruct l as [ | a l]; [intros [] | ]. simpl.
  destruct (fold_min_le_all l a) as [Ha Hl]. intros [<- | Hx]; auto.
Qed.

(** The span of a non-empty part of a list is at most the span of the
    list. *)
Lemma span_sublist (notes pitches : list Z) :
  notes <> [] -> (forall x, In x notes -> In x pitches) ->
  0 <= list_max notes - list_min notes <= list_max pitches - list_min pitches.
Proof.
  intros Hne Hsub.
  pose proof (list_max_In notes Hne) as Hmax.
  pose proof (list_min_In notes Hne) as Hmin.
  pose proof (list_min_le notes _ Hmax).
  pose proof (list_max_ge pitches _ (Hsub _ Hmax)).
  pose proof (list_min_le pitches _ (Hsub _ Hmin)).
  lia.
Qed.

Lemma fill_buckets_of window note_events buckets b pitches :
  fill_buckets window note_events buckets = Ok b ->
  (forall e, In e note_events -> In e.2 pitches) ->
  buckets_of pitches buckets -> buckets_of pitches b.
Proof.
  revert buckets.
  induction note_events as [ | [t note] rest IH]; intros buckets; simpl.
  - now intros [= <-].
  - destruct (floor_div t window) as [bucket | ]; simpl; [ | discriminate].
    intros H Hp Hinv. apply (IH _ H); [auto | ].
    intros k notes. destruct (Z.eq_dec bucket k) as [-> | Hne].
    + rewrite lookup_insert_eq. intros [= <-].
      split; [now destruct (default [] (buckets !! k)) | ].
      intros x Hx. apply in_app_iff in Hx. destruct Hx as [Hx | [<- | []]].
      * destruct (buckets !! k) as [old | ] eqn:E; [ | destruct Hx].
        now apply (Hinv k old E).
      * apply (Hp (t, note)). now left.
    + rewrite lookup_insert_ne by exact Hne. apply Hinv.
Qed.

Lemma bucket_values_In (buckets : gmap Z (list Z)) notes :
  In notes (bucket_values buckets) -> exists k, buckets !! k = Some notes.
Proof.
  unfold bucket_values. intros H. apply in_map_iff in H.
  destruct H as ([k v] & <- & H). exists k.
  now apply elem_of_map_to_list, list_elem_of_In.
Qed.

Lemma span_loop_bound (values : list (list Z)) (bound : Z) :
  0 <= bound ->
  (forall notes, In notes values -> notes <> [] ->
                 list_max notes - list_min notes <= bound) ->
  0 <= span_loop values <= bound.
Proof.
  intros Hb. unfold span_loop.
  assert (G : forall acc, 0 <= acc <= bound ->
            (forall notes, In notes values -> notes <> [] ->
                           list_max notes - list_min notes <= bound) ->
            0 <= fold_left
                   (fun max_span notes =>
                      if (1 <? Z.of_nat (length notes))
                      then let span := list_max notes - list_min notes in
                           Z.max max_span span
                      else max_span) values acc <= bound).
  { induction values as [ | notes values IH]; intros acc Hacc Hv; simpl;
      [exact Hacc | ].
    apply IH; [ | intros; apply Hv; auto; now right].
    destruct (Z.ltb_spec 1 (Z.of_nat (length notes))); [ | exact Hacc].
    assert (notes <> []) by (destruct notes; simpl in *; [lia | discriminate]).
    specialize (Hv notes (or_introl eq_refl) ltac:(assumption)). simpl. lia. }
  intros Hv. apply G; [lia | exact Hv].
Qed.

End MetricFacts.

Section PolyphonyFacts.

Lemma fold_add_acc (l : list Z) (a : Z) :
  fold_left Z.add l a = a + fold_left Z.add l 0.
Proof.
  revert a. induction l as [ | x l IH]; intros a; cbn [fold_left]; [lia | ].
  rewrite (IH (a + x)), (IH (0 + x)). lia.
Qed.

Lemma sum_list_cons (x : Z) (l : list Z) : sum_list (x :: l) = x + sum_list l.
Proof. unfold sum_list. simpl. apply fold_add_acc. Qed.

Lemma sum_list_perm (l l' : list Z) : l ≡ₚ l' -> sum_list l = sum_list l'.
Proof.
  induction 1; rewrite ?sum_list_cons; lia.
Qed.

Lemma sum_list_ge_length (l : list Z) :
  Forall (fun x => 1 <= x) l -> Z.of_nat (length l) <= sum_list l.
Proof.
  induction 1 as [ | x l Hx _ IH]; [reflexivity | ].
  rewrite sum_list_cons. simpl length. lia.
Qed.

Lemma bucket_total_insert_new (buckets : gmap Z (list Z)) k notes :
  buckets !! k = None ->
  bucket_total (<[k := notes]> buckets)
  = Z.of_nat (length notes) + bucket_total buckets.
Proof.
  intros H. unfold bucket_total, bucket_values.
  rewrite <- sum_list_cons. apply sum_list_perm.
  change (Z.of_nat (length notes)
          :: map (fun notes0 => Z.of_nat (length notes0)) (map_to_list buckets).*2)
    with (map (fun notes0 => Z.of_nat (length notes0))
              (((k, notes) :: map_to_list buckets).*2)).
  apply Permutation_map, fmap_Permutation. now apply map_to_list_insert.
Qed.

Lemma bucket_total_append (buckets : gmap Z (list Z)) k note :
  bucket_total (<[k := default [] (buckets !! k) ++ [note]]> buckets)
  = bucket_total buckets + 1.
Proof.
  destruct (buckets !! k) as [old | ] eqn:E; simpl.
  - rewrite <- insert_delete_eq.
    rewrite bucket_total_insert_new by apply lookup_delete_eq.
    assert (Hm : bucket_total buckets
                 = Z.of_nat (length old) + bucket_total (delete k buckets)).
    { unfold bucket_total, bucket_values.
      rewrite <- sum_list_cons. apply sum_list_perm.
      change (Z.of_nat (length old)
              :: map (fun notes => Z.of_nat (length notes))
                     (map_to_list (delete k buckets)).*2)
        with (map (fun notes => Z.of_nat (length notes))
                  (((k, old) :: map_to_list (delete k buckets)).*2)).
      apply Permutation_map, fmap_Permutation.
      symmetry. now apply map_to_list_delete. }
    rewrite Hm, length_app. simpl. lia.
  - rewrite bucket_total_insert_new by exact E. simpl. lia.
Qed.

(** Every note event goes into one bucket. *)
Lemma fill_buckets_total window note_events buckets b :
  fill_buckets window note_events buckets = Ok b ->
  bucket_total b = bucket_total buckets + Z.of_nat (length note_events).
Proof.
  revert buckets.
  induction note_events as [ | [t note] rest IH]; intros buckets; simpl length.
  - simpl. intros [= <-]. lia.
  - simpl. destruct (floor_div t window) as [bucket | ]; simpl;
      [ | discriminate].
    intros H. rewrite (IH _ H), bucket_total_append. lia.
Qed.

Lemma bucket_total_empty : bucket_total ∅ = 0.
Proof. unfold bucket_total, bucket_values. now rewrite map_to_list_empty. Qed.

Lemma bucket_total_ge_count pitches (buckets : gmap Z (list Z)) :
  buckets_of pitches buckets ->
  Z.of_nat (length (bucket_values buckets)) <= bucket_total buckets.
Proof.
  intros Hinv. unfold bucket_total.
  rewrite <- (length_map (fun notes => Z.of_nat (length notes))).
  apply sum_list_ge_length, List.Forall_forall.
  intros x Hx. apply in_map_iff in Hx. destruct Hx as (notes & <- & Hin).
  apply bucket_values_In in Hin. destruct Hin as [k Hk].
  destruct (Hinv k notes Hk) as [Hne _].
  destruct notes; [congruence | simpl; lia].
Qed.

End PolyphonyFacts.

Section AnalyseReport.

(** The report of the regular path, in terms of the buckets. *)
Lemma analyse_regular (mid : MidiFile) (duration : Q) (r : DifficultyReport) :
  analyse mid duration = Ok r ->
  note_starts mid <> [] ->
  ~ (duration == 0)%Q ->
  exists buckets,
    fill_buckets (ticks_per_beat mid / 8) (collect_note_events mid) ∅
    = Ok buckets /\
    total_notes r = Z.of_nat (length (collect_note_events mid)) /\
    pitch_range r
    = list_max (map snd (collect_note_events mid))
      - list_min (map snd (collect_note_events mid)) /\
    max_hand_span r = span_loop (bucket_values buckets) /\
    avg_polyphony r
    = match map (fun notes => Z.of_nat (length notes)) (bucket_values buckets)
      with
      | [] => 0%Q
      | _ :: _ =>
          true_div (bucket_total buckets)
                   (Z.of_nat (length (bucket_values buckets)))
      end.
Proof.
  intros H Hn Hd. unfold analyse in H.
  apply Qeq_bool_false in Hd. rewrite Hd, orb_false_r in H.
  destruct (collect_note_events mid) as [ | e l] eqn:E.
  { apply collect_note_events_nil in E. contradiction. }
  destruct (fill_buckets _ _ _) as [buckets | ]; simpl in H; [ | discriminate].
  injection H as <-. exists buckets. simpl.
  split; [reflexivity | ]. split; [reflexivity | ].
  split; [reflexivity | ]. split; [reflexivity | ].
  unfold bucket_total. rewrite length_map.
  now destruct (bucket_values buckets).
Qed.

End AnalyseReport.

(** X6. On the regular path of [analyse] (the file has a note-start and its
    duration is not 0), the note count of the report is the number of
    note-starts of the file, the pitch range is the distance between the
    highest and the lowest of their pitches, and the maximal hand span is
    never negative and never exceeds the pitch range. *)
Theorem analyse_metrics (mid : MidiFile) (duration : Q) (r : DifficultyReport) :
  analyse mid duration = Ok r ->
  note_starts mid <> [] ->
  ~ (duration == 0)%Q ->
  total_notes r = Z.of_nat (length (note_starts mid)) /\
  pitch_range r
  = list_max (map msg_note (note_starts mid))
    - list_min (map msg_note (note_starts mid)) /\
  0 <= max_hand_span r <= pitch_range r.
Proof.
  intros H Hn Hd.
  destruct (analyse_regular mid duration r H Hn Hd)
    as (buckets & Hb & Ht & Hp & Hs & _).
  rewrite collect_note_events_pitches in Hp.
  split.
  { rewrite Ht, <- (length_map snd), collect_note_events_pitches.
    now rewrite length_map. }
  split; [exact Hp | ].
  rewrite Hs, Hp.
  assert (Hinv : buckets_of (map msg_note (note_starts mid)) buckets).
  { apply (fill_buckets_of _ _ _ _ _ Hb).
    - intros e He. rewrite <- collect_note_events_pitches. now apply in_map.
    - intros k notes. rewrite lookup_empty. discriminate. }
  assert (Hne : map msg_note (note_starts mid) <> [])
    by (destruct (note_starts mid); [congruence | discriminate]).
  apply span_loop_bound.
  - destruct (span_sublist _ _ Hne (fun _ Hx => Hx)). lia.
  - intros notes Hin Hnotes. apply bucket_values_In in Hin.
    destruct Hin as [k Hk]. destruct (Hinv k notes Hk) as [_ Hsub].
    now apply span_sublist.
Qed.

Lemma analyse_metrics_witness :
  exists r,
    analyse test_chord (1 # 2) = Ok r /\
    total_notes r = Z.of_nat (length (note_starts test_chord)) /\
    pitch_range r
    = list_max (map msg_note (note_starts test_chord))
      - list_min (map msg_note (note_starts test_chord)) /\
    0 <= max_hand_span r <= pitch_range r.
Proof.
  eexists. split; [vm_compute; reflexivity | ].
  apply (analyse_metrics test_chord (1 # 2));
    [vm_compute; reflexivity | simpl; discriminate | discriminate].
Defined.

(** X7. On the regular path the average polyphony is the note count
    divided by the number of non-empty buckets: every note-start is
    counted in exactly one bucket, so the average is at least 1 and at
    most the note count. *)
Theorem analyse_polyphony (mid : MidiFile) (duration : Q) (r : DifficultyReport) :
  analyse mid duration = Ok r ->
  note_starts mid <> [] ->
  ~ (duration == 0)%Q ->
  exists n : Z,
    1 <= n <= total_notes r /\
    avg_polyphony r = true_div (total_notes r) n /\
    (1 <= avg_polyphony r <= inject_Z (total_notes r))%Q.
Proof.
  intros H Hn Hd.
  destruct (analyse_regular mid duration r H Hn Hd)
    as (buckets & Hb & Ht & _ & _ & Ha).
  pose proof (fill_buckets_total _ _ _ _ Hb) as Htot.
  rewrite bucket_total_empty, Z.add_0_l in Htot.
  assert (Hinv : buckets_of (map snd (collect_note_events mid)) buckets).
  { apply (fill_buckets_of _ _ _ _ _ Hb).
    - intros e He. now apply in_map.
    - intros k notes. rewrite lookup_empty. discriminate. }
  pose proof (bucket_total_ge_count _ _ Hinv) as Hcount.
  assert (Hpos : 0 < Z.of_nat (length (collect_note_events mid))).
  { destruct (collect_note_events mid) eqn:E; [ | simpl; lia].
    apply collect_note_events_nil in E. contradiction. }
  set (n := Z.of_nat (length (bucket_values buckets))) in *.
  assert (Hn1 : 1 <= n).
  { subst n. destruct (bucket_values buckets) eqn:E; [ | simpl; lia].
    unfold bucket_total in Htot. rewrite E in Htot. simpl in Htot.
    unfold sum_list in Htot. simpl in Htot. lia. }
  assert (Havg : avg_polyphony r = true_div (total_notes r) n).
  { rewrite Ha, Ht, <- Htot. subst n.
    destruct (bucket_values buckets); [simpl in Hn1; lia | reflexivity]. }
  exists n. split; [lia | ]. split; [exact Havg | ].
  rewrite Havg, Ht, <- Htot.
  destruct n as [ | p | p]; try lia.
  rewrite (true_div_pos _ p).
  unfold Qle, inject_Z. simpl. split; nia.
Qed.

Lemma analyse_polyphony_witness :
  exists r n,
    analyse test_chord (1 # 2) = Ok r /\
    1 <= n <= total_notes r /\
    avg_polyphony r = true_div (total_notes r) n /\
    (1 <= avg_polyphony r <= inject_Z (total_notes r))%Q.
Proof.
  assert (H : exists r, analyse test_chord (1 # 2) = Ok r)
    by (eexists; vm_compute; reflexivity).
  destruct H as [r H]. exists r.
  destruct (analyse_polyphony test_chord (1 # 2) r H) as (n & Hn);
    [simpl; discriminate | discriminate | ].
  exists n. split; [exact H | exact Hn].
Defined.

(** X8. Every report that [analyse] returns is consistent: its label is the
    entry of the label table for its level, the level is between 1 and 8
    (so the label is never ["expert"], ["concert"] or ["unknown"]), and
    its duration is the duration of the file. *)
Theorem analyse_report_consistent
    (mid : MidiFile) (duration : Q) (r : DifficultyReport) :
  analyse mid duration = Ok r ->
  label r = LEVEL_LABELS_get (level r) /\
  1 <= level r <= 8 /\
  In (label r)
     [ "beginner"; "beginner+"; "easy"; "easy+"; "intermediate";
       "intermediate+"; "advanced"; "advanced+" ]%string /\
  duration_seconds r = duration.
Proof.
  unfold analyse.
  destruct ((match collect_note_events mid with [] => true | _ => false end)
            || Qeq_bool duration 0).
  - intros [= <-]. simpl. repeat split; try lia. now left.
  - destruct (fill_buckets _ _ _) as [buckets | ]; simpl; [ | discriminate].
    intros [= <-]. simpl.
    match goal with
    | |- context [_estimate_level ?a ?b ?c ?d] =>
        destruct (level_and_label a b c d) as (Hr & _ & Hl)
    end.
    repeat split; try lia; exact Hl.
Qed.

Lemma analyse_report_consistent_witness :
  exists r,
    analyse test_chord (1 # 2) = Ok r /\
    label r = LEVEL_LABELS_get (level r) /\
    1 <= level r <= 8 /\
    In (label r)
       [ "beginner"; "beginner+"; "easy"; "easy+"; "intermediate";
         "intermediate+"; "advanced"; "advanced+" ]%string /\
    duration_seconds r = 1 # 2.
Proof.
  assert (H : exists r, analyse test_chord (1 # 2) = Ok r)
    by (eexists; vm_compute; reflexivity).
  destruct H as [r H]. exists r. split; [exact H | ].
  exact (analyse_report_consistent test_chord (1 # 2) r H).
Defined.

(** ** Failure and content of the levels *)

Section LevelErrors.
Import Simplify.

Lemma existsb_note_msg (mid : MidiFile) :
  existsb (existsb is_note_msg) (tracks mid) = true <-> has_note_msg mid.
Proof.
  unfold has_note_msg. rewrite existsb_exists. split.
  - intros (track & Ht & H). apply existsb_exists in H.
    destruct H as (msg & Hm & H). eauto.
  - intros (track & msg & Ht & Hm & H). exists track. split; [exact Ht | ].
    apply existsb_exists. eauto.
Qed.

Lemma to_abstime_In track now msg :
  In msg track <-> exists t, In (t, msg) (to_abstime track now).
Proof.
  revert now. induction track as [ | m track IH]; intros now; simpl.
  - split; [tauto | now intros [t []]].
  - split.
    + intros [-> | H]; [eauto | ].
      apply (IH (now + msg_time m)) in H. destruct H as [t H]. eauto.
    + intros [t [[= _ ->] | H]]; [now left | ].
      right. apply (IH (now + msg_time m)). eauto.
Qed.

Lemma timed_notes_nil (mid : MidiFile) :
  timed_notes mid = [] <-> ~ has_note_msg mid.
Proof.
  unfold timed_notes, has_note_msg. split.
  - intros E (track & msg & Ht & Hm & H).
    apply (to_abstime_In track 0) in Hm. destruct Hm as [t Hm].
    assert (Hin : In (t, msg)
                    (List.filter (fun e => is_note_msg e.2)
                       (concat (map (fun track => to_abstime track 0)
                                    (tracks mid))))).
    { apply filter_In. split; [ | exact H].
      apply in_concat. exists (to_abstime track 0).
      split; [ | exact Hm].
      now apply (in_map (fun track => to_abstime track 0)). }
    rewrite E in Hin. destruct Hin.
  - intros Hno.
    destruct (List.filter _ _) as [ | [t msg] l] eqn:E; [reflexivity | ].
    exfalso. apply Hno.
    assert (Hin : In (t, msg) ((t, msg) :: l)) by now left.
    rewrite <- E in Hin. apply filter_In in Hin. destruct Hin as [Hin H].
    apply in_concat in Hin. destruct Hin as (l' & Hl & Hin).
    apply in_map_iff in Hl. destruct Hl as (track & <- & Ht).
    exists track, msg. split; [exact Ht | ]. split; [ | exact H].
    apply (to_abstime_In track 0). eauto.
Qed.

Lemma sort_events_nil events : sort_events events = [] <-> events = [].
Proof.
  split; [ | now intros ->].
  destruct events as [ | e l]; [reflexivity | ]. intros E.
  assert (Hin : In e (sort_events (e :: l)))
    by (apply (proj2 (sort_events_In _ _)); now left).
  rewrite E in Hin. destruct Hin.
Qed.

Lemma group_events_error grid events d0 :
  group_events grid events d0 = ZeroDivisionError
  <-> grid = 0 /\ events <> [].
Proof.
  split.
  - intros H. destruct (Z.eq_dec grid 0) as [-> | Hg].
    + split; [reflexivity | ]. intros ->. discriminate.
    + destruct (group_events_ok grid events d0 Hg) as [d Hd]. congruence.
  - intros [-> Hne]. destruct events as [ | [t m] rest]; [congruence | ].
    reflexivity.
Qed.

End LevelErrors.

(** X9. Advanced simplification fails, with a division by zero, exactly
    when the resolution is between 0 and 3 ticks per beat (the grid
    [ticks_per_beat // 4] is 0) and the file has a note message; a file
    without note messages is accepted at any resolution. *)
Theorem simplify_advanced_error (mid : MidiFile) :
  Simplify.simplify_advanced mid = ZeroDivisionError
  <-> 0 <= ticks_per_beat mid <= 3 /\ has_note_msg mid.
Proof.
  rewrite simplify_advanced_eq, <- existsb_note_msg.
  destruct (Z.eqb_spec (ticks_per_beat mid / 4) 0) as [E | E];
    destruct (existsb (existsb is_note_msg) (tracks mid)); simpl;
    split; try discriminate; try tauto.
  - intros _. split; [ | reflexivity].
    apply Z.div_small_iff in E; lia.
  - intros [_ H]. discriminate.
  - intros [H _]. exfalso. apply E. apply Z.div_small. lia.
  - intros [_ H]. discriminate.
Qed.

(** X10. When advanced simplification returns a file, the file has the
    resolution of the input, as many tracks, and in each track the same
    messages in the same order: a message of the output differs from the
    message of the input at the same place in its delta time at most. *)
Theorem simplify_advanced_content (mid out : MidiFile) :
  Simplify.simplify_advanced mid = Ok out ->
  ticks_per_beat out = ticks_per_beat mid /\
  Forall2 (Forall2 same_but_time) (tracks mid) (tracks out).
Proof.
  intros H. apply simplify_advanced_zeroes in H. subst out. simpl.
  split; [reflexivity | ].
  induction (tracks mid) as [ | track trks IH]; simpl; constructor; [ | exact IH].
  induction track as [ | m track IHt]; simpl; constructor; [ | exact IHt].
  unfold same_but_time, zero_time. now destruct m.
Qed.

Lemma simplify_advanced_content_witness :
  ticks_per_beat test_chord_advanced = ticks_per_beat test_chord /\
  Forall2 (Forall2 same_but_time) (tracks test_chord)
          (tracks test_chord_advanced).
Proof.
  apply (simplify_advanced_content test_chord test_chord_advanced).
  vm_compute. reflexivity.
Defined.

(** X11. Beginner simplification fails, with a division by zero, exactly
    when the resolution is 0 and the file has a note message. *)
Theorem simplify_beginner_error (mid : MidiFile) :
  Simplify.simplify_beginner mid = ZeroDivisionError
  <-> ticks_per_beat mid = 0 /\ has_note_msg mid.
Proof.
  unfold Simplify.simplify_beginner, Simplify._get_ticks_per_beat.
  destruct (Simplify.group_events _ _ _) as [d | ] eqn:E; simpl.
  - split; [discriminate | ]. intros [Hg Hn]. exfalso.
    assert (Herr : Simplify.group_events (ticks_per_beat mid)
                     (Simplify.sort_events (Simplify.collect_events mid)) ∅
                   = ZeroDivisionError).
    { apply group_events_error. split; [exact Hg | ].
      rewrite sort_events_nil, collect_events_timed_notes, timed_notes_nil.
      tauto. }
    congruence.
  - apply group_events_error in E. destruct E as [Hg Hne].
    split; [intros _ | reflexivity]. split; [exact Hg | ].
    rewrite sort_events_nil, collect_events_timed_notes, timed_notes_nil in Hne.
    destruct (existsb (existsb is_note_msg) (tracks mid)) eqn:Ex.
    + now apply existsb_note_msg in Ex.
    + exfalso. apply Hne. intros Hh. apply existsb_note_msg in Hh. congruence.
Qed.

(** ** More on the intermediate level *)

Section IntermediateFacts.
Import Simplify.

Lemma intermediate_run_app pre ext :
  intermediate_run (pre ++ ext)
  = fold_left intermediate_step ext (intermediate_run pre).
Proof. unfold intermediate_run. now rewrite fold_left_app. Qed.

(** The three things an iteration can do: nothing, emit the message, or
    emit the stop of the lowest active note and then the message. *)
Lemma intermediate_step_shape (st : gset Z * MidiTrack) (msg : Message) :
  (size st.1 <= 4)%nat ->
  intermediate_step st msg = st \/
  (intermediate_step st msg).2 = st.2 ++ [msg] /\
  intermediate_step (st.1, st.2) msg = intermediate_step st msg \/
  exists lowest,
    lowest ∈ st.1 /\ size st.1 = 4%nat /\
    is_note_start msg = true /\
    (msg_velocity msg <? min_velocity) = false /\
    intermediate_step st msg
    = ({[msg_note msg]} ∪ st.1 ∖ {[lowest]},
       (st.2 ++ [NoteOff 0 lowest 0 0]) ++ [msg]).
Proof.
  destruct st as [active new_track]. simpl. intros Hs.
  unfold intermediate_step.
  destruct (is_note_start msg) eqn:Estart.
  - destruct (msg_velocity msg <? min_velocity) eqn:Ev; [now left | ].
    destruct (max_polyphony <=? Z.of_nat (size active)) eqn:Efull;
      [ | right; left; now rewrite ?Estart, ?Ev, ?Efull].
    destruct (bool_decide (active ≠ ∅)) eqn:Ene;
      [ | right; left; now rewrite ?Estart, ?Ev, ?Efull, ?Ene].
    destruct (set_min active <? msg_note msg) eqn:Elow; [ | now left].
    right; right. exists (set_min active).
    apply bool_decide_eq_true in Ene.
    apply Z.leb_le in Efull. unfold max_polyphony in Efull.
    split; [now apply set_min_elem | ].
    split; [lia | ]. auto.
  - right; left. destruct (is_note_stop msg); simpl; auto.
Qed.

(** Running the loop on its own output changes nothing. *)
Lemma intermediate_run_fixpoint track :
  intermediate_run (intermediate_run track).2 = intermediate_run track.
Proof.
  induction track as [ | msg track IH] using rev_ind; [reflexivity | ].
  rewrite intermediate_run_snoc.
  destruct (intermediate_run_inv track) as (_ & Hsize & _ & _).
  destruct (intermediate_step_shape (intermediate_run track) msg Hsize)
    as [E | [[E E'] | (lowest & Hin & H4 & Estart & Ev & E)]].
  - now rewrite E.
  - rewrite E, intermediate_run_snoc, IH. reflexivity.
  - rewrite E. cbn [snd].
    rewrite intermediate_run_snoc, intermediate_run_snoc, IH.
    destruct (intermediate_run track) as [active new_track].
    cbn [fst snd] in *.
    rewrite intermediate_step_stop by reflexivity. cbn [msg_note].
    unfold intermediate_step. rewrite Estart, Ev.
    pose proof (size_remove_elem _ _ Hin) as Hrem.
    destruct (Z.leb_spec max_polyphony
                (Z.of_nat (size (active ∖ {[lowest]})))) as [Hle | Hlt];
      [unfold max_polyphony in Hle; lia | reflexivity].
Qed.

Lemma intermediate_step_other st msg :
  List.filter other_msg (intermediate_step st msg).2
  = List.filter other_msg st.2 ++ List.filter other_msg [msg].
Proof.
  destruct st as [active new_track]. unfold intermediate_step.
  destruct (is_note_start msg) eqn:Estart.
  - assert (Hm : List.filter other_msg [msg] = [])
      by (destruct msg; try discriminate; reflexivity).
    rewrite Hm, app_nil_r.
    repeat match goal with
           | |- context [if ?b then _ else _] => destruct b
           end; simpl; rewrite ?List.filter_app, ?Hm; simpl;
      now rewrite ?app_nil_r.
  - destruct (is_note_stop msg); simpl; now rewrite List.filter_app.
Qed.

Lemma intermediate_step_starts st msg :
  List.filter is_note_start (intermediate_step st msg).2
  = List.filter is_note_start st.2
  \/ loud_start msg = true /\
     List.filter is_note_start (intermediate_step st msg).2
     = List.filter is_note_start st.2 ++ [msg].
Proof.
  destruct st as [active new_track]. unfold intermediate_step, loud_start.
  destruct (is_note_start msg) eqn:Estart.
  - destruct (Z.ltb_spec (msg_velocity msg) min_velocity); [now left | ].
    assert (Hl : (min_velocity <=? msg_velocity msg) = true)
      by now apply Z.leb_le.
    repeat match goal with
           | |- context [if ?b then _ else _] => destruct b
           end; simpl; rewrite ?List.filter_app; simpl;
      rewrite ?Estart, ?app_nil_r; auto.
  - left. destruct (is_note_stop msg); simpl;
      rewrite List.filter_app; simpl; rewrite Estart; now rewrite app_nil_r.
Qed.

Lemma replay_size_le_max msgs : (size (replay msgs).1 <= (replay msgs).2)%nat.
Proof.
  induction msgs as [ | m msgs IH] using rev_ind.
  - unfold replay. cbn [fold_left fst snd]. rewrite size_empty. lia.
  - rewrite replay_snoc. unfold replay_max_step. cbn [fst snd]. lia.
Qed.

Lemma replay_max_mono msgs m : ((replay msgs).2 <= (replay (msgs ++ [m])).2)%nat.
Proof. rewrite replay_snoc. unfold replay_max_step. cbn [fst snd]. lia. Qed.

End IntermediateFacts.

Section IntermediateTracks.
Import Simplify.

Lemma intermediate_track_other track :
  List.filter other_msg (intermediate_track track) = List.filter other_msg track.
Proof.
  unfold intermediate_track.
  induction track as [ | msg track IH] using rev_ind; [reflexivity | ].
  rewrite intermediate_run_snoc, intermediate_step_other, IH.
  now rewrite List.filter_app.
Qed.

Lemma intermediate_track_starts track :
  List.filter is_note_start (intermediate_track track)
  `sublist_of` List.filter loud_start track.
Proof.
  unfold intermediate_track.
  induction track as [ | msg track IH] using rev_ind; [constructor | ].
  rewrite intermediate_run_snoc, List.filter_app.
  destruct (intermediate_step_starts (intermediate_run track) msg)
    as [-> | [Hl ->]].
  - now apply sublist_inserts_r.
  - simpl. rewrite Hl. now apply sublist_app.
Qed.

Lemma intermediate_run_simple track :
  Forall loud_enough track ->
  (max_active_track track <= 3)%nat ->
  intermediate_run track = ((replay track).1, track).
Proof.
  unfold max_active_track.
  induction track as [ | msg track IH] using rev_ind; intros Hl Hmax;
    [reflexivity | ].
  apply Forall_app in Hl. destruct Hl as [Hl Hm].
  pose proof (replay_max_mono track msg) as Hmono.
  rewrite intermediate_run_snoc, IH by (auto; lia).
  rewrite replay_snoc. unfold replay_max_step. cbn [fst snd].
  pose proof (replay_size_le_max track) as Hsize.
  unfold intermediate_step, replay_step.
  destruct (is_note_start msg) eqn:Estart.
  - inversion Hm as [ | ? ? Hloud _]; subst.
    specialize (Hloud Estart).
    destruct (Z.ltb_spec (msg_velocity msg) min_velocity); [lia | ].
    destruct (Z.leb_spec max_polyphony (Z.of_nat (size (replay track).1)))
      as [Hle | Hlt]; [unfold max_polyphony in Hle; lia | reflexivity].
  - now destruct (is_note_stop msg).
Qed.

End IntermediateTracks.

(** X12. Intermediate simplification is idempotent: applied to its own
    output it returns that output unchanged. *)
Theorem simplify_intermediate_idempotent (mid : MidiFile) :
  Simplify.simplify_intermediate (Simplify.simplify_intermediate mid)
  = Simplify.simplify_intermediate mid.
Proof.
  unfold Simplify.simplify_intermediate, Simplify._get_ticks_per_beat. simpl.
  f_equal. rewrite map_map. apply map_ext. intros track.
  unfold Simplify.intermediate_track.
  now rewrite intermediate_run_fixpoint.
Qed.

(** X13. Intermediate simplification keeps the resolution and the tracks;
    in every track the messages that are not note messages (tempo, end of
    track and so on) are kept as they are and in their order, and the
    note-starts of the output are note-starts of the input of velocity 40
    or more, in their order: no note-start is invented or moved. *)
Theorem simplify_intermediate_preserves (mid : MidiFile) :
  ticks_per_beat (Simplify.simplify_intermediate mid) = ticks_per_beat mid /\
  Forall2
    (fun track track' =>
       List.filter other_msg track' = List.filter other_msg track /\
       List.filter is_note_start track'
       `sublist_of` List.filter loud_start track)
    (tracks mid) (tracks (Simplify.simplify_intermediate mid)).
Proof.
  split; [reflexivity | ].
  unfold Simplify.simplify_intermediate. simpl.
  induction (tracks mid) as [ | track trks IH]; simpl; constructor;
    [ | exact IH].
  split; [apply intermediate_track_other | apply intermediate_track_starts].
Qed.

(** X14. A track that needs no simplification is returned as it is: when no
    note-start of the track is quieter than 40 and the track never has
    more than 3 notes active, the output track is the input track. *)
Theorem intermediate_track_unchanged (track : MidiTrack) :
  Forall loud_enough track ->
  (max_active_track track <= 3)%nat ->
  Simplify.intermediate_track track = track.
Proof.
  intros Hl Hmax. unfold Simplify.intermediate_track.
  now rewrite intermediate_run_simple.
Qed.

Lemma intermediate_track_unchanged_witness :
  Simplify.intermediate_track triad_track = triad_track.
Proof.
  apply intermediate_track_unchanged.
  - repeat constructor; unfold loud_enough, Simplify.min_velocity; simpl;
      intros; try discriminate; lia.
  - vm_compute. lia.
Defined.

(** ** More on the beginner level *)

Section BeginnerFacts.
Import Simplify.

Lemma to_abstime_app l l' now :
  to_abstime (l ++ l') now
  = to_abstime l now ++ to_abstime l' (now + track_ticks l).
Proof.
  revert now. induction l as [ | m l IH]; intros now; simpl.
  - now rewrite Z.add_0_r.
  - rewrite IH. do 3 f_equal. lia.
Qed.

Lemma track_ticks_app l l' : track_ticks (l ++ l') = track_ticks l + track_ticks l'.
Proof. induction l as [ | m l IH]; simpl; [reflexivity | rewrite IH; lia]. Qed.

Lemma onsets_app l l' :
  onsets (l ++ l')
  = onsets l
    ++ map fst (List.filter (fun e => is_note_start e.2)
                            (to_abstime l' (track_ticks l))).
Proof.
  unfold onsets. now rewrite to_abstime_app, List.filter_app, map_app.
Qed.

Lemma melody_step_idle d st q : has_start d q = false -> melody_step d st q = st.
Proof.
  unfold has_start, melody_step. intros H.
  now destruct (List.filter is_note_start (default [] (d !! q))).
Qed.

(** An iteration for a slot with a note-start puts its note-on at the
    grid time of the slot. *)
Lemma melody_step_onset d st q :
  has_start d q = true ->
  track_ticks (melody_track st) = last_time st ->
  track_ticks (melody_track (melody_step d st q)) = q /\
  last_time (melody_step d st q) = q /\
  onsets (melody_track (melody_step d st q))
  = onsets (melody_track st) ++ [q].
Proof.
  unfold has_start, melody_step. intros H Ht.
  destruct (max_by_note _) as [highest | ] eqn:Emax.
  - pose proof (max_by_note_In _ _ Emax) as Hin.
    apply filter_In in Hin. destruct Hin as [_ Hstart].
    assert (Hv : (0 <? Z.min (msg_velocity highest) 100) = true).
    { destruct highest; simpl in *; try discriminate.
      apply Z.ltb_lt in Hstart. apply Z.ltb_lt. lia. }
    destruct (current_note st) as [c | ]; simpl.
    + rewrite <- app_assoc, track_ticks_app, onsets_app. simpl.
      rewrite Hv, Ht. simpl.
      repeat split; try lia. do 2 f_equal. lia.
    + rewrite track_ticks_app, onsets_app. simpl.
      rewrite Hv, Ht. simpl.
      repeat split; try lia. do 2 f_equal. lia.
  - apply max_by_note_None in Emax. rewrite Emax in H. discriminate.
Qed.

Lemma melody_loop_onsets d keys st :
  track_ticks (melody_track st) = last_time st ->
  let st' := fold_left (melody_step d) keys st in
  track_ticks (melody_track st') = last_time st' /\
  onsets (melody_track st')
  = onsets (melody_track st) ++ List.filter (has_start d) keys.
Proof.
  revert st. induction keys as [ | q keys IH]; intros st Ht; simpl.
  - now rewrite app_nil_r.
  - destruct (has_start d q) eqn:Hq.
    + destruct (melody_step_onset d st q Hq Ht) as (H1 & H2 & H3).
      destruct (IH (melody_step d st q)) as [H4 H5]; [congruence | ].
      split; [exact H4 | ]. rewrite H5, H3, <- app_assoc. reflexivity.
    + rewrite (melody_step_idle d st q Hq). now apply IH.
Qed.

Lemma find_tempo_track_tempos track :
  find_tempo_track track = head (tempos track).
Proof.
  induction track as [ | m track IH]; [reflexivity | ].
  destruct m; simpl; auto.
Qed.

Lemma find_tempo_tracks_tempos trks :
  find_tempo_tracks trks = head (tempos (concat trks)).
Proof.
  induction trks as [ | track trks IH]; [reflexivity | ]. simpl.
  rewrite find_tempo_track_tempos, IH. unfold tempos.
  rewrite flat_map_app.
  now destruct (flat_map _ track).
Qed.

End BeginnerFacts.

Section BeginnerLoop.
Import Simplify.

Lemma melody_step_current d st q :
  has_start d q = true -> is_Some (current_note (melody_step d st q)).
Proof.
  unfold has_start, melody_step. intros H.
  destruct (max_by_note _) as [highest | ] eqn:Emax.
  - destruct (current_note st); simpl; eauto.
  - apply max_by_note_None in Emax. rewrite Emax in H. discriminate.
Qed.

(** After the loop, a note sounds exactly when a note-on was emitted, and
    the last grid time is the time of the last note-on. *)
Lemma melody_loop_current d keys st :
  track_ticks (melody_track st) = last_time st ->
  (current_note st = None <-> onsets (melody_track st) = []) ->
  (onsets (melody_track st) <> [] ->
   last_time st = List.last (onsets (melody_track st)) 0) ->
  let st' := fold_left (melody_step d) keys st in
  (current_note st' = None <-> onsets (melody_track st') = []) /\
  (onsets (melody_track st') <> [] ->
   last_time st' = List.last (onsets (melody_track st')) 0).
Proof.
  revert st. induction keys as [ | q keys IH]; intros st Ht Hc Hl; simpl;
    [auto | ].
  destruct (has_start d q) eqn:Hq.
  - destruct (melody_step_onset d st q Hq Ht) as (H1 & H2 & H3).
    apply IH; [congruence | | ].
    + rewrite H3. destruct (melody_step_current d st q Hq) as [c ->].
      split; [discriminate | ].
      intros E. now destruct (onsets (melody_track st)).
    + intros _. rewrite H3, H2, last_last. reflexivity.
  - rewrite (melody_step_idle d st q Hq). now apply IH.
Qed.

Lemma melody_loop_idle d keys st :
  List.filter (has_start d) keys = [] ->
  fold_left (melody_step d) keys st = st.
Proof.
  revert st. induction keys as [ | q keys IH]; intros st Hk; [reflexivity | ].
  simpl in *. destruct (has_start d q) eqn:Hq; [discriminate | ].
  rewrite (melody_step_idle d st q Hq). now apply IH.
Qed.

Lemma sorted_keys_multiple (mid : MidiFile) d q :
  group_events (ticks_per_beat mid) (sort_events (collect_events mid)) ∅
  = Ok d ->
  In q (sorted_keys d) -> exists k, q = k * ticks_per_beat mid.
Proof.
  intros Hd Hq. apply sorted_keys_In in Hq.
  destruct (group_events_keys _ _ _ _ _ Hd Hq) as [Hs | (e & He & Hslot)].
  - rewrite lookup_empty in Hs. now destruct Hs.
  - apply in_slot_true in Hslot. unfold _quantise_tick in Hslot.
    destruct (ticks_per_beat mid =? 0); [discriminate | ].
    injection Hslot as <-. eauto.
Qed.

End BeginnerLoop.

(** The note-ons of the melody track and the grid. *)
Lemma beginner_onsets_grid (mid out : MidiFile) :
  Simplify.simplify_beginner mid = Ok out ->
  exists tempo_track melody,
    tracks out = [tempo_track; melody] /\
    StronglySorted Z.lt (onsets melody) /\
    Forall (fun q => exists k, q = k * ticks_per_beat mid) (onsets melody) /\
    (forall q, In q (onsets melody) <->
               exists e, In e (timed_notes mid) /\
                         slot_start (ticks_per_beat mid) q e) /\
    track_ticks melody
    = match onsets melody with
      | [] => 0
      | _ :: _ => List.last (onsets melody) 0 + ticks_per_beat mid
      end.
Proof.
  unfold Simplify.simplify_beginner, Simplify._get_ticks_per_beat.
  destruct (Simplify.group_events _ _ _) as [d | ] eqn:Hd; simpl;
    [ | discriminate].
  intros [= <-]. simpl.
  set (st := fold_left (Simplify.melody_step d) (Simplify.sorted_keys d)
                       (Simplify.mkMelody None 0 [])).
  destruct (melody_loop_onsets d (Simplify.sorted_keys d)
              (Simplify.mkMelody None 0 []) eq_refl) as [Ht Ho].
  destruct (melody_loop_current d (Simplify.sorted_keys d)
              (Simplify.mkMelody None 0 []) eq_refl) as [Hc Hl];
    [simpl; tauto | simpl; congruence | ].
  fold st in Ht, Ho, Hc, Hl. simpl in Ho.
  set (melody := match Simplify.current_note st with
                 | Some c =>
                     Simplify.melody_track st
                     ++ [NoteOff 0 c 0 (ticks_per_beat mid)]
                 | None => Simplify.melody_track st
                 end ++ [EndOfTrack 0]).
  assert (Hon : onsets melody = onsets (Simplify.melody_track st)).
  { subst melody. destruct (Simplify.current_note st);
      rewrite ?onsets_app; simpl; now rewrite ?app_nil_r. }
  eexists _, melody. split; [reflexivity | ].
  rewrite Hon, Ho.
  split; [apply StronglySorted_filter_lt, sorted_keys_sorted | ].
  split.
  { apply List.Forall_forall. intros q Hq. apply filter_In in Hq.
    destruct Hq as [Hq _]. now apply (sorted_keys_multiple mid d). }
  split.
  { intros q. rewrite filter_In. now apply has_start_slot. }
  rewrite <- Ho. subst melody.
  destruct (Simplify.current_note st) as [c | ] eqn:Ec.
  - rewrite !track_ticks_app. simpl.
    destruct (onsets (Simplify.melody_track st)) as [ | o os] eqn:Eo.
    + destruct Hc as [_ Hc]. specialize (Hc eq_refl). congruence.
    + rewrite <- Hl by discriminate. lia.
  - rewrite track_ticks_app. simpl.
    destruct Hc as [Hc _]. rewrite (Hc eq_refl).
    assert (Hf : List.filter (has_start d) (Simplify.sorted_keys d) = [])
      by (rewrite <- Ho; now apply Hc).
    subst st. rewrite (melody_loop_idle d _ _ Hf). reflexivity.
Qed.

(** X15. In the melody track of beginner simplification the note-ons lie
    on the quarter-note grid: their absolute times are multiples of the
    resolution, strictly increasing, and are exactly the grid slots into
    which a note-start of the input falls.  The track ends one grid step
    after its last note-on (and is empty of time when it has none). *)
Theorem simplify_beginner_onsets (mid out : MidiFile) :
  Simplify.simplify_beginner mid = Ok out ->
  exists tempo_track melody,
    tracks out = [tempo_track; melody] /\
    StronglySorted Z.lt (onsets melody) /\
    Forall (fun q => exists k, q = k * ticks_per_beat mid) (onsets melody) /\
    (forall q, In q (onsets melody) <->
               exists e, In e (timed_notes mid) /\
                         slot_start (ticks_per_beat mid) q e) /\
    track_ticks melody
    = match onsets melody with
      | [] => 0
      | _ :: _ => List.last (onsets melody) 0 + ticks_per_beat mid
      end.
Proof. apply beginner_onsets_grid. Qed.

Lemma simplify_beginner_onsets_witness :
  exists tempo_track melody,
    tracks test_chord_beginner = [tempo_track; melody] /\
    StronglySorted Z.lt (onsets melody) /\
    Forall (fun q => exists k, q = k * ticks_per_beat test_chord)
           (onsets melody) /\
    (forall q, In q (onsets melody) <->
               exists e, In e (timed_notes test_chord) /\
                         slot_start (ticks_per_beat test_chord) q e) /\
    track_ticks melody
    = match onsets melody with
      | [] => 0
      | _ :: _ => List.last (onsets melody) 0 + ticks_per_beat test_chord
      end.
Proof.
  apply (simplify_beginner_onsets test_chord test_chord_beginner).
  vm_compute. reflexivity.
Defined.

(** X16. The tempo track of beginner simplification holds one tempo: the
    first tempo of the input in the order of its tracks, or 500000
    microseconds per beat (120 BPM) when the input has none, multiplied by
    1.25 and truncated.  For a tempo that is not negative, the new tempo is
    never smaller than the old one. *)
Theorem simplify_beginner_tempo (mid out : MidiFile) :
  Simplify.simplify_beginner mid = Ok out ->
  let original := default 500000 (head (tempos (concat (tracks mid)))) in
  let slower := Z.quot (original * 5) 4 in
  head (tracks out) = Some [SetTempo slower 0; EndOfTrack 0] /\
  (0 <= original ->
   original <= slower /\ 4 * slower <= 5 * original < 4 * slower + 4).
Proof.
  unfold Simplify.simplify_beginner.
  destruct (Simplify.group_events _ _ _) as [d | ]; simpl; [ | discriminate].
  intros [= <-]. simpl.
  unfold Simplify._find_tempo. rewrite find_tempo_tracks_tempos.
  split; [reflexivity | ].
  intros H. rewrite Z.quot_div_nonneg by lia.
  pose proof (Z.div_mod (default 500000 (head (tempos (concat (tracks mid))))
                         * 5) 4 ltac:(lia)).
  pose proof (Z.mod_pos_bound
                (default 500000 (head (tempos (concat (tracks mid)))) * 5) 4
                ltac:(lia)).
  lia.
Qed.

Lemma simplify_beginner_tempo_witness :
  head (tracks test_chord_beginner) = Some [SetTempo 625000 0; EndOfTrack 0] /\
  500000 <= 625000 /\ 4 * 625000 <= 5 * 500000 < 4 * 625000 + 4.
Proof.
  destruct (simplify_beginner_tempo test_chord test_chord_beginner) as [H1 H2];
    [vm_compute; reflexivity | ].
  split; [exact H1 | ]. apply H2. vm_compute. discriminate.
Defined.

Section BeginnerEmpty.
Import Simplify.

Lemma timed_notes_note_starts (mid : MidiFile) e :
  In e (timed_notes mid) -> is_note_start e.2 = true ->
  In e.2 (note_starts mid).
Proof.
  unfold timed_notes, note_starts. intros Hin Hs.
  apply filter_In in Hin. destruct Hin as [Hin _].
  apply in_concat in Hin. destruct Hin as (l & Hl & Hin).
  apply in_map_iff in Hl. destruct Hl as (track & <- & Ht).
  apply in_concat. exists (List.filter is_note_start track).
  split; [now apply in_map | ].
  apply filter_In. split; [ | exact Hs].
  apply (to_abstime_In track 0). exists e.1. now destruct e.
Qed.

End BeginnerEmpty.

(** X17. For a file without a note-start (empty, or with tempo and
    note-stops only), beginner simplification returns a melody track that
    holds the end-of-track marker and nothing else. *)
Theorem simplify_beginner_no_notes (mid out : MidiFile) :
  note_starts mid = [] ->
  Simplify.simplify_beginner mid = Ok out ->
  exists tempo_track, tracks out = [tempo_track; [EndOfTrack 0]].
Proof.
  intros Hn. unfold Simplify.simplify_beginner, Simplify._get_ticks_per_beat.
  destruct (Simplify.group_events _ _ _) as [d | ] eqn:Hd; simpl;
    [ | discriminate].
  intros [= <-]. simpl.
  assert (Hf : List.filter (has_start d) (Simplify.sorted_keys d) = []).
  { destruct (List.filter _ _) as [ | q l] eqn:E; [reflexivity | ].
    exfalso.
    assert (Hq : In q (List.filter (has_start d) (Simplify.sorted_keys d)))
      by (rewrite E; now left).
    apply filter_In in Hq.
    apply (has_start_slot mid d q Hd) in Hq.
    destruct Hq as (e & He & Hs & _).
    pose proof (timed_notes_note_starts mid e He Hs) as Hin.
    rewrite Hn in Hin. destruct Hin. }
  rewrite (melody_loop_idle d _ _ Hf). simpl. eauto.
Qed.

Lemma simplify_beginner_no_notes_witness :
  note_starts stops_only = [] /\
  Simplify.simplify_beginner stops_only = Ok stops_only_beginner /\
  exists tempo_track,
    tracks stops_only_beginner = [tempo_track; [EndOfTrack 0]].
Proof.
  assert (H : Simplify.simplify_beginner stops_only = Ok stops_only_beginner)
    by (vm_compute; reflexivity).
  split; [reflexivity | ]. split; [exact H | ].
  exact (simplify_beginner_no_notes stops_only stops_only_beginner eq_refl H).
Defined.

(** ** The driver *)

Section DriverFacts.
Import Driver.

Lemma append_inj_l (s a b : string) : s +:+ a = s +:+ b -> a = b.
Proof. induction s as [ | c s IH]; simpl; [auto | ]. intros [= H]. auto. Qed.

Lemma output_names_distinct (stem : string) :
  output_name stem "beginner" <> output_name stem "intermediate" /\
  output_name stem "beginner" <> output_name stem "advanced" /\
  output_name stem "intermediate" <> output_name stem "advanced".
Proof.
  unfold output_name.
  repeat split; intros H; apply append_inj_l in H; discriminate H.
Qed.

(** The entries of the result, level by level. *)
Lemma simplify_lookup (save : MidiFile -> string -> bool)
    (mid : MidiFile) (stem : string) :
  let results := simplify save mid stem in
  results !! BEGINNER
  = match Simplify.simplify_beginner mid with
    | Ok out =>
        if save out (output_name stem "beginner")
        then Some (output_name stem "beginner") else None
    | ZeroDivisionError => None
    end /\
  results !! INTERMEDIATE
  = (if save (Simplify.simplify_intermediate mid)
             (output_name stem "intermediate")
     then Some (output_name stem "intermediate") else None) /\
  results !! ADVANCED
  = match Simplify.simplify_advanced mid with
    | Ok out =>
        if save out (output_name stem "advanced")
        then Some (output_name stem "advanced") else None
    | ZeroDivisionError => None
    end /\
  (forall level,
     level <> BEGINNER -> level <> INTERMEDIATE -> level <> ADVANCED ->
     results !! level = None).
Proof.
  unfold simplify, levels, BEGINNER, INTERMEDIATE, ADVANCED.
  cbn [fold_left level_step].
  destruct (Simplify.simplify_beginner mid) as [b | ];
    [destruct (save b _) | ];
    (destruct (save (Simplify.simplify_intermediate mid) _));
    (destruct (Simplify.simplify_advanced mid) as [a | ];
     [destruct (save a _) | ]);
    (split; [ | split; [ | split]]);
    try (intros level H1 H2 H3); simplify_map_eq; reflexivity.
Qed.

End DriverFacts.

(** X18. The driver treats the levels independently: a level is in the
    result exactly when its own transform returned a file and that file was
    saved, whatever happened to the other levels; its entry is the file
    name made of the stem and the name of the level, and no other key is
    in the result. *)
Theorem simplify_results (save : MidiFile -> string -> bool)
    (mid : MidiFile) (stem : string) :
  let results := Driver.simplify save mid stem in
  (forall path,
     results !! Driver.BEGINNER = Some path <->
     path = Driver.output_name stem "beginner" /\
     exists out, Simplify.simplify_beginner mid = Ok out /\
                 save out path = true) /\
  (forall path,
     results !! Driver.INTERMEDIATE = Some path <->
     path = Driver.output_name stem "intermediate" /\
     save (Simplify.simplify_intermediate mid) path = true) /\
  (forall path,
     results !! Driver.ADVANCED = Some path <->
     path = Driver.output_name stem "advanced" /\
     exists out, Simplify.simplify_advanced mid = Ok out /\
                 save out path = true) /\
  (forall level,
     level <> Driver.BEGINNER -> level <> Driver.INTERMEDIATE ->
     level <> Driver.ADVANCED -> results !! level = None).
Proof.
  destruct (simplify_lookup save mid stem) as (H1 & H2 & H3 & H4).
  cbn zeta. rewrite H1, H2, H3.
  split; [ | split; [ | split; [ | exact H4]]].
  - intros path.
    destruct (Simplify.simplify_beginner mid) as [b | ];
      [destruct (save b _) eqn:S | ]; split;
      try discriminate.
    + intros [= <-]. eauto.
    + intros [-> (out & [= <-] & Hs)]. congruence.
    + intros [-> (out & [= <-] & Hs)]. congruence.
    + intros [_ (out & Ho & _)]. discriminate.
  - intros path.
    destruct (save (Simplify.simplify_intermediate mid) _) eqn:S; split;
      try discriminate.
    + intros [= <-]. eauto.
    + intros [-> Hs]. congruence.
    + intros [-> Hs]. congruence.
  - intros path.
    destruct (Simplify.simplify_advanced mid) as [a | ];
      [destruct (save a _) eqn:S | ]; split;
      try discriminate.
    + intros [= <-]. eauto.
    + intros [-> (out & [= <-] & Hs)]. congruence.
    + intros [-> (out & [= <-] & Hs)]. congruence.
    + intros [_ (out & Ho & _)]. discriminate.
Qed.





(** ** File names *)

Section SanitiseFacts.
Import Fetch.
Variables is_word is_space : Z -> bool.

Lemma drop_unsafe_chars title c :
  In c (drop_unsafe is_word is_space title) ->
  is_word c = true \/ is_space c = true \/ c = hyphen.
Proof.
  unfold drop_unsafe. intros H. apply filter_In in H. destruct H as [_ H].
  apply orb_true_iff in H. destruct H as [H | H].
  - apply orb_true_iff in H. tauto.
  - apply Z.eqb_eq in H. tauto.
Qed.

Lemma collapse_spaces_chars in_run clean c :
  In c (collapse_spaces is_space in_run clean) ->
  c = underscore \/ is_space c = false /\ In c clean.
Proof.
  revert in_run. induction clean as [ | x clean IH]; intros in_run; simpl;
    [tauto | ].
  destruct (is_space x) eqn:Ex.
  - destruct in_run; simpl.
    + intros H. destruct (IH _ H) as [-> | [Hs Hin]]; auto.
    + intros [<- | H]; [auto | ].
      destruct (IH _ H) as [-> | [Hs Hin]]; auto.
  - simpl. intros [<- | H]; [auto | ].
    destruct (IH _ H) as [-> | [Hs Hin]]; auto.
Qed.

Lemma lstrip_suffix s : exists p, s = p ++ lstrip s.
Proof.
  induction s as [ | c s [p IH]]; simpl; [now exists [] | ].
  destruct (c =? underscore).
  - exists (c :: p). simpl. now rewrite <- IH.
  - now exists [].
Qed.

Lemma lstrip_In s c : In c (lstrip s) -> In c s.
Proof.
  destruct (lstrip_suffix s) as [p E]. intros H. rewrite E.
  apply in_app_iff. now right.
Qed.

Lemma lstrip_head s : head (lstrip s) <> Some underscore.
Proof.
  induction s as [ | c s IH]; simpl; [discriminate | ].
  destruct (Z.eqb_spec c underscore); [exact IH | ].
  simpl. congruence.
Qed.

Lemma lstrip_id s : head s <> Some underscore -> lstrip s = s.
Proof.
  destruct s as [ | c s]; simpl; [reflexivity | ].
  destruct (Z.eqb_spec c underscore); [congruence | reflexivity].
Qed.

(** Stripping on the right leaves a prefix. *)
Lemma strip_prefix s : exists q, lstrip s = strip s ++ q.
Proof.
  unfold strip. destruct (lstrip_suffix (rev (lstrip s))) as [p E].
  exists (rev p).
  rewrite <- (rev_involutive (lstrip s)) at 1. rewrite E at 1.
  now rewrite rev_app_distr.
Qed.

Lemma strip_In s c : In c (strip s) -> In c s.
Proof.
  destruct (strip_prefix s) as [q E]. intros H.
  apply lstrip_In. rewrite E. apply in_app_iff. now left.
Qed.

Lemma strip_head s : head (strip s) <> Some underscore.
Proof.
  destruct (strip_prefix s) as [q E].
  pose proof (lstrip_head s) as H. rewrite E in H.
  destruct (strip s); simpl in *; [discriminate | exact H].
Qed.

Lemma firstn_In_list {A} n (l : list A) c : In c (firstn n l) -> In c l.
Proof.
  intros H. rewrite <- (firstn_skipn n l). apply in_app_iff. now left.
Qed.

Lemma head_firstn {A} n (l : list A) : head (firstn (S n) l) = head l.
Proof. now destruct l. Qed.

Lemma collapse_spaces_id clean in_run :
  Forall (fun c => is_space c = false) clean ->
  collapse_spaces is_space in_run clean = clean.
Proof.
  intros H. revert in_run. induction H as [ | c clean Hc _ IH]; intros in_run;
    simpl; [reflexivity | ].
  now rewrite Hc, IH.
Qed.

Lemma head_rev_last (s : list Z) : head (rev s) = last s.
Proof.
  induction s as [ | c s _] using rev_ind; [reflexivity | ].
  now rewrite rev_app_distr, last_snoc.
Qed.

(** A run of white space and nothing else collapses to nothing or to one
    underscore. *)
Lemma collapse_spaces_blank clean in_run :
  Forall (fun c => is_space c = true) clean ->
  collapse_spaces is_space in_run clean = []
  \/ collapse_spaces is_space in_run clean = [underscore].
Proof.
  intros H. revert in_run.
  induction H as [ | c clean Hc Hcl IH]; intros in_run; simpl; [now left | ].
  rewrite Hc. destruct in_run; [apply IH | ].
  right. f_equal.
  assert (G : forall l, Forall (fun c => is_space c = true) l ->
                        collapse_spaces is_space true l = []).
  { clear. induction 1 as [ | c l Hc _ IH]; simpl; [reflexivity | ].
    now rewrite Hc. }
  apply G. assumption.
Qed.

End SanitiseFacts.

(** X21. A sanitised file name has at most 80 characters, does not begin
    with an underscore, and holds nothing but underscores and characters of
    the title that are not white space and are word characters or hyphens:
    no white space and no punctuation is left. *)
Theorem sanitise_filename_safe (is_word is_space : Z -> bool) (title : list Z) :
  let name := Fetch.sanitise_filename is_word is_space title in
  (length name <= 80)%nat /\
  head name <> Some Fetch.underscore /\
  Forall (safe_char is_word is_space) name /\
  Forall (fun c => c = Fetch.underscore \/ In c title) name.
Proof.
  unfold Fetch.sanitise_filename. cbn zeta.
  split; [apply firstn_le_length | ].
  split; [rewrite head_firstn; apply strip_head | ].
  assert (H : forall c,
             In c (firstn 80 (Fetch.strip
                     (Fetch.collapse_spaces is_space false
                        (Fetch.drop_unsafe is_word is_space title)))) ->
             safe_char is_word is_space c /\
             (c = Fetch.underscore \/ In c title)).
  { intros c Hc. apply firstn_In_list, strip_In in Hc.
    apply (collapse_spaces_chars is_space) in Hc.
    destruct Hc as [-> | [Hs Hin]]; [split; now left | ].
    pose proof (drop_unsafe_chars _ _ _ _ Hin) as Hk.
    apply filter_In in Hin. destruct Hin as [Hin _].
    split; [ | now right].
    right. split; [exact Hs | ].
    destruct Hk as [Hk | [Hk | Hk]]; [now left | congruence | now right]. }
  split; apply List.Forall_forall; intros c Hc; now apply H.
Qed.

(** X22. A title that is already a safe name is left as it is: when its
    characters are word characters or hyphens and none is white space, it
    neither begins nor ends with an underscore and has at most 80
    characters, the sanitised name is the title. *)
Theorem sanitise_filename_unchanged
    (is_word is_space : Z -> bool) (title : list Z) :
  Forall (fun c => is_space c = false /\
                   (is_word c = true \/ c = Fetch.hyphen)) title ->
  head title <> Some Fetch.underscore ->
  last title <> Some Fetch.underscore ->
  (length title <= 80)%nat ->
  Fetch.sanitise_filename is_word is_space title = title.
Proof.
  intros Hall Hh Hl Hlen. unfold Fetch.sanitise_filename. cbn zeta.
  assert (E1 : Fetch.drop_unsafe is_word is_space title = title).
  { unfold Fetch.drop_unsafe. clear Hh Hl Hlen.
    induction Hall as [ | c l [Hs Hc] _ IH]; simpl; [reflexivity | ].
    rewrite IH. destruct Hc as [-> | ->]; simpl; [reflexivity | ].
    now rewrite orb_true_r. }
  rewrite E1, collapse_spaces_id
    by (eapply Forall_impl; [exact Hall | ]; simpl; tauto).
  unfold Fetch.strip. rewrite (lstrip_id title Hh).
  rewrite lstrip_id by (now rewrite head_rev_last).
  rewrite rev_involutive. now apply firstn_all2.
Qed.

Lemma sanitise_filename_unchanged_witness :
  Fetch.sanitise_filename ascii_word ascii_space name_hey_jude = name_hey_jude.
Proof.
  apply sanitise_filename_unchanged.
  - repeat constructor; vm_compute; auto.
  - discriminate.
  - discriminate.
  - simpl. lia.
Defined.

(** X23. A title without a word character and without a hyphen (white
    space and punctuation only, or empty) gives the empty name. *)
Theorem sanitise_filename_empty
    (is_word is_space : Z -> bool) (title : list Z) :
  Forall (fun c => is_word c = false /\ c <> Fetch.hyphen) title ->
  Fetch.sanitise_filename is_word is_space title = [].
Proof.
  intros Hall. unfold Fetch.sanitise_filename. cbn zeta.
  assert (Hsp : Forall (fun c => is_space c = true)
                       (Fetch.drop_unsafe is_word is_space title)).
  { apply List.Forall_forall. intros c Hc.
    pose proof (drop_unsafe_chars _ _ _ _ Hc) as Hk.
    apply filter_In in Hc. destruct Hc as [Hc _].
    rewrite List.Forall_forall in Hall. destruct (Hall c Hc) as [Hw Hy].
    destruct Hk as [? | [? | ?]]; [congruence | assumption | contradiction]. }
  destruct (collapse_spaces_blank is_space _ false Hsp) as [-> | ->];
    reflexivity.
Qed.

Lemma sanitise_filename_empty_witness :
  Fetch.sanitise_filename ascii_word ascii_space title_symbols = [].
Proof.
  apply sanitise_filename_empty.
  repeat constructor; vm_compute; congruence.
Defined.

(** ** Analysing a beginner arrangement *)

Section BeginnerAnalysed.

Lemma note_events_of_track_abstime track abs_time note_events :
  note_events_of_track track abs_time note_events
  = note_events
    ++ map (fun e => (e.1, msg_note e.2))
           (List.filter (fun e => is_note_start e.2)
                        (to_abstime track abs_time)).
Proof.
  revert abs_time note_events.
  induction track as [ | msg track IH]; intros t acc; simpl.
  - now rewrite app_nil_r.
  - destruct (is_note_start msg); rewrite IH; [ | reflexivity].
    now rewrite <- app_assoc.
Qed.

(** Distinct multiples of the resolution fall into distinct buckets. *)
Lemma bucket_lt (tpb k1 k2 : Z) :
  8 <= tpb -> k1 * tpb < k2 * tpb ->
  (k1 * tpb) / (tpb / 8) < (k2 * tpb) / (tpb / 8).
Proof.
  intros Htpb Hlt.
  assert (Hw : 0 < tpb / 8) by (apply Z.div_str_pos; lia).
  pose proof (Z.mul_div_le tpb 8 ltac:(lia)) as Hm.
  assert (Hk : k1 + 1 <= k2) by nia.
  assert (Hstep : k1 * tpb + 1 * (tpb / 8) <= k2 * tpb) by nia.
  apply (Z.div_le_mono _ _ (tpb / 8) Hw) in Hstep.
  rewrite Z.div_add in Hstep by lia. lia.
Qed.

(** Events in pairwise distinct buckets are alone in their bucket. *)
Lemma fill_buckets_single window note_events buckets b :
  fill_buckets window note_events buckets = Ok b ->
  NoDup (map (fun e : Z * Z => e.1 / window) note_events) ->
  (forall e, In e note_events -> buckets !! (e.1 / window) = None) ->
  (forall k notes, buckets !! k = Some notes -> length notes = 1%nat) ->
  forall k notes, b !! k = Some notes -> length notes = 1%nat.
Proof.
  revert buckets.
  induction note_events as [ | [t note] rest IH]; intros buckets; simpl.
  - now intros [= <-].
  - unfold floor_div. destruct (window =? 0); simpl; [discriminate | ].
    intros H Hnd Hfree Hone.
    inversion Hnd as [ | ? ? Hnotin Hnd']; subst.
    apply (IH _ H Hnd').
    + intros e He. rewrite lookup_insert_ne; [apply Hfree; now right | ].
      intros E. apply Hnotin. rewrite E. apply list_elem_of_In.
      now apply (in_map (fun e : Z * Z => e.1 / window)).
    + intros k notes. destruct (Z.eq_dec (t / window) k) as [<- | Hne].
      * rewrite lookup_insert_eq.
        pose proof (Hfree (t, note) (or_introl eq_refl)) as Hn.
        simpl in Hn. rewrite Hn. now intros [= <-].
      * rewrite lookup_insert_ne by exact Hne. apply Hone.
Qed.

Lemma span_loop_single (values : list (list Z)) :
  Forall (fun notes => length notes = 1%nat) values -> span_loop values = 0.
Proof.
  unfold span_loop. intros H.
  assert (G : forall acc,
             fold_left
               (fun max_span notes =>
                  if (1 <? Z.of_nat (length notes))
                  then let span := list_max notes - list_min notes in
                       Z.max max_span span
                  else max_span) values acc = acc).
  { induction H as [ | notes values Hn _ IH]; intros acc; simpl;
      [reflexivity | ].
    rewrite Hn. simpl. apply IH. }
  apply G.
Qed.

Lemma bucket_total_single (buckets : gmap Z (list Z)) :
  Forall (fun notes => length notes = 1%nat) (bucket_values buckets) ->
  bucket_total buckets = Z.of_nat (length (bucket_values buckets)).
Proof.
  unfold bucket_total. generalize (bucket_values buckets).
  induction 1 as [ | notes values Hn _ IH]; [reflexivity | ].
  simpl map. rewrite sum_list_cons, IH, Hn. simpl length. lia.
Qed.

Lemma strictly_sorted_buckets (tpb : Z) (times : list Z) :
  8 <= tpb ->
  StronglySorted Z.lt times ->
  Forall (fun q => exists k, q = k * tpb) times ->
  NoDup (map (fun t => t / (tpb / 8)) times).
Proof.
  intros Htpb Hs. induction Hs as [ | t times Hs IH Hlt]; intros Hm; simpl;
    constructor.
  - inversion Hm as [ | ? ? [k ->] Hm']; subst.
    intros Hin. apply list_elem_of_In, in_map_iff in Hin.
    destruct Hin as (t' & E & Hin).
    rewrite List.Forall_forall in Hlt, Hm'.
    specialize (Hlt _ Hin). destruct (Hm' _ Hin) as [k' ->].
    pose proof (bucket_lt tpb k k' Htpb Hlt). lia.
  - apply IH. now inversion Hm.
Qed.

End BeginnerAnalysed.

Lemma beginner_shape (mid out : MidiFile) :
  Simplify.simplify_beginner mid = Ok out ->
  exists slower melody,
    out = mkMidiFile (ticks_per_beat mid)
                     [[SetTempo slower 0; EndOfTrack 0]; melody].
Proof.
  unfold Simplify.simplify_beginner, Simplify._get_ticks_per_beat.
  destruct (Simplify.group_events _ _ _) as [d | ]; simpl; [ | discriminate].
  intros [= <-]. eauto.
Qed.

(** X24. A beginner arrangement is analysed as a single line: for an input
    with at least 8 ticks per beat, the report of [analyse] on the output
    of beginner simplification (on its regular path) has an average
    polyphony of 1 and a maximal hand span of 0, since the note-ons of the
    melody are a beat or more apart and the bucket window is an eighth of
    a beat. *)
Theorem analyse_beginner (mid out : MidiFile) (duration : Q)
    (r : DifficultyReport) :
  Simplify.simplify_beginner mid = Ok out ->
  8 <= ticks_per_beat mid ->
  analyse out duration = Ok r ->
  note_starts out <> [] ->
  ~ (duration == 0)%Q ->
  (avg_polyphony r == 1)%Q /\ max_hand_span r = 0.
Proof.
  intros Hout Htpb Hr Hn Hd.
  destruct (beginner_shape mid out Hout) as (slower & melody & Eout).
  destruct (beginner_onsets_grid mid out Hout)
    as (tempo' & melody' & Et & Hsorted & Hmult & _ & _).
  rewrite Eout in Et. simpl in Et. injection Et as _ <-.
  destruct (analyse_regular out duration r Hr Hn Hd)
    as (buckets & Hb & _ & _ & Hs & Ha).
  assert (Hev : map fst (collect_note_events out) = onsets melody).
  { rewrite Eout. unfold collect_note_events. simpl.
    rewrite note_events_of_track_abstime. simpl.
    unfold onsets. now rewrite map_map. }
  assert (Htpb' : ticks_per_beat out = ticks_per_beat mid)
    by now rewrite Eout.
  rewrite Htpb' in Hb.
  assert (Hone : Forall (fun notes => length notes = 1%nat)
                        (bucket_values buckets)).
  { apply List.Forall_forall. intros notes Hin.
    apply bucket_values_In in Hin. destruct Hin as [k Hk].
    apply (fill_buckets_single _ _ _ _ Hb) with (k := k); [ | | | exact Hk].
    - rewrite <- (map_map fst (fun t => t / (ticks_per_beat mid / 8))), Hev.
      now apply strictly_sorted_buckets.
    - intros e _. apply lookup_empty.
    - intros k' notes'. rewrite lookup_empty. discriminate. }
  split; [ | rewrite Hs; now apply span_loop_single].
  pose proof (fill_buckets_total _ _ _ _ Hb) as Htot.
  rewrite bucket_total_empty, Z.add_0_l in Htot.
  pose proof (bucket_total_single buckets Hone) as Hcount.
  assert (Hpos : 0 < Z.of_nat (length (collect_note_events out))).
  { destruct (collect_note_events out) eqn:E; [ | simpl; lia].
    apply collect_note_events_nil in E. contradiction. }
  rewrite Ha.
  destruct (bucket_values buckets) as [ | v vs] eqn:Ev;
    [simpl in Hcount; lia | ].
  cbn [map]. rewrite Hcount.
  apply (true_div_exact _ _ 1); lia.
Qed.

Lemma analyse_beginner_witness :
  exists r,
    analyse test_chord_beginner (1 # 2) = Ok r /\
    (avg_polyphony r == 1)%Q /\ max_hand_span r = 0.
Proof.
  assert (H : exists r, analyse test_chord_beginner (1 # 2) = Ok r)
    by (eexists; vm_compute; reflexivity).
  destruct H as [r H]. exists r. split; [exact H | ].
  apply (analyse_beginner test_chord test_chord_beginner (1 # 2) r).
  - vm_compute. reflexivity.
  - simpl. lia.
  - exact H.
  - simpl. discriminate.
  - discriminate.
Defined.

(** ** Note rate and failure of [analyse] *)

Lemma py_maxQ_floor (a b : Q) : (b <= py_maxQ a b)%Q /\ (a <= py_maxQ a b)%Q.
Proof.
  unfold py_maxQ. destruct (Qltb a b) eqn:E.
  - apply Qltb_lt in E. split; lra.
  - apply Qltb_ge in E. split; lra.
Qed.

Lemma analyse_regular_nps (mid : MidiFile) (duration : Q)
    (r : DifficultyReport) :
  analyse mid duration = Ok r ->
  note_starts mid <> [] ->
  ~ (duration == 0)%Q ->
  0 < total_notes r /\
  notes_per_second r
  = (inject_Z (total_notes r) / py_maxQ duration (1 # 10))%Q.
Proof.
  intros H Hn Hd. unfold analyse in H.
  apply Qeq_bool_false in Hd. rewrite Hd, orb_false_r in H.
  destruct (collect_note_events mid) as [ | e l] eqn:E.
  { apply collect_note_events_nil in E. contradiction. }
  destruct (fill_buckets _ _ _) as [buckets | ]; simpl in H; [ | discriminate].
  injection H as <-. simpl. split; [lia | reflexivity].
Qed.



(** X26. [analyse] fails, with a division by zero, exactly when the file
    has a note-start, its duration is not 0 and its resolution is between
    0 and 7 ticks per beat (the window [ticks_per_beat // 8] is 0); in
    every other case it returns a report. *)
Theorem analyse_error (mid : MidiFile) (duration : Q) :
  analyse mid duration = ZeroDivisionError
  <-> note_starts mid <> [] /\ ~ (duration == 0)%Q /\
      0 <= ticks_per_beat mid <= 7.
Proof.
  unfold analyse.
  destruct (collect_note_events mid) as [ | e l] eqn:E.
  { apply collect_note_events_nil in E. simpl.
    split; [discriminate | ]. intros [Hn _]. contradiction. }
  assert (Hn : note_starts mid <> []).
  { intros Hn. apply collect_note_events_nil in Hn. congruence. }
  cbn [orb]. destruct (Qeq_bool duration 0) eqn:Ed.
  { split; [discriminate | ]. intros (_ & Hd & _).
    apply Qeq_bool_iff in Ed. contradiction. }
  apply Qeq_bool_false in Ed.
  destruct (Z.eq_dec (ticks_per_beat mid / 8) 0) as [Ew | Ew].
  - rewrite Ew, fill_buckets_zero_window by discriminate.
    split; [intros _ | reflexivity].
    apply Z.div_small_iff in Ew; [ | lia]. repeat split; auto; lia.
  - destruct (fill_buckets_ok _ (e :: l) ∅ Ew) as [b ->]. simpl.
    split; [discriminate | ]. intros (_ & _ & Ht).
    exfalso. apply Ew. apply Z.div_small. lia.
Qed.

(** ** Timing and note count of the intermediate level *)

Section IntermediateTiming.
Import Simplify.

Lemma intermediate_step_ticks st msg :
  (track_ticks (intermediate_step st msg).2 = track_ticks st.2 /\
   is_note_start msg = true)
  \/ track_ticks (intermediate_step st msg).2 = track_ticks st.2 + msg_time msg.
Proof.
  destruct st as [active new_track]. unfold intermediate_step.
  destruct (is_note_start msg) eqn:Estart.
  - repeat match goal with
           | |- context [if ?b then _ else _] => destruct b
           end; simpl; rewrite ?track_ticks_app; simpl; auto; right; lia.
  - right. destruct (is_note_stop msg); simpl; rewrite track_ticks_app;
      simpl; lia.
Qed.

Lemma track_ticks_nonneg track :
  Forall (fun m => 0 <= msg_time m) track -> 0 <= track_ticks track.
Proof. induction 1; simpl; lia. Qed.

Lemma intermediate_track_ticks_bounds track :
  Forall (fun m => 0 <= msg_time m) track ->
  track_ticks track - track_ticks (List.filter is_note_start track)
  <= track_ticks (intermediate_track track) <= track_ticks track.
Proof.
  unfold intermediate_track.
  induction track as [ | msg track IH] using rev_ind; intros H;
    [simpl; lia | ].
  apply Forall_app in H. destruct H as [Ht Hm].
  inversion Hm as [ | ? ? Hmsg _]; subst.
  specialize (IH Ht).
  rewrite intermediate_run_snoc, List.filter_app, !track_ticks_app.
  destruct (intermediate_step_ticks (intermediate_run track) msg)
    as [[-> Hs] | ->]; simpl.
  - rewrite Hs. simpl. lia.
  - destruct (is_note_start msg); simpl; lia.
Qed.

Lemma note_starts_intermediate (mid : MidiFile) :
  note_starts (simplify_intermediate mid) `sublist_of` note_starts mid.
Proof.
  unfold note_starts, simplify_intermediate. simpl.
  induction (tracks mid) as [ | track trks IH]; simpl; [constructor | ].
  apply sublist_app; [ | exact IH].
  etransitivity; [apply intermediate_track_starts | ].
  unfold loud_start. clear.
  induction track as [ | m track IH]; simpl; [constructor | ].
  destruct (is_note_start m); simpl; [ | exact IH].
  destruct (min_velocity <=? msg_velocity m);
    [now apply sublist_skip | now apply sublist_cons].
Qed.

End IntermediateTiming.

(** X27. The intermediate level does not keep the delta time of a note-on
    that it drops, so a track can only get shorter: for a track without
    negative delta times, the output has no negative delta time, lasts at
    most as long as the input, and loses at most the delta times of the
    note-starts of the input. *)
Theorem intermediate_track_ticks (track : MidiTrack) :
  Forall (fun m => 0 <= msg_time m) track ->
  Forall (fun m => 0 <= msg_time m) (Simplify.intermediate_track track) /\
  track_ticks track - track_ticks (List.filter is_note_start track)
  <= track_ticks (Simplify.intermediate_track track) <= track_ticks track.
Proof.
  intros H. split.
  - now apply intermediate_track_times.
  - now apply intermediate_track_ticks_bounds.
Qed.

Lemma intermediate_track_ticks_witness :
  Forall (fun m => 0 <= msg_time m)
         (Simplify.intermediate_track
            [NoteOn 0 60 80 0; NoteOn 0 64 20 240; NoteOff 0 64 0 240;
             NoteOff 0 60 0 0; EndOfTrack 0]) /\
  480 - 240 <= 240 <= 480.
Proof.
  apply (intermediate_track_ticks
           [NoteOn 0 60 80 0; NoteOn 0 64 20 240; NoteOff 0 64 0 240;
            NoteOff 0 60 0 0; EndOfTrack 0]).
  repeat constructor; simpl; lia.
Defined.

(** X28. The intermediate level never adds to what [analyse] counts: on the
    regular paths, the report of the simplified file has at most the note
    count and at most the pitch range of the report of the input. *)
Theorem analyse_intermediate (mid : MidiFile) (duration duration' : Q)
    (r r' : DifficultyReport) :
  analyse mid duration = Ok r ->
  analyse (Simplify.simplify_intermediate mid) duration' = Ok r' ->
  note_starts (Simplify.simplify_intermediate mid) <> [] ->
  ~ (duration == 0)%Q ->
  ~ (duration' == 0)%Q ->
  total_notes r' <= total_notes r /\ pitch_range r' <= pitch_range r.
Proof.
  intros H H' Hn' Hd Hd'.
  pose proof (note_starts_intermediate mid) as Hsub.
  assert (Hn : note_starts mid <> []).
  { intros E. rewrite E in Hsub. apply sublist_nil_r in Hsub. contradiction. }
  destruct (analyse_regular _ _ _ H Hn Hd) as (_ & _ & Ht & Hp & _).
  destruct (analyse_regular _ _ _ H' Hn' Hd') as (_ & _ & Ht' & Hp' & _).
  rewrite Ht, Ht', Hp, Hp', !collect_note_events_pitches.
  rewrite <- !(length_map snd), !collect_note_events_pitches, !length_map.
  split.
  - apply sublist_length in Hsub. lia.
  - apply span_sublist.
    + destruct (note_starts (Simplify.simplify_intermediate mid));
        [congruence | discriminate].
    + intros x Hx. apply in_map_iff in Hx. destruct Hx as (m & <- & Hm).
      apply in_map. apply list_elem_of_In.
      eapply elem_of_sublist; [ | exact Hsub]. now apply list_elem_of_In.
Qed.

Lemma analyse_intermediate_witness :
  exists r r',
    analyse late_quiet_note (1 # 2) = Ok r /\
    analyse (Simplify.simplify_intermediate late_quiet_note) (1 # 4) = Ok r' /\
    total_notes r' <= total_notes r /\ pitch_range r' <= pitch_range r.
Proof.
  assert (H : exists r, analyse late_quiet_note (1 # 2) = Ok r)
    by (eexists; vm_compute; reflexivity).
  assert (H' : exists r',
             analyse (Simplify.simplify_intermediate late_quiet_note) (1 # 4)
             = Ok r')
    by (eexists; vm_compute; reflexivity).
  destruct H as [r H]. destruct H' as [r' H']. exists r, r'.
  split; [exact H | ]. split; [exact H' | ].
  apply (analyse_intermediate late_quiet_note (1 # 2) (1 # 4) r r' H H').
  - vm_compute. discriminate.
  - discriminate.
  - discriminate.
Defined.

(** ** The messages of a melody track *)

Section MelodyMessages.
Import Simplify.

Lemma melody_step_msgs d st q :
  Forall melody_msg (melody_track st) ->
  Forall melody_msg (melody_track (melody_step d st q)).
Proof.
  intros H. unfold melody_step.
  destruct (max_by_note _) as [highest | ] eqn:Emax; [ | exact H].
  apply max_by_note_In, filter_In in Emax. destruct Emax as [_ Hstart].
  assert (Hv : 1 <= Z.min (msg_velocity highest) 100 <= 100).
  { destruct highest; simpl in *; try discriminate.
    apply Z.ltb_lt in Hstart. lia. }
  destruct (current_note st); simpl; rewrite ?Forall_app;
    repeat split; try assumption; repeat constructor; simpl; lia.
Qed.

Lemma melody_loop_msgs d keys st :
  Forall melody_msg (melody_track st) ->
  Forall melody_msg (melody_track (fold_left (melody_step d) keys st)).
Proof.
  revert st. induction keys as [ | q keys IH]; intros st H; simpl; [exact H | ].
  apply IH. now apply melody_step_msgs.
Qed.

End MelodyMessages.

(** X29. The melody track of beginner simplification holds note-ons,
    note-offs and the end-of-track marker only, all on channel 0: every
    note-on has a velocity from 1 to 100 and every note-off has velocity 0,
    whatever the channels and velocities of the input. *)
Theorem simplify_beginner_messages (mid out : MidiFile) :
  Simplify.simplify_beginner mid = Ok out ->
  exists tempo_track melody,
    tracks out = [tempo_track; melody] /\ Forall melody_msg melody.
Proof.
  unfold Simplify.simplify_beginner.
  destruct (Simplify.group_events _ _ _) as [d | ]; simpl; [ | discriminate].
  intros [= <-]. simpl. eexists _, _. split; [reflexivity | ].
  assert (H0 : Forall melody_msg
                 (Simplify.melody_track (Simplify.mkMelody None 0 [])))
    by constructor.
  pose proof (melody_loop_msgs d (Simplify.sorted_keys d) _ H0) as H.
  destruct (Simplify.current_note _); rewrite ?Forall_app;
    repeat split; try assumption; repeat constructor.
Qed.

Lemma simplify_beginner_messages_witness :
  exists tempo_track melody,
    tracks test_chord_beginner = [tempo_track; melody] /\
    Forall melody_msg melody.
Proof.
  apply (simplify_beginner_messages test_chord test_chord_beginner).
  vm_compute. reflexivity.
Defined.

(** ** Beginner simplification applied twice *)

Section BeginnerRender.
Import Simplify.

Lemma pick_start d q :
  has_start d q = true ->
  exists highest,
    max_by_note (List.filter is_note_start (default [] (d !! q)))
    = Some highest /\
    is_note_start highest = true /\
    pick d q = (q, msg_note highest, Z.min (msg_velocity highest) 100).
Proof.
  unfold has_start, pick. intros H.
  destruct (max_by_note _) as [highest | ] eqn:Emax.
  - exists highest. split; [reflexivity | ]. split; [ | reflexivity].
    apply max_by_note_In, filter_In in Emax. tauto.
  - apply max_by_note_None in Emax. rewrite Emax in H. discriminate.
Qed.

(** The melody loop emits the rendering of the notes it selects. *)
Lemma melody_loop_render grid d keys st :
  let st' := fold_left (melody_step d) keys st in
  match current_note st' with
  | Some c => melody_track st' ++ [NoteOff 0 c 0 grid]
  | None => melody_track st'
  end ++ [EndOfTrack 0]
  = melody_track st
    ++ render grid (chosen d keys) (current_note st) (last_time st).
Proof.
  revert st. induction keys as [ | q keys IH]; intros st; simpl.
  - unfold chosen. simpl. destruct (current_note st);
      now rewrite <- ?app_assoc.
  - unfold chosen. simpl. destruct (has_start d q) eqn:Hq.
    + rewrite IH. fold (chosen d keys).
      destruct (pick_start d q Hq) as (highest & Emax & _ & Epick).
      simpl. rewrite Epick. unfold melody_step. rewrite Emax.
      destruct (current_note st); simpl; now rewrite <- !app_assoc.
    + rewrite (melody_step_idle d st q Hq). apply IH.
Qed.

Lemma beginner_render (mid out : MidiFile) :
  simplify_beginner mid = Ok out ->
  exists d,
    group_events (ticks_per_beat mid) (sort_events (collect_events mid)) ∅
    = Ok d /\
    out = mkMidiFile (ticks_per_beat mid)
            [ [SetTempo (Z.quot (_find_tempo mid * 5) 4) 0; EndOfTrack 0];
              render (ticks_per_beat mid) (chosen d (sorted_keys d)) None 0 ].
Proof.
  unfold simplify_beginner, _get_ticks_per_beat.
  destruct (group_events _ _ _) as [d | ] eqn:Hd; simpl; [ | discriminate].
  intros [= <-]. exists d. split; [reflexivity | ].
  do 3 f_equal.
  apply (melody_loop_render (ticks_per_beat mid) d (sorted_keys d)
           (mkMelody None 0 [])).
Qed.

End BeginnerRender.

Section BeginnerTwice.
Import Simplify.

Lemma strictly_sorted_ext (l1 l2 : list Z) :
  StronglySorted Z.lt l1 -> StronglySorted Z.lt l2 ->
  (forall x, In x l1 <-> In x l2) -> l1 = l2.
Proof.
  intros H1. revert l2.
  induction H1 as [ | x l1 Hs1 IH Hall1]; intros l2 H2 Hin.
  - destruct l2 as [ | y l2]; [reflexivity | ].
    destruct (proj2 (Hin y)). now left.
  - destruct H2 as [ | y l2 Hs2 Hall2].
    + destruct (proj1 (Hin x)). now left.
    + rewrite List.Forall_forall in Hall1, Hall2.
      assert (x = y) as <-.
      { destruct (proj1 (Hin x)) as [E | Hx]; [now left | now symmetry | ].
        destruct (proj2 (Hin y)) as [E | Hy]; [now left | exact E | ].
        apply Hall1 in Hy. apply Hall2 in Hx. lia. }
      f_equal. apply IH; [exact Hs2 | ]. intros z. split; intros Hz.
      * destruct (proj1 (Hin z)) as [E | Hz']; [now right | | exact Hz'].
        apply Hall1 in Hz. lia.
      * destruct (proj2 (Hin z)) as [E | Hz']; [now right | | exact Hz'].
        apply Hall2 in Hz. lia.
Qed.

(** A note-start among the messages of a rendered melody is the note-on of
    one of its notes, at the time of that note. *)
Lemma render_starts grid L cur last now t m :
  now = last ->
  In (t, m) (to_abstime (render grid L cur last) now) ->
  is_note_start m = true ->
  exists n v delta, m = NoteOn 0 n v delta /\ In (t, n, v) L.
Proof.
  revert cur last now.
  induction L as [ | [[q n] v] L IH]; intros cur last now -> Hin Hm.
  - destruct cur; simpl in Hin;
      repeat (destruct Hin as [[= <- <-] | Hin]; [discriminate | ]);
      destruct Hin.
  - destruct cur as [c | ]; simpl in Hin.
    + destruct Hin as [[= <- <-] | [[= <- <-] | Hin]]; [discriminate | | ].
      * exists n, v, 0. split; [reflexivity | left; f_equal; f_equal; lia].
      * apply IH in Hin; [ | lia | exact Hm].
        destruct Hin as (n' & v' & delta & -> & Hin).
        exists n', v', delta. split; [reflexivity | now right].
    + destruct Hin as [[= <- <-] | Hin].
      * exists n, v, (q - last).
        split; [reflexivity | left; f_equal; f_equal; lia].
      * apply IH in Hin; [ | lia | exact Hm].
        destruct Hin as (n' & v' & delta & -> & Hin).
        exists n', v', delta. split; [reflexivity | now right].
Qed.

(** Each note of a rendered melody has its note-on at its time. *)
Lemma render_has_start grid L cur last now q n v :
  now = last -> In (q, n, v) L ->
  exists delta,
    In (q, NoteOn 0 n v delta) (to_abstime (render grid L cur last) now).
Proof.
  revert cur last now.
  induction L as [ | [[q' n'] v'] L IH]; intros cur last now -> Hin;
    [destruct Hin | ].
  destruct Hin as [[= -> -> ->] | Hin].
  - destruct cur as [c | ]; simpl.
    + exists 0. right. left. f_equal. lia.
    + exists (q - last). left. f_equal. lia.
  - destruct cur as [c | ]; simpl.
    + destruct (IH (Some n') q' (last + (q' - last) + 0)) as (delta & H);
        [lia | exact Hin | ].
      exists delta. right. right. exact H.
    + destruct (IH (Some n') q' (last + (q' - last))) as (delta & H);
        [lia | exact Hin | ].
      exists delta. right. exact H.
Qed.

Lemma pick_fst d q : (pick d q).1.1 = q.
Proof. unfold pick. now destruct (max_by_note _). Qed.

(** The timed notes of a file made of a tempo track and a melody. *)
Lemma timed_notes_melody tpb tempo melody e :
  In e (timed_notes
          (mkMidiFile tpb [[SetTempo tempo 0; EndOfTrack 0]; melody]))
  <-> In e (to_abstime melody 0) /\ is_note_msg e.2 = true.
Proof.
  unfold timed_notes. simpl. rewrite app_nil_r. apply filter_In.
Qed.

Lemma group_events_resolution (mid : MidiFile) d q :
  group_events (ticks_per_beat mid) (sort_events (collect_events mid)) ∅
  = Ok d ->
  In q (sorted_keys d) -> ticks_per_beat mid <> 0.
Proof.
  intros Hd Hq. apply sorted_keys_In in Hq.
  destruct (group_events_keys _ _ _ _ _ Hd Hq) as [Hs | (e & He & Hslot)].
  - rewrite lookup_empty in Hs. now destruct Hs.
  - apply in_slot_true in Hslot. intros E. rewrite E in Hslot.
    unfold _quantise_tick, true_div in Hslot. simpl in Hslot. discriminate.
Qed.

Section Once.
Variables (mid : MidiFile) (d : gmap Z (list Message)) (tempo : Z).
Hypothesis Hd :
  group_events (ticks_per_beat mid) (sort_events (collect_events mid)) ∅
  = Ok d.

Local Abbreviation once :=
  (mkMidiFile (ticks_per_beat mid)
     [ [SetTempo tempo 0; EndOfTrack 0];
       render (ticks_per_beat mid) (chosen d (sorted_keys d)) None 0 ]).

(** A selected note has a velocity between 1 and 100. *)
Lemma pick_velocity q :
  has_start d q = true -> 0 < (pick d q).2 <= 100.
Proof.
  intros Hq. destruct (pick_start d q Hq) as (h & _ & Hh & ->). simpl.
  destruct h; simpl in Hh |- *; try discriminate.
  apply Z.ltb_lt in Hh. lia.
Qed.

(** The note-starts of the output lie in the slots of the selected notes
    and are their note-ons. *)
Lemma once_start q e :
  In e (timed_notes once) -> slot_start (ticks_per_beat mid) q e ->
  In q (List.filter (has_start d) (sorted_keys d)) /\
  exists delta, e.2 = NoteOn 0 (pick d q).1.2 (pick d q).2 delta.
Proof.
  intros He [Hs Hq]. apply timed_notes_melody in He. destruct He as [He _].
  destruct e as [t m]. simpl in *.
  destruct (render_starts _ _ _ _ _ _ _ eq_refl He Hs)
    as (n & v & delta & -> & Hin).
  apply in_map_iff in Hin. destruct Hin as (q' & Epick & Hq').
  pose proof (pick_fst d q') as Efst. rewrite Epick in Efst. simpl in Efst.
  subst q'.
  assert (Hkey : In t (sorted_keys d)) by (apply filter_In in Hq'; tauto).
  destruct (sorted_keys_multiple mid d t Hd Hkey) as (k & ->).
  rewrite quantise_tick_on_grid in Hq
    by exact (group_events_resolution mid d _ Hd Hkey).
  injection Hq as <-. split; [exact Hq' | ].
  exists delta. now rewrite Epick.
Qed.

(** Each selected note is a note-start of its slot in the output. *)
Lemma once_has_start q :
  In q (List.filter (has_start d) (sorted_keys d)) ->
  exists e, In e (timed_notes once) /\ slot_start (ticks_per_beat mid) q e.
Proof.
  intros Hq.
  assert (Hin : In (pick d q) (chosen d (sorted_keys d)))
    by (apply in_map; exact Hq).
  apply filter_In in Hq. destruct Hq as [Hkey Hq].
  pose proof (pick_velocity q Hq) as Hv.
  pose proof (pick_fst d q) as Efst.
  destruct (pick d q) as [[q' n] v]. simpl in *. subst q'.
  destruct (render_has_start (ticks_per_beat mid) _ None 0 0 _ _ _
              eq_refl Hin) as (delta & He).
  exists (q, NoteOn 0 n v delta). split.
  - apply timed_notes_melody. split; [exact He | reflexivity].
  - split; simpl.
    + apply Z.ltb_lt. lia.
    + destruct (sorted_keys_multiple mid d q Hd Hkey) as (k & ->).
      apply quantise_tick_on_grid.
      exact (group_events_resolution mid d _ Hd Hkey).
Qed.

(** Grouping the events of the output selects the same notes again. *)
Lemma once_chosen d' :
  group_events (ticks_per_beat mid) (sort_events (collect_events once)) ∅
  = Ok d' ->
  chosen d' (sorted_keys d') = chosen d (sorted_keys d).
Proof.
  intros Hd'.
  assert (Hslots : forall q,
             In q (List.filter (has_start d') (sorted_keys d'))
             <-> exists e, In e (timed_notes once) /\
                           slot_start (ticks_per_beat mid) q e).
  { intros q. rewrite filter_In. exact (has_start_slot once d' q Hd'). }
  assert (Ekeys : List.filter (has_start d') (sorted_keys d')
                  = List.filter (has_start d) (sorted_keys d)).
  { apply strictly_sorted_ext;
      try (apply StronglySorted_filter_lt, sorted_keys_sorted).
    intros q. rewrite Hslots. split.
    - intros (e & He & Hs). exact (proj1 (once_start q e He Hs)).
    - apply once_has_start. }
  unfold chosen. rewrite Ekeys. apply map_ext_in. intros q Hq.
  assert (Hq' : has_start d' q = true).
  { rewrite <- Ekeys in Hq. apply filter_In in Hq. tauto. }
  destruct (pick_start d' q Hq') as (h & Emax & _ & ->).
  destruct (selected_melody_note once d' q
              (NoteOn 0 (msg_note h) (Z.min (msg_velocity h) 100) 0) Hd')
    as (e & He & Hs & _ & t & Em).
  { exists h, 0. split; [exact Emax | reflexivity]. }
  destruct (once_start q e He Hs) as (_ & delta & Ee).
  injection Em as -> ->. rewrite Ee. simpl.
  assert (Hv : 0 < (pick d q).2 <= 100).
  { apply pick_velocity. apply filter_In in Hq. tauto. }
  pose proof (pick_fst d q) as Efst.
  destruct (pick d q) as [[q' n] v]. simpl in *. subst q'.
  now rewrite Z.min_l by lia.
Qed.

(** The beginner simplification of the output does not fail. *)
Lemma once_ok : exists twice, simplify_beginner once = Ok twice.
Proof.
  destruct (Z.eq_dec (ticks_per_beat mid) 0) as [E | E].
  - assert (Hev : sort_events (collect_events mid) = []).
    { destruct (sort_events (collect_events mid)) as [ | e l] eqn:El;
        [reflexivity | ].
      assert (Herr : group_events (ticks_per_beat mid) (e :: l) ∅
                     = ZeroDivisionError).
      { apply group_events_error. split; [exact E | discriminate]. }
      rewrite Hd in Herr. discriminate. }
    rewrite Hev in Hd. simpl in Hd. injection Hd as <-.
    eexists. reflexivity.
  - apply simplify_beginner_ok. exact E.
Qed.

End Once.

End BeginnerTwice.


